(** * gscan-metaseq2seq: support generation for gSCAN meta-learning

    A shallow embedding of the data generation pipeline of
    [scripts/generate_data.py] and of the [Vocabulary] class of
    [gscan_metaseq2seq/gscan/vocabulary.py], with the properties the
    specification states about them.

    Conventions of the embedding:
    - Python [int] is [Z]; positions of a list are [nat];
    - Python [str] is [string], a list of tokens is [list string];
    - a [dict] is a [gmap], a [defaultdict(list)] is a [gmap] read with
      default [[]], a [set] of integers is a [gset nat];
    - an exception is a constructor of [error] in the [result] type;
    - the draws of [numpy.random] are an explicit argument of the function
      that consumes them. *)

From Stdlib Require Import Ascii ZArith Lia.
From stdpp Require Import gmap strings list fin_maps sorting.
From Equations Require Import Equations.

Open Scope string_scope.
Open Scope Z_scope.
Open Scope list_scope.

(** ** Results and exceptions *)

Inductive error : Type :=
  | AssertionError
  | IndexError
  | KeyError
  | ValueError.

Inductive result (A : Type) : Type :=
  | Ok (a : A)
  | Raise (e : error).
Arguments Ok {A} a.
Arguments Raise {A} e.

#[global] Instance result_ret : MRet result := fun A a => Ok a.
#[global] Instance result_bind : MBind result := fun A B k r =>
  match r with
  | Ok a => k a
  | Raise e => Raise e
  end.

(** Membership test [w in l] of Python, on any type with decidable equality. *)
Definition py_in {A : Type} `{EqDecision A} (w : A) (l : list A) : bool :=
  bool_decide (w ∈ l).

(** The slice [l[:n]]: [n = None] keeps the list, a negative [n] counts
    from the end. *)
Definition py_slice_to {A : Type} (n : option Z) (l : list A) : list A :=
  match n with
  | None => l
  | Some k =>
      if (0 <=? k)%Z then take (Z.to_nat k) l
      else take (Z.to_nat (Z.of_nat (length l) + k)) l
  end.

(** ** Data model (gscan.world) *)

(** [Position = namedtuple("Position", "column row")]. *)
Record Position : Type := mkPosition { column : Z; row : Z }.

(** [Object = namedtuple("Object", "size color shape")]. *)
Record Object : Type := mkObject { size_ : Z; color : string; shape : string }.

(** [PositionedObject]: an object and where it stands. *)
Record PositionedObject : Type :=
  mkPositioned { object : Object; position : Position }.

Record Situation : Type := mkSituation {
  grid_size : Z;
  agent_pos : Position;
  agent_direction : Z;
  target_object : PositionedObject;
  placed_objects : list PositionedObject
}.

#[global] Instance Position_eq_dec : EqDecision Position.
Proof. solve_decision. Defined.
#[global] Instance Object_eq_dec : EqDecision Object.
Proof. solve_decision. Defined.
#[global] Instance PositionedObject_eq_dec : EqDecision PositionedObject.
Proof. solve_decision. Defined.

(** A description option: descriptor words and the object they denote. *)
Definition DescriptionOption : Type := (list string * PositionedObject)%type.

(** ** Prohibition rules *)

Definition ALL_ACTION_OPTIONS : list (list string) :=
  [["walk"; "to"]; ["push"]; ["pull"]].
Definition ALL_ADVERB_OPTIONS : list (list string) :=
  [["while spinning"]; ["while zigzagging"]; ["hesitantly"]; []].

Definition is_prohibited_action_adverb_combo
    (action_words adverb_words : list string) : option string :=
  if py_in "pull" action_words && py_in "while spinning" adverb_words
  then Some "H" else None.

Definition is_prohibited_description
    (agent_pos : Position) (target_object : PositionedObject)
    (description_words : list string)
    (allow_demonstration_splits : option (list string)) : option string :=
  let allow_demonstration_splits := default [] allow_demonstration_splits in
  if py_in "yellow" description_words
     && py_in "square" description_words
     && negb (py_in "B" allow_demonstration_splits)
  then Some "B"
  else if String.eqb (color (object target_object)) "red"
     && String.eqb (shape (object target_object)) "square"
     && negb (py_in "C" allow_demonstration_splits)
  then Some "C"
  else if (row agent_pos <? row (position target_object))
     && (column agent_pos >? column (position target_object))
     && negb (py_in "D" allow_demonstration_splits)
  then Some "D"
  else if py_in "small" description_words
     && (size_ (object target_object) =? 2)
     && String.eqb (shape (object target_object)) "circle"
     && negb (py_in "E" allow_demonstration_splits)
  then Some "E"
  else if py_in "push" description_words
     && (size_ (object target_object) =? 3)
     && String.eqb (shape (object target_object)) "square"
     && negb (py_in "F" allow_demonstration_splits)
  then Some "F"
  else None.

(** The five rules as the specification words them. *)
Module Rules.

Definition B (words : list string) : Prop :=
  "yellow" ∈ words /\ "square" ∈ words.
Definition C (t : PositionedObject) : Prop :=
  color (object t) = "red" /\ shape (object t) = "square".
Definition D (agent : Position) (t : PositionedObject) : Prop :=
  row agent < row (position t) /\ column agent > column (position t).
Definition E (words : list string) (t : PositionedObject) : Prop :=
  "small" ∈ words /\ size_ (object t) = 2 /\ shape (object t) = "circle".
Definition F (words : list string) (t : PositionedObject) : Prop :=
  "push" ∈ words /\ size_ (object t) = 3 /\ shape (object t) = "square".

(** The first rule that matches, in the order B, C, D, E, F. *)
Inductive first_match (agent : Position) (t : PositionedObject)
    (words : list string) : option string -> Prop :=
  | match_B : B words -> first_match agent t words (Some "B")
  | match_C : ~ B words -> C t -> first_match agent t words (Some "C")
  | match_D : ~ B words -> ~ C t -> D agent t ->
      first_match agent t words (Some "D")
  | match_E : ~ B words -> ~ C t -> ~ D agent t -> E words t ->
      first_match agent t words (Some "E")
  | match_F : ~ B words -> ~ C t -> ~ D agent t -> ~ E words t -> F words t ->
      first_match agent t words (Some "F")
  | match_none : ~ B words -> ~ C t -> ~ D agent t -> ~ E words t ->
      ~ F words t -> first_match agent t words None.

End Rules.

(** The rule that a letter names. *)
Definition rule_holds (agent : Position) (t : PositionedObject)
    (words : list string) (letter : string) : Prop :=
  (letter = "B" /\ Rules.B words)
  \/ (letter = "C" /\ Rules.C t)
  \/ (letter = "D" /\ Rules.D agent t)
  \/ (letter = "E" /\ Rules.E words t)
  \/ (letter = "F" /\ Rules.F words t).

#[global] Instance rule_holds_dec agent t words letter :
  Decision (rule_holds agent t words letter).
Proof. unfold rule_holds, Rules.B, Rules.C, Rules.D, Rules.E, Rules.F. apply _. Defined.

(** [SPLITS_NAMES_MAP]: the letter under which a split of the corpus is
    written out. *)
Definition SPLITS_NAMES_MAP : gmap string string :=
  list_to_map
    [("train", "train"); ("test", "a"); ("visual_easier", "b");
     ("visual", "c"); ("situational_1", "d"); ("situational_2", "e");
     ("contextual", "f"); ("adverb_2", "h"); ("adverb_1", "g")].

(** [SPLITS_ALLOW_ORACLE_DEMONSTRATIONS]: the rules waived when the supports
    of a split are generated. *)
Definition SPLITS_ALLOW_ORACLE_DEMONSTRATIONS : gmap string (list string) :=
  list_to_map
    [("train", []);
     ("test", ["A"; "B"; "C"; "D"; "E"; "F"; "G"; "H"]);
     ("visual_easier", ["A"; "C"; "D"; "E"; "F"; "G"; "H"]);
     ("visual", ["A"; "B"; "D"; "E"; "F"; "G"; "H"]);
     ("situational_1", ["A"; "B"; "C"; "E"; "F"; "G"; "H"]);
     ("situational_2", ["A"; "B"; "C"; "D"; "F"; "G"; "H"]);
     ("contextual", ["A"; "B"; "C"; "D"; "E"; "G"; "H"]);
     ("adverb_1", ["A"; "B"; "C"; "D"; "E"; "F"; "G"; "H"]);
     ("adverb_2", ["A"; "B"; "C"; "D"; "E"; "F"; "G"])].

(** [SPLITS_ALLOW_ORACLE_DEMONSTRATIONS.get(current_split, [])]. *)
Definition allowed_demonstration_splits (current_split : string)
    : list string :=
  default [] (SPLITS_ALLOW_ORACLE_DEMONSTRATIONS !! current_split).

(** ** The oracle: description options *)

(** The two size tables of [generate_description_words_options]: for every
    (shape, color) the largest and the smallest size placed, built by one
    pass over the placed objects.  The nested [defaultdict]s are one map
    keyed by the pair; a missing key reads as the default of the
    [defaultdict] (0 for the maximum, 10 for the minimum). *)
Definition object_type (o : PositionedObject) : string * string :=
  (shape (object o), color (object o)).

Definition object_types_max_sizes (objs : list PositionedObject)
    : gmap (string * string) Z :=
  foldl (fun m o =>
           <[object_type o :=
               Z.max (default 0 (m !! object_type o)) (size_ (object o))]> m)
        ∅ objs.

Definition object_types_min_sizes (objs : list PositionedObject)
    : gmap (string * string) Z :=
  foldl (fun m o =>
           <[object_type o :=
               Z.min (default 10 (m !! object_type o)) (size_ (object o))]> m)
        ∅ objs.

Definition size_tag (mx mn : gmap (string * string) Z)
    (o : PositionedObject) : list string :=
  if size_ (object o) =? default 0 (mx !! object_type o) then ["big"]
  else if size_ (object o) =? default 10 (mn !! object_type o) then ["small"]
  else [].

Definition generate_description_words_options
    (situation : Situation) (description_words : list string)
    : list DescriptionOption :=
  let mx := object_types_max_sizes (placed_objects situation) in
  let mn := object_types_min_sizes (placed_objects situation) in
  (description_words, target_object situation)
  :: map (fun o =>
            (size_tag mx mn o ++ [color (object o); shape (object o)], o))
         (filter (fun o => position o ≠ position (target_object situation))
                 (placed_objects situation)).

(** ** The oracle: round-robin ordering of the alternatives *)

Inductive Mode : Type := ModeColor | ModeObject | ModeSize.

#[global] Instance Mode_eq_dec : EqDecision Mode.
Proof. solve_decision. Defined.

Definition next_mode (m : Mode) : Mode :=
  match m with
  | ModeColor => ModeObject
  | ModeObject => ModeSize
  | ModeSize => ModeColor
  end.

Definition size_words : list string := ["big"; "small"].

(** [any([c in query_description_words for c in dwc])] where [dwc] are the
    words of the option that belong to [vocabulary]. *)
Definition matches_word (vocabulary query_description_words : list string)
    (dw : DescriptionOption) : bool :=
  existsb (fun c => py_in c query_description_words)
          (filter (fun w => w ∈ vocabulary) dw.1).

(** [sorted(option_indices, key=lambda i: matches[i], reverse=True)]: the
    sort of Python is stable and stays so under [reverse=True], so the
    result is the indices whose key is [True], in their order, followed by
    those whose key is [False], in their order. *)
Definition sorted_by_match (matches : list bool) (option_indices : list nat)
    : list nat :=
  filter (fun i => matches !!! i = true) option_indices
  ++ filter (fun i => matches !!! i ≠ true) option_indices.

(** The tables the generator reads: for each mode the match flags and the
    sorted index array. *)
Record MatchTables : Type := mkTables {
  option_matches : Mode -> list bool;
  indices_indexes_array : Mode -> list nat
}.

(** The state the generator mutates: the mode, a cursor per mode and the
    set of option indices not yet yielded. *)
Record Cursor : Type := mkCursor {
  mode : Mode;
  indices_indexes : Mode -> nat;
  option_indices_set : gset nat
}.

Definition advance (ix : Mode -> nat) (m : Mode) : Mode -> nat :=
  fun m' => if decide (m' = m) then S (ix m') else ix m'.

Definition all_modes : list Mode := [ModeColor; ModeObject; ModeSize].

(** The [while] loop of [sort_description_words_by_query_match]; one unit
    of [fuel] per iteration.  The result is the list of yielded option
    indices, or [None] when the fuel is used up before the loop ends. *)
Fixpoint round_robin_loop (fuel : nat) (t : MatchTables) (st : Cursor)
    : option (list nat) :=
  match fuel with
  | O => None
  | S fuel' =>
      if negb (existsb (fun m => (indices_indexes st m
                                  <? length (indices_indexes_array t m))%nat)
                       all_modes)
      then Some []
      else if (length (indices_indexes_array t (mode st))
               <=? indices_indexes st (mode st))%nat
      then round_robin_loop fuel' t
             (mkCursor (next_mode (mode st)) (indices_indexes st)
                       (option_indices_set st))
      else
        let possible_option :=
          indices_indexes_array t (mode st) !!! indices_indexes st (mode st) in
        if negb (bool_decide (possible_option ∈ option_indices_set st))
           || negb (option_matches t (mode st) !!! possible_option)
        then round_robin_loop fuel' t
               (mkCursor (mode st) (advance (indices_indexes st) (mode st))
                         (option_indices_set st))
        else
          rest ← round_robin_loop fuel' t
                   (mkCursor (next_mode (mode st))
                             (advance (indices_indexes st) (mode st))
                             (option_indices_set st ∖ {[possible_option]}));
          Some (possible_option :: rest)
  end.

Definition match_tables (description_words_options : list DescriptionOption)
    (query_description_words vocabulary_colors vocabulary_nouns : list string)
    : MatchTables :=
  let option_indices := seq 0 (length description_words_options) in
  let flags (m : Mode) : list bool :=
    map (matches_word
           match m with
           | ModeColor => vocabulary_colors
           | ModeObject => vocabulary_nouns
           | ModeSize => size_words
           end
           query_description_words)
        description_words_options in
  mkTables flags (fun m => sorted_by_match (flags m) option_indices).

Definition initial_cursor (n : nat) : Cursor :=
  mkCursor ModeColor (fun _ => 0%nat) (list_to_set (seq 0 n)).

(** Iterations that always suffice for [n] options (see
    [round_robin_loop_terminates]). *)
Definition round_robin_fuel (n : nat) : nat := (12 * n + 4)%nat.

(** The option indices in the order the generator yields them. *)
Definition sorted_option_indices
    (description_words_options : list DescriptionOption)
    (query_description_words vocabulary_colors vocabulary_nouns : list string)
    : list nat :=
  let n := length description_words_options in
  default []
    (round_robin_loop (round_robin_fuel n)
       (match_tables description_words_options query_description_words
          vocabulary_colors vocabulary_nouns)
       (initial_cursor n)).

Definition sort_description_words_by_query_match
    (description_words_options : list DescriptionOption)
    (query_description_words vocabulary_colors vocabulary_nouns : list string)
    : list DescriptionOption :=
  omap (fun i => description_words_options !! i)
       (sorted_option_indices description_words_options
          query_description_words vocabulary_colors vocabulary_nouns).

(** *** The ordering as the specification words it

    Round-robin over the modes color, object, size.  In a mode, the option
    picked is the first one in the order of the list that has not been
    emitted yet and matches the criterion of the mode; a mode with no such
    option passes its turn to the next mode; after an emission the turn goes
    to the mode after the one that emitted; the ordering ends when no mode
    has an option to pick. *)
Definition pickable (matches : Mode -> list bool) (m : Mode)
    (remaining : gset nat) (i : nat) : Prop :=
  i ∈ remaining /\ matches m !!! i = true.

Definition pick (matches : Mode -> list bool) (n : nat) (m : Mode)
    (remaining : gset nat) : option nat :=
  head (filter (pickable matches m remaining) (seq 0 n)).

Definition first_pick (matches : Mode -> list bool) (n : nat) (m : Mode)
    (remaining : gset nat) : option (nat * Mode) :=
  match pick matches n m remaining with
  | Some i => Some (i, m)
  | None =>
      match pick matches n (next_mode m) remaining with
      | Some i => Some (i, next_mode m)
      | None =>
          match pick matches n (next_mode (next_mode m)) remaining with
          | Some i => Some (i, next_mode (next_mode m))
          | None => None
          end
      end
  end.

Fixpoint round_robin_spec (k : nat) (matches : Mode -> list bool) (n : nat)
    (m : Mode) (remaining : gset nat) : list nat :=
  match k with
  | O => []
  | S k' =>
      match first_pick matches n m remaining with
      | None => []
      | Some (i, m') =>
          i :: round_robin_spec k' matches n (next_mode m')
                 (remaining ∖ {[i]})
      end
  end.

(** *** Invariant and measure of the generator's loop *)

(** No entry that a cursor has passed can still be picked. *)
Definition cursor_invariant (t : MatchTables) (st : Cursor) : Prop :=
  forall (m : Mode) (j p : nat),
    (j < indices_indexes st m)%nat ->
    indices_indexes_array t m !! j = Some p ->
    ~ pickable (option_matches t) m (option_indices_set st) p.

(** Turns to pass before a mode with entries left is reached. *)
Definition turns_to_pass (n : nat) (st : Cursor) : nat :=
  if (indices_indexes st (mode st) <? n)%nat then 0%nat
  else if (indices_indexes st (next_mode (mode st)) <? n)%nat then 1%nat
  else if (indices_indexes st (next_mode (next_mode (mode st))) <? n)%nat
  then 2%nat
  else 3%nat.

Definition loop_measure (n : nat) (st : Cursor) : nat :=
  (4 * ((n - indices_indexes st ModeColor)
        + (n - indices_indexes st ModeObject)
        + (n - indices_indexes st ModeSize))
   + turns_to_pass n st)%nat.

(** ** The oracle: verb and adverb combinations *)

(** [itertools.product(xs, ys)]. *)
Definition product {A B : Type} (xs : list A) (ys : list B) : list (A * B) :=
  x ← xs; y ← ys; [(x, y)].

Definition all_in (ws words : list string) : bool :=
  forallb (fun w => py_in w words) ws.

Definition nonempty {A : Type} (l : list A) : bool :=
  match l with [] => false | _ => true end.

Definition generate_limited_adverb_verb_combos
    (possible_verbs possible_adverbs : list (list string))
    (verb_words_in_instruction adverb_words_in_instruction : list string)
    : list (list string * list string) :=
  filter (fun '(possible_verb, possible_adverb) =>
            let verb_is_in_instruction :=
              all_in possible_verb verb_words_in_instruction in
            let adverb_is_in_instruction :=
              (nonempty possible_adverb
               && all_in possible_adverb adverb_words_in_instruction)
              || (negb (nonempty adverb_words_in_instruction)
                  && negb (nonempty possible_adverb)) in
            (adverb_is_in_instruction || verb_is_in_instruction) = true)
         (product possible_verbs possible_adverbs).

(** ** The oracle: [generate_relevant_instructions_gscan_oracle] *)

Record OracleOptions : Type := mkOracleOptions {
  n_description_options : option Z;
  demonstrate_target : bool;
  allow_demonstration_splits : option (list string);
  allow_any_example : bool;
  num_demos : Z;
  pick_random : bool;
  limit_verb_adverb : bool
}.

Definition vocabulary_verbs : list string := ["walk"; "to"; "push"; "pull"].
Definition vocabulary_adverbs : list string :=
  ["while spinning"; "while zigzagging"; "hesitantly"; "cautiously"].

(** The words of the query by category (the first loop of the oracle). *)
Record Segmented : Type := mkSegmented {
  action_words : list string;
  article_words : list string;
  description_words : list string;
  adverb_words : list string
}.

Definition segment_query (query_instruction : list string)
    (vocabulary_colors vocabulary_nouns : list string) : Segmented :=
  let vocabulary_descriptors :=
    vocabulary_colors ++ vocabulary_nouns ++ ["big"; "small"] in
  mkSegmented
    (filter (fun w => w ∈ vocabulary_verbs) query_instruction)
    (filter (fun w => w ∈ ["a"]) query_instruction)
    (filter (fun w => w ∈ vocabulary_descriptors) query_instruction)
    (filter (fun w => w ∈ vocabulary_adverbs) query_instruction).

Definition real_adverb_options (query_instruction : list string)
    : list (list string) :=
  if py_in "cautiously" query_instruction
  then ALL_ADVERB_OPTIONS ++ [["cautiously"]]
  else ALL_ADVERB_OPTIONS.

Definition adverb_verb_combos (o : OracleOptions)
    (query_instruction : list string) (sg : Segmented)
    : list (list string * list string) :=
  if limit_verb_adverb o
  then generate_limited_adverb_verb_combos ALL_ACTION_OPTIONS
         (real_adverb_options query_instruction)
         (action_words sg) (adverb_words sg)
  else product ALL_ACTION_OPTIONS (real_adverb_options query_instruction).

(** The alternatives after the round-robin ordering and the prohibition
    filter; the waiver set [allow_demonstration_splits] is passed on. *)
Definition filtered_sorted_other_description_words (o : OracleOptions)
    (situation : Situation) (sg : Segmented)
    (vocabulary_colors vocabulary_nouns : list string)
    : list DescriptionOption :=
  let other_description_words :=
    drop 1 (generate_description_words_options situation
              (description_words sg)) in
  let sorted_other_description_words :=
    sort_description_words_by_query_match other_description_words
      (description_words sg) vocabulary_colors vocabulary_nouns in
  if allow_any_example o then sorted_other_description_words
  else filter (fun dw =>
                 is_prohibited_description (agent_pos situation) dw.2 dw.1
                   (allow_demonstration_splits o) = None)
              sorted_other_description_words.

(** The true target's option after the check that may set it aside: the
    list is either the target's option or empty. *)
Definition target_description_words (o : OracleOptions)
    (situation : Situation) (sg : Segmented)
    (filtered_others : list DescriptionOption) : list DescriptionOption :=
  let target_description_words :=
    take 1 (generate_description_words_options situation
              (description_words sg)) in
  if nonempty filtered_others then
    if negb (demonstrate_target o) then []
    else if negb (allow_any_example o)
            && bool_decide
                 (is_Some
                    (is_prohibited_description (agent_pos situation)
                       (target_object situation) (description_words sg) None))
    then []
    else target_description_words
  else target_description_words.

Definition description_words_options (o : OracleOptions)
    (situation : Situation) (sg : Segmented)
    (vocabulary_colors vocabulary_nouns : list string)
    : list DescriptionOption :=
  let filtered_others :=
    filtered_sorted_other_description_words o situation sg
      vocabulary_colors vocabulary_nouns in
  py_slice_to (n_description_options o)
    (target_description_words o situation sg filtered_others
     ++ filtered_others).

(** The two nested loops that build [support_instructions]. *)
Definition support_instructions (o : OracleOptions)
    (query_instruction : list string) (sg : Segmented)
    (options : list DescriptionOption)
    (combos : list (list string * list string))
    : list (list string * PositionedObject) :=
  dw ← options;
  combo ← combos;
  if bool_decide (is_Some (is_prohibited_action_adverb_combo combo.1 combo.2))
     && negb (allow_any_example o)
  then []
  else
    let proposed_support_instruction :=
      (combo.1 ++ article_words sg ++ dw.1 ++ combo.2, dw.2) in
    if bool_decide (proposed_support_instruction.1 = query_instruction)
    then []
    else [proposed_support_instruction].

(** [permutation n] stands for the draw [np.random.permutation(n)]. *)
Definition generate_relevant_instructions_gscan_oracle
    (permutation : nat -> list nat)
    (query_instruction : list string) (situation : Situation)
    (vocabulary_colors vocabulary_nouns : list string) (o : OracleOptions)
    : result (list (list string * PositionedObject)) :=
  let sg := segment_query query_instruction vocabulary_colors vocabulary_nouns in
  let combos := adverb_verb_combos o query_instruction sg in
  let options :=
    description_words_options o situation sg vocabulary_colors vocabulary_nouns in
  let supports := support_instructions o query_instruction sg options combos in
  if negb (nonempty (default [] (allow_demonstration_splits o)))
     && negb (nonempty supports)
  then Ok []
  else if negb (0 <? length supports)%nat then Raise AssertionError
  else if pick_random o then
    mapM (fun i => match supports !! i with
                   | Some s => Ok s
                   | None => Raise IndexError
                   end)
         (py_slice_to (Some (num_demos o)) (permutation (length supports)))
  else Ok (py_slice_to (Some (num_demos o)) supports).

(** ** Commands as text *)

(** [s.split(sep)] for a one-character separator. *)
Fixpoint str_split (sep : Ascii.ascii) (s : string) : list string :=
  match s with
  | EmptyString => [EmptyString]
  | String c s' =>
      if Ascii.eqb c sep then EmptyString :: str_split sep s'
      else match str_split sep s' with
           | [] => [String c EmptyString]
           | w :: ws => String c w :: ws
           end
  end.

(** [sep.join(l)]. *)
Fixpoint str_join (sep : string) (l : list string) : string :=
  match l with
  | [] => EmptyString
  | w :: l' =>
      match l' with
      | [] => w
      | _ => (w ++ sep ++ str_join sep l')%string
      end
  end.

(** Iterating over a [str] gives its characters as one-character strings. *)
Fixpoint characters (s : string) : list string :=
  match s with
  | EmptyString => []
  | String c s' => String c EmptyString :: characters s'
  end.

Definition parse_command_repr (command_repr : string) : list string :=
  str_split ","%char command_repr.

(** [c in s] for a character [c]. *)
Fixpoint str_contains (c : Ascii.ascii) (s : string) : bool :=
  match s with
  | EmptyString => false
  | String c' s' => Ascii.eqb c' c || str_contains c s'
  end.

(** An example of the corpus: the comma-joined command and action
    sequence and the situation ([Situation.from_representation] of the
    stored record). *)
Record Example : Type := mkExample {
  command : string;
  target_commands : string;
  situation : Situation
}.

(** [enumerate(l)]. *)
Definition enumerate {A : Type} (l : list A) : list (nat * A) :=
  imap (fun i x => (i, x)) l.

(** ** Index builders *)

(** Append [index] to the bucket of [key] in a [defaultdict(list)]. *)
Definition bucket_append `{Countable K} (key : K) (index : nat)
    (m : gmap K (list nat)) : gmap K (list nat) :=
  <[key := default [] (m !! key) ++ [index]]> m.

Definition command_text (example : Example) : string :=
  str_join " " (parse_command_repr (command example)).

Definition sort_indices_by_command (examples : list Example)
    : gmap string (list nat) :=
  foldl (fun command_examples '(index, example) =>
           bucket_append (command_text example) index command_examples)
        ∅ (enumerate examples).

(** Append [index] to bucket [[x][y]] of a [defaultdict] of
    [defaultdict(list)]. *)
Definition bucket_append2 (x y : Z) (index : nat)
    (m : gmap Z (gmap Z (list nat))) : gmap Z (gmap Z (list nat)) :=
  <[x := bucket_append y index (default ∅ (m !! x))]> m.

(** Reading [m[x][y]] of the nested [defaultdict]: a missing bucket reads
    as the empty list. *)
Definition bucket2 (m : gmap Z (gmap Z (list nat))) (x y : Z) : list nat :=
  default [] (default ∅ (m !! x) !! y).

Definition sort_indices_by_offsets (examples : list Example)
    : gmap Z (gmap Z (list nat)) :=
  foldl (fun commands_by_offsets '(index, example) =>
           let s := situation example in
           let x_offset :=
             column (position (target_object s)) - column (agent_pos s) in
           let y_offset :=
             row (position (target_object s)) - row (agent_pos s) in
           bucket_append2 x_offset y_offset index commands_by_offsets)
        ∅ (enumerate examples).

Definition sort_indices_by_target_positions (examples : list Example)
    : gmap Z (gmap Z (list nat)) :=
  foldl (fun commands_by_positions '(index, example) =>
           let s := situation example in
           let x := column (position (target_object s)) in
           let y := row (position (target_object s)) in
           bucket_append2 x y index commands_by_positions)
        ∅ (enumerate examples).

(** ** Binary search in a bucket *)

(** The loop of [bisect.bisect_left(a, x)] between [lo] and [hi]. *)
Equations? bisect_left_loop (a : list nat) (x : nat) (lo hi : nat) : nat
  by wf (hi - lo)%nat lt :=
  bisect_left_loop a x lo hi with decide (lo < hi)%nat := {
    | left _ =>
        let mid := ((lo + hi) / 2)%nat in
        if decide (a !!! mid < x)%nat
        then bisect_left_loop a x (mid + 1)%nat hi
        else bisect_left_loop a x lo mid
    | right _ => lo
  }.
Proof.
  all: subst mid;
    change (Nat.divmod (lo + hi) 1 0 1).1 with ((lo + hi) / 2)%nat in *;
    pose proof (Nat.div_mod_eq (lo + hi) 2);
    pose proof (Nat.mod_upper_bound (lo + hi) 2); lia.
Qed.

Definition bisect_left (a : list nat) (x : nat) : nat :=
  bisect_left_loop a x 0 (length a).

Definition find_in_sorted_list (a : list nat) (x : nat) : bool :=
  let i := bisect_left a x in
  bool_decide (i ≠ length a) && bool_decide (a !!! i = x).

(** ** Retrieval strategies that look examples up *)

(** What a strategy returns: support instructions, support targets and
    support layouts, position by position. *)
Definition Supports : Type :=
  (list (list string) * list (list string) * list Situation)%type.

(** [np.random.choice(a, size=size, replace=True)]; [draw j] is the [j]-th
    random number, reduced to a position of [a]. *)
Definition random_choice_replace {A : Type} (draw : nat -> nat)
    (a : list A) (size : Z) : result (list A) :=
  if size <? 0 then Raise ValueError
  else if negb (nonempty a) && (0 <? size) then Raise ValueError
  else Ok (omap (fun j => a !! (draw j mod length a)%nat)
                (seq 0 (Z.to_nat size))).

(** [np.random.choice(a, size=size, replace=False)]; [shuffle a] is a random
    arrangement of [a]. *)
Definition random_choice_no_replace {A : Type}
    (shuffle : list A -> list A) (a : list A) (size : Z) : result (list A) :=
  if size <? 0 then Raise ValueError
  else if Z.of_nat (length a) <? size then Raise ValueError
  else Ok (take (Z.to_nat size) (shuffle a)).

(** The comprehension that drops the candidates found in the bucket of the
    query's own command text.  The bucket is read once per candidate, from
    a plain [dict]: a missing key raises as soon as there is a candidate. *)
Definition exclude_same_command
    (sorted_example_indices_by_command : gmap string (list nat))
    (command_key : string) (possible_demos : list nat) : result (list nat) :=
  match possible_demos with
  | [] => Ok []
  | _ =>
      match sorted_example_indices_by_command !! command_key with
      | None => Raise KeyError
      | Some bucket =>
          Ok (filter (fun p => find_in_sorted_list bucket p = false)
                     possible_demos)
      end
  end.

Definition get_example (train_examples : list Example) (example_idx : nat)
    : result Example :=
  match train_examples !! example_idx with
  | Some e => Ok e
  | None => Raise IndexError
  end.

(** The final loop shared by the lookup strategies: one support per
    retrieved example. *)
Definition supports_of_examples (train_examples : list Example)
    (relevant_demos : list nat) : result Supports :=
  examples ← mapM (get_example train_examples) relevant_demos;
  Ok (map (fun e => parse_command_repr (command e)) examples,
      map (fun e => parse_command_repr (target_commands e)) examples,
      map situation examples).

Definition find_supports_with_any_target_object_in_same_position
    (draw : nat -> nat) (command : list string) (situation : Situation)
    (sorted_example_indices_by_target_x_y : gmap Z (gmap Z (list nat)))
    (sorted_example_indices_by_command : gmap string (list nat))
    (train_examples : list Example) (num_demos : Z) : result Supports :=
  let x_pos := column (position (target_object situation)) in
  let y_pos := row (position (target_object situation)) in
  let command_key := str_join " " command in
  let possible_demos :=
    bucket2 sorted_example_indices_by_target_x_y x_pos y_pos in
  possible_demos ←
    exclude_same_command sorted_example_indices_by_command command_key
      possible_demos;
  relevant_demos ←
    random_choice_replace draw possible_demos
      (Z.min (Z.of_nat (length possible_demos)) num_demos);
  supports_of_examples train_examples relevant_demos.

Definition find_supports_with_same_agent_target_offset
    (draw : nat -> nat) (command : list string) (situation : Situation)
    (sorted_example_indices_by_x_y_distance_to_agent
       : gmap Z (gmap Z (list nat)))
    (sorted_example_indices_by_command : gmap string (list nat))
    (train_examples : list Example) (num_demos : Z) : result Supports :=
  let x_diff :=
    column (position (target_object situation))
    - column (agent_pos situation) in
  let y_diff :=
    row (position (target_object situation)) - row (agent_pos situation) in
  let command_key := str_join " " command in
  let possible_demos :=
    bucket2 sorted_example_indices_by_x_y_distance_to_agent x_diff y_diff in
  possible_demos ←
    exclude_same_command sorted_example_indices_by_command command_key
      possible_demos;
  relevant_demos ←
    random_choice_replace draw possible_demos
      (Z.min (Z.of_nat (length possible_demos)) num_demos);
  supports_of_examples train_examples relevant_demos.

(** The payloads that [main] computes once per split for the two strategies
    above, from the examples of the split "train". *)
Definition find_supports_with_any_target_object_in_same_position_payload
    (train_examples : list Example)
    : gmap Z (gmap Z (list nat)) * gmap string (list nat) * list Example :=
  (sort_indices_by_target_positions train_examples,
   sort_indices_by_command train_examples,
   train_examples).

Definition find_supports_with_same_agent_target_offset_payload
    (train_examples : list Example)
    : gmap Z (gmap Z (list nat)) * gmap string (list nat) * list Example :=
  (sort_indices_by_offsets train_examples,
   sort_indices_by_command train_examples,
   train_examples).

(** [random_find_matching].  The drawn elements are the command texts
    themselves ([str]), so [" ".join] runs over the characters of each. *)
Definition generate_random_instructions_find_support_in_any_layout
    (shuffle : list string -> list string) (draw : nat -> nat)
    (command : list string)
    (sorted_example_indices_by_command : gmap string (list nat))
    (train_examples : list Example) (num_demos : Z)
    : result (list string * list (list string) * list Situation) :=
  let command_key := str_join " " command in
  random_instructions ←
    random_choice_no_replace shuffle
      (elements (dom sorted_example_indices_by_command ∖ {[command_key]}))
      num_demos;
  found ←
    mapM (fun '(j, support_instruction_command) =>
            let key := str_join " " (characters support_instruction_command) in
            match sorted_example_indices_by_command !! key with
            | None => Ok None
            | Some bucket =>
                match bucket !! (draw j mod length bucket)%nat with
                | None => Raise ValueError
                | Some relevant_example_idx =>
                    relevant_example ←
                      get_example train_examples relevant_example_idx;
                    Ok (Some (support_instruction_command, relevant_example))
                end
            end)
         (enumerate random_instructions);
  let kept := omap id found in
  Ok (map fst kept,
      map (fun se => parse_command_repr (target_commands se.2)) kept,
      map (fun se => situation se.2) kept).

(** ** The index by offset and target description *)

(** The five-level [defaultdict] of
    [sort_indices_by_target_diff_and_description], keyed by the offset in
    columns, the offset in rows, and the size, the shape and the color of
    the target. *)
Definition DiffDescriptionIndex : Type :=
  gmap Z (gmap Z (gmap Z (gmap string (gmap string (list nat))))).

(** Append [index] to bucket [[x][y][size][shape][color]]. *)
Definition bucket_append5 (x y size : Z) (shape color : string)
    (index : nat) (m : DiffDescriptionIndex) : DiffDescriptionIndex :=
  let by_y := default ∅ (m !! x) in
  let by_size := default ∅ (by_y !! y) in
  let by_shape := default ∅ (by_size !! size) in
  let by_color := default ∅ (by_shape !! shape) in
  <[x := <[y := <[size := <[shape := bucket_append color index by_color]>
                             by_shape]> by_size]> by_y]> m.

(** Reading [m[x][y][size][shape][color]]: a missing bucket reads as the
    empty list. *)
Definition bucket5 (m : DiffDescriptionIndex) (x y size : Z)
    (shape color : string) : list nat :=
  default []
    (default ∅ (default ∅ (default ∅ (default ∅ (m !! x) !! y) !! size)
                  !! shape) !! color).

Definition sort_indices_by_target_diff_and_description
    (examples : list Example) : DiffDescriptionIndex :=
  foldl (fun commands_by_offsets_and_descriptions '(index, example) =>
           let s := situation example in
           let x_diff :=
             column (position (target_object s)) - column (agent_pos s) in
           let y_diff :=
             row (position (target_object s)) - row (agent_pos s) in
           let size := size_ (object (target_object s)) in
           let shape := shape (object (target_object s)) in
           let color := color (object (target_object s)) in
           bucket_append5 x_diff y_diff size shape color index
             commands_by_offsets_and_descriptions)
        ∅ (enumerate examples).

(** [find_by_matching_same_object_in_same_diff]: the candidates are drawn
    without replacement. *)
Definition find_supports_by_matching_object_in_same_diff
    (shuffle : list nat -> list nat) (command : list string)
    (situation : Situation)
    (example_indices_by_target_x_y_diff_object : DiffDescriptionIndex)
    (sorted_example_indices_by_command : gmap string (list nat))
    (train_examples : list Example) (num_demos : Z) : result Supports :=
  let target_object_size := size_ (object (target_object situation)) in
  let target_object_shape := shape (object (target_object situation)) in
  let target_object_color := color (object (target_object situation)) in
  let x_diff :=
    column (position (target_object situation))
    - column (agent_pos situation) in
  let y_diff :=
    row (position (target_object situation)) - row (agent_pos situation) in
  let command_key := str_join " " command in
  let possible_demos :=
    bucket5 example_indices_by_target_x_y_diff_object x_diff y_diff
      target_object_size target_object_shape target_object_color in
  possible_demos ←
    exclude_same_command sorted_example_indices_by_command command_key
      possible_demos;
  relevant_demos ←
    random_choice_no_replace shuffle possible_demos
      (Z.min (Z.of_nat (length possible_demos)) num_demos);
  supports_of_examples train_examples relevant_demos.

Definition find_supports_by_matching_object_in_same_diff_payload
    (train_examples : list Example)
    : DiffDescriptionIndex * gmap string (list nat) * list Example :=
  (sort_indices_by_target_diff_and_description train_examples,
   sort_indices_by_command train_examples,
   train_examples).

(** ** Strategies that call the oracle *)

(** The keyword arguments of a generation mode; a key that the
    configuration does not set is [None] and is read with the default of
    [options.get]. *)
Record GenerationOptions : Type := mkGenerationOptions {
  opt_n_description_options : option Z;
  opt_demonstrate_target : option bool;
  opt_allow_any_example : option bool;
  opt_num_demos : option Z;
  opt_pick_random : option bool;
  opt_limit_verb_adverb : option bool;
  opt_can_parallel : option bool
}.

(** [GENERATION_CONFIGS]: for each generation mode of the command line the
    yield function, the strategy and the keyword arguments. *)
Definition GENERATION_CONFIGS
    : list (string * (string * string * GenerationOptions)) :=
  let kwargs n target any demos random limit parallel :=
    mkGenerationOptions n target any demos random limit parallel in
  [("baseline",
    ("baseline", "baseline", kwargs None None None None None None None));
   ("metalearn",
    ("metalearning", "generate_oracle",
     kwargs (Some 1) None None None None (Some true) (Some true)));
   ("metalearn_allow_any",
    ("metalearning", "generate_oracle",
     kwargs (Some 1) None (Some true) None None (Some true) (Some true)));
   ("metalearn_distractors",
    ("metalearning", "generate_oracle",
     kwargs (Some 3) None None None None None (Some true)));
   ("metalearn_all",
    ("metalearning", "generate_oracle",
     kwargs None None None None None None (Some true)));
   ("metalearn_all_allow_any",
    ("metalearning", "generate_oracle",
     kwargs None None (Some true) None None None (Some true)));
   ("metalearn_random_instructions_same_layout",
    ("metalearning", "generate_oracle",
     kwargs None (Some false) None (Some 16) (Some true) None (Some true)));
   ("metalearn_random_instructions_same_layout_allow_any",
    ("metalearning", "generate_oracle",
     kwargs None (Some false) (Some true) (Some 16) (Some true) None
       (Some true)));
   ("metalearn_random_layouts",
    ("metalearning", "random_find_matching",
     kwargs None None None (Some 16) None None (Some false)));
   ("metalearn_find_matching_instruction_demos",
    ("metalearning", "generate_find_matching",
     kwargs None None None None None (Some true) (Some false)));
   ("metalearn_find_matching_instruction_demos_allow_any",
    ("metalearning", "generate_find_matching",
     kwargs None None (Some true) None None (Some true) (Some false)));
   ("metalearn_find_matching_environment_layout",
    ("metalearning", "find_by_environment_layout",
     kwargs None None None (Some 16) None None (Some false)));
   ("metalearn_find_matching_target_location_demos",
    ("metalearning", "find_by_matching_any_object_in_same_target_position",
     kwargs None None None (Some 16) None None (Some false)));
   ("metalearn_find_matching_diff_demos",
    ("metalearning", "find_by_matching_any_object_in_same_diff",
     kwargs None None None (Some 16) None None (Some false)));
   ("metalearn_find_matching_object_same_diff_demos",
    ("metalearning", "find_by_matching_same_object_in_same_diff",
     kwargs None None None (Some 16) None None (Some false)))].

(** [generate_oracle_payload]: the nouns come first, then the colors. *)
Definition generate_oracle_payload (colors nouns : list string)
    (current_split : string) : list string * list string * list string :=
  (nouns, colors, allowed_demonstration_splits current_split).

Definition generate_oracle_find_any_matching_payload
    (train_examples : list Example) (colors nouns : list string)
    (current_split : string)
    : gmap string (list nat) * list Example * list string * list string
      * list string :=
  (sort_indices_by_command train_examples, train_examples, nouns, colors,
   allowed_demonstration_splits current_split).

(** [generate_oracle].  [demonstrate colors nouns command target situation]
    stands for [demonstrate_command_oracle] of the solver module, which
    plans the actions of a support and is not part of this development.
    The result is [None] when the strategy reports that it skips the data
    point; the support layouts are left empty. *)
Definition generate_relevant_supports_oracle
    (demonstrate : list string -> list string -> list string ->
                   PositionedObject -> Situation -> result (list string))
    (permutation : nat -> list nat)
    (command : list string) (situation : Situation)
    (payload : list string * list string * list string)
    (options : GenerationOptions) : result (option Supports) :=
  let '(colors, nouns, allow_demonstration_splits) := payload in
  relevant_instructions ←
    generate_relevant_instructions_gscan_oracle permutation command situation
      colors nouns
      (mkOracleOptions (opt_n_description_options options)
         (default true (opt_demonstrate_target options))
         (Some allow_demonstration_splits)
         (default false (opt_allow_any_example options))
         (default 16 (opt_num_demos options))
         (default false (opt_pick_random options))
         (default false (opt_limit_verb_adverb options)));
  if negb (nonempty relevant_instructions) then Ok None
  else
    support_targets ←
      mapM (fun '(support_instruction_command, target_object) =>
              demonstrate colors nouns support_instruction_command
                target_object situation)
           relevant_instructions;
    Ok (Some (relevant_instructions.*1, support_targets, [])).

(** The layouts of the retrieved examples. *)
Definition support_layouts_of (examples : list Example) : list Situation :=
  map situation examples.

(** [generate_find_matching]: the supports are training examples whose
    command text is an instruction that the oracle proposes; [draw j] is the
    random number of the [j]-th proposal. *)
Definition generate_instructions_find_support_in_any_layout
    (permutation : nat -> list nat) (draw : nat -> nat)
    (command : list string) (situation : Situation)
    (payload : gmap string (list nat) * list Example * list string
               * list string * list string)
    (options : GenerationOptions) : result Supports :=
  let '(sorted_example_indices_by_command, train_examples, colors, nouns,
        allow_demonstration_splits) := payload in
  relevant_instructions ←
    generate_relevant_instructions_gscan_oracle permutation command situation
      colors nouns
      (mkOracleOptions (opt_n_description_options options)
         (default true (opt_demonstrate_target options))
         (Some allow_demonstration_splits) false 16 false
         (default false (opt_limit_verb_adverb options)));
  found ←
    mapM (fun '(j, (support_instruction_command, target_object)) =>
            let key := str_join " " support_instruction_command in
            match sorted_example_indices_by_command !! key with
            | None => Ok None
            | Some bucket =>
                match bucket !! (draw j mod length bucket)%nat with
                | None => Raise ValueError
                | Some relevant_example_idx =>
                    relevant_example ←
                      get_example train_examples relevant_example_idx;
                    Ok (Some (support_instruction_command, relevant_example))
                end
            end)
         (enumerate relevant_instructions);
  let kept := omap id found in
  Ok (kept.*1,
      map (fun se => parse_command_repr (target_commands se.2)) kept,
      support_layouts_of kept.*2).

(** ** Batching the generated examples *)

(** The loop of [batched]: [islice(it, n)] takes the next [n] elements; an
    empty batch ends the loop. *)
Equations? batched_loop {A : Type} (it : list A) (n : nat) : list (list A)
  by wf (length it) lt :=
  batched_loop nil _ := nil;
  batched_loop (cons x xs) O := nil;
  batched_loop (cons x xs) (S k) :=
    cons (cons x (take k xs)) (batched_loop (drop k xs) (S k)).
Proof. rewrite length_drop. simpl. lia. Qed.

Definition batched {A : Type} (iterable : list A) (n : Z)
    : result (list (list A)) :=
  if n <? 1 then Raise ValueError
  else Ok (batched_loop iterable (Z.to_nat n)).

(** The writing loop of [main] for one split: batch [i] goes to the file
    [i.pb].  The result is the list of files written, number and content. *)
Definition write_batches {A : Type} (iterable : list A)
    : result (list (nat * list A)) :=
  batches ← batched iterable 10000;
  Ok (enumerate batches).

(** ** Vocabulary (gscan/vocabulary.py) *)

Module Vocabulary.

(** Python objects live in a store and are passed by reference: the
    constructor keeps the six dictionaries it is given, the getters build
    new lists. *)
Inductive value : Type :=
  | VDict (d : gmap string string)
  | VList (l : list string).

Record t : Type := mk {
  _intransitive_verbs : nat;
  _transitive_verbs : nat;
  _adverbs : nat;
  _nouns : nat;
  _color_adjectives : nat;
  _size_adjectives : nat
}.

Definition read_dict (h : gmap nat value) (l : nat) : gmap string string :=
  match h !! l with
  | Some (VDict d) => d
  | _ => ∅
  end.

(** [list(d.keys())]; the order of the keys is not modelled. *)
Definition keys (d : gmap string string) : list string :=
  (map_to_list d).*1.

(** [__init__]: the assertion compares the number of words of the six
    bindings with the number of distinct words among them.  What follows
    the assertion only builds tables from the bindings and cannot raise. *)
Definition init (h : gmap nat value)
    (intransitive_verbs transitive_verbs adverbs nouns color_adjectives
       size_adjectives : nat) : result t :=
  let all_words :=
    keys (read_dict h intransitive_verbs)
    ++ keys (read_dict h transitive_verbs)
    ++ keys (read_dict h adverbs)
    ++ keys (read_dict h nouns)
    ++ keys (read_dict h color_adjectives)
    ++ keys (read_dict h size_adjectives) in
  let all_unique_words : gset string := list_to_set all_words in
  if bool_decide (length all_words = size all_unique_words)
  then Ok (mk intransitive_verbs transitive_verbs adverbs nouns
             color_adjectives size_adjectives)
  else Raise AssertionError.

(** Allocation of a new object. *)
Definition alloc (h : gmap nat value) (v : value) : gmap nat value * nat :=
  let l := fresh (dom h) in (<[l := v]> h, l).

(** A getter: [list(self._field.keys()).copy()], a new list object. *)
Definition getter (field : t -> nat) (h : gmap nat value) (v : t)
    : gmap nat value * nat :=
  alloc h (VList (keys (read_dict h (field v)))).

Definition get_intransitive_verbs := getter _intransitive_verbs.
Definition get_transitive_verbs := getter _transitive_verbs.
Definition get_adverbs := getter _adverbs.
Definition get_nouns := getter _nouns.
Definition get_color_adjectives := getter _color_adjectives.
Definition get_size_adjectives := getter _size_adjectives.

Definition fields : list (t -> nat) :=
  [_intransitive_verbs; _transitive_verbs; _adverbs; _nouns;
   _color_adjectives; _size_adjectives].

(** The six category sets of a vocabulary in a store. *)
Definition category_sets (h : gmap nat value) (v : t)
    : list (gset string) :=
  map (fun field => dom (read_dict h (field v))) fields.

(** Some word is a key of two of the bindings. *)
Definition shared_word (ds : list (gmap string string)) : Prop :=
  exists (i j : nat) (di dj : gmap string string) (w : string),
    i ≠ j /\ ds !! i = Some di /\ ds !! j = Some dj
    /\ w ∈ dom di /\ w ∈ dom dj.

(** The class constants: the semantic meanings of each category. *)
Definition INTRANSITIVE_VERBS : gset string := {[ "walk" ]}.
Definition TRANSITIVE_VERBS : gset string := {[ "push"; "pull" ]}.
Definition ADVERBS : gset string :=
  {[ "quickly"; "slowly"; "while zigzagging"; "while spinning";
     "cautiously"; "hesitantly" ]}.
Definition NOUNS : gset string := {[ "circle"; "square"; "cylinder"; "box" ]}.
Definition COLOR_ADJECTIVES : gset string :=
  {[ "green"; "red"; "blue"; "yellow" ]}.
Definition SIZE_ADJECTIVES : gset string := {[ "small"; "big" ]}.

(** One round of the loop of [bind_words_to_meanings]: a word that is a
    meaning still available is bound to itself, any other word to a meaning
    taken out of the set by [set.pop()], which raises on the empty set;
    [pop s] stands for the element that is taken out of [s]. *)
Definition bind_word (pop : gset string -> string)
    (state : gmap string string * gset string) (word : string)
    : result (gmap string string * gset string) :=
  let '(translation_table, available_semantic_meanings) := state in
  if bool_decide (word ∈ available_semantic_meanings)
  then Ok (<[word := word]> translation_table,
           available_semantic_meanings ∖ {[word]})
  else if bool_decide (available_semantic_meanings = ∅)
  then Raise KeyError
  else
    let meaning := pop available_semantic_meanings in
    Ok (<[word := meaning]> translation_table,
        available_semantic_meanings ∖ {[meaning]}).

(** The loop of [bind_words_to_meanings] over the words. *)
Fixpoint bind_words (pop : gset string -> string)
    (state : gmap string string * gset string) (words : list string)
    : result (gmap string string * gset string) :=
  match words with
  | [] => Ok state
  | word :: words' =>
      state' ← bind_word pop state word; bind_words pop state' words'
  end.

(** [bind_words_to_meanings]: the table, and the set of meanings as the
    function leaves it. *)
Definition bind_words_to_meanings (pop : gset string -> string)
    (available_words : list string)
    (available_semantic_meanings : gset string)
    : result (gmap string string * gset string) :=
  if bool_decide (length available_words
                  <= size available_semantic_meanings)%nat
  then bind_words pop (∅, available_semantic_meanings) available_words
  else Raise AssertionError.

(** What the loop keeps, [meanings] being the set that the caller passed:
    every meaning in the table was taken out of the set of available
    meanings, and no meaning is bound twice. *)
Definition bound (meanings : gset string)
    (state : gmap string string * gset string) : Prop :=
  state.2 ⊆ meanings
  /\ (forall w m, state.1 !! w = Some m -> m ∈ meanings /\ m ∉ state.2)
  /\ (forall w1 w2 m,
        state.1 !! w1 = Some m -> state.1 !! w2 = Some m -> w1 = w2).

(** [_translation_table], as [__init__] builds it: the articles and the
    conjunction, then the six bindings, a later [update] overriding the
    earlier entries. *)
Definition translation_table
    (intransitive_verbs transitive_verbs adverbs nouns color_adjectives
       size_adjectives : gmap string string) : gmap string string :=
  let table : gmap string string :=
    {[ "to" := "to"; "a" := "a"; "and" := "and" ]} in
  let table := intransitive_verbs ∪ table in
  let table := transitive_verbs ∪ table in
  let table := nouns ∪ table in
  let table := color_adjectives ∪ table in
  let table := size_adjectives ∪ table in
  adverbs ∪ table.

(** [_translate_to]: the table turned around; [items] are the items of the
    translation table in the order of iteration, a later item overriding an
    earlier one with the same meaning. *)
Definition translate_to (items : list (string * string))
    : gmap string string :=
  foldl (fun m '(word, semantic_word) => <[semantic_word := word]> m)
        ∅ items.

Definition translate_word (table : gmap string string) (word : string)
    : string :=
  match table !! word with
  | Some meaning => meaning
  | None => ""
  end.

Definition translate_meaning (table : gmap string string) (meaning : string)
    : string :=
  match table !! meaning with
  | Some word => word
  | None => ""
  end.

End Vocabulary.

(** ** SituationCodec: [parse_sparse_situation] *)

Inductive Scheme : Type := SchemeSequence | SchemeAll.

(** [{w: i + 1 for i, w in enumerate(words)}], the tables [COLOR2IDX] and
    [NOUN2IDX] of [main]. *)
Definition word2idx (words : list string) : gmap string Z :=
  foldl (fun m '(i, w) => <[w := Z.of_nat i + 1]> m) ∅ (enumerate words).

Definition dict_get (d : gmap string Z) (k : string) : result Z :=
  match d !! k with
  | Some v => Ok v
  | None => Raise KeyError
  end.

Definition is_box (o : PositionedObject) : bool :=
  String.eqb (shape (object o)) "box".

(** The row of one placed object in the "sequence" scheme. *)
Definition sequence_object_row (reascan_boxes : bool)
    (color2idx noun2idx : gmap string Z) (o : PositionedObject)
    : result (list Z) :=
  let object_row := row (position o) in
  let object_column := column (position o) in
  if reascan_boxes then
    if negb (is_box o) then
      c ← dict_get color2idx (color (object o));
      n ← dict_get noun2idx (shape (object o));
      Ok [size_ (object o); c; n; 0; 0; object_row; object_column; 0; 0; 0]
    else
      c ← dict_get color2idx (color (object o));
      Ok [0; 0; 0; 0; 0; object_row; object_column; size_ (object o); c; 1]
  else
    c ← dict_get color2idx (color (object o));
    n ← dict_get noun2idx (shape (object o));
    Ok [size_ (object o); c; n; 0; 0; object_row; object_column].

(** A [numpy] index along an axis of length [n]: negative indices count
    from the end, anything else out of range raises. *)
Definition np_index (n : Z) (i : Z) : result nat :=
  if (0 <=? i) && (i <? n) then Ok (Z.to_nat i)
  else if (- n <=? i) && (i <? 0) then Ok (Z.to_nat (i + n))
  else Raise IndexError.

(** The position of cell [[r, c]] in the row-major list of cells. *)
Definition cell_index (grid_size : Z) (r c : Z) : result nat :=
  i ← np_index grid_size r;
  j ← np_index grid_size c;
  Ok (i * Z.to_nat grid_size + j)%nat.

(** [grid[k][ch] = v] on the list of cells. *)
Definition set_channel (k ch : nat) (v : Z) (grid : list (list Z))
    : list (list Z) :=
  alter (fun cell => <[ch := v]> cell) k grid.

(** The writes of one placed object in the "all" scheme. *)
Definition all_place_object (reascan_boxes : bool) (grid_size : Z)
    (color2idx noun2idx : gmap string Z)
    (grid : list (list Z)) (o : PositionedObject) : result (list (list Z)) :=
  k ← cell_index grid_size (row (position o)) (column (position o));
  if reascan_boxes && is_box o then
    let grid := set_channel k 5 (size_ (object o)) grid in
    c ← dict_get color2idx (color (object o));
    let grid := set_channel k 6 c grid in
    Ok (set_channel k 7 1 grid)
  else
    let grid := set_channel k 0 (size_ (object o)) grid in
    c ← dict_get color2idx (color (object o));
    let grid := set_channel k 1 c grid in
    n ← dict_get noun2idx (shape (object o));
    Ok (set_channel k 2 n grid).

(** A loop whose body may raise. *)
Fixpoint foldlM {A B : Type} (f : A -> B -> result A) (a : A) (l : list B)
    : result A :=
  match l with
  | [] => Ok a
  | b :: l' => a' ← f a b; foldlM f a' l'
  end.

(** Two more channels per cell, its row and its column counted from 1
    (the running sums of ones along each axis), then one row per cell. *)
Definition add_positional_information_to_grid (grid_size : Z)
    (grid : list (list Z)) : list (list Z) :=
  imap (fun k cell =>
          cell ++ [Z.of_nat (k / Z.to_nat grid_size) + 1;
                   Z.of_nat (k mod Z.to_nat grid_size) + 1])
       grid.

Definition parse_sparse_situation (s : Situation) (grid_size : Z)
    (color2idx noun2idx : gmap string Z)
    (world_encoding_scheme : Scheme) (reascan_boxes : bool)
    : result (list (list Z)) :=
  let agent_row := row (agent_pos s) in
  let agent_column := column (agent_pos s) in
  match world_encoding_scheme with
  | SchemeSequence =>
      let agent_representation :=
        [0; 0; 0; 1; agent_direction s; agent_row; agent_column]
        ++ (if reascan_boxes then [0; 0; 0] else []) in
      rows ← mapM (sequence_object_row reascan_boxes color2idx noun2idx)
                  (placed_objects s);
      Ok (agent_representation :: rows)
  | SchemeAll =>
      if grid_size <? 0 then Raise ValueError else
      let num_grid_channels := if reascan_boxes then 8%nat else 5%nat in
      let grid :=
        replicate (Z.to_nat grid_size * Z.to_nat grid_size)
                  (replicate num_grid_channels 0) in
      let agent_representation :=
        replicate (num_grid_channels - 2) 0 ++ [1; agent_direction s] in
      k ← cell_index grid_size agent_row agent_column;
      let grid := <[k := agent_representation]> grid in
      grid ← foldlM (all_place_object reascan_boxes grid_size
                       color2idx noun2idx)
                    grid (placed_objects s);
      Ok (add_positional_information_to_grid grid_size grid)
  end.

(** A position and a situation with the coordinates reduced modulo the
    grid size. *)
Definition wrap_position (size : Z) (p : Position) : Position :=
  mkPosition (column p mod size) (row p mod size).

Definition wrap_object (size : Z) (o : PositionedObject) : PositionedObject :=
  mkPositioned (object o) (wrap_position size (position o)).

Definition wrap_situation (size : Z) (s : Situation) : Situation :=
  mkSituation (grid_size s) (wrap_position size (agent_pos s))
    (agent_direction s) (wrap_object size (target_object s))
    (map (wrap_object size) (placed_objects s)).

(** The shape of a grid: a number of cells, all of the same width. *)
Definition grid_shape (cells width : nat) (grid : list (list Z)) : Prop :=
  length grid = cells /\ Forall (fun cell => length cell = width) grid.

(** *** The decoder *)

(** What decoding gives back: the agents found (position and direction)
    and the objects found. *)
Record Decoded : Type := mkDecoded {
  agents : list (Position * Z);
  objects : list PositionedObject
}.

Definition merge (a b : Decoded) : Decoded :=
  mkDecoded (agents a ++ agents b) (objects a ++ objects b).

(** Slot [i] of a row; a slot the row does not have reads as 0. *)
Definition slot (r : list Z) (i : nat) : Z := default 0 (r !! i).

(** The word of index [i] in a table built by [word2idx]. *)
Definition idx2word (words : list string) (i : Z) : string :=
  default "" (words !! Z.to_nat (i - 1)).

(** Modelled from the spec: the decoder of the "sequence" scheme, which the
    repository does not contain.  A row whose agent flag (slot 3) is set is
    the agent, [[0,0,0,1,direction,row,col]]; any other row is a placed
    object, [[size,color_index,shape_index,0,0,row,col]], or, in the
    container mode, when the box flag (slot 9) is set, a box whose size and
    color are in slots 7 and 8. *)
Definition decode_sequence_row (reascan_boxes : bool)
    (colors nouns : list string) (r : list Z) : Decoded :=
  let pos := mkPosition (slot r 6) (slot r 5) in
  if bool_decide (slot r 3 ≠ 0) then mkDecoded [(pos, slot r 4)] []
  else if reascan_boxes && bool_decide (slot r 9 = 1) then
    mkDecoded []
      [mkPositioned (mkObject (slot r 7) (idx2word colors (slot r 8)) "box")
                    pos]
  else
    mkDecoded []
      [mkPositioned
         (mkObject (slot r 0) (idx2word colors (slot r 1))
                   (idx2word nouns (slot r 2))) pos].

Definition decode_sequence (reascan_boxes : bool)
    (colors nouns : list string) (rows : list (list Z)) : Decoded :=
  foldr (fun r acc =>
           merge (decode_sequence_row reascan_boxes colors nouns r) acc)
        (mkDecoded [] []) rows.

(** Modelled from the spec: the decoder of the "all" scheme without the
    container mode, which the repository does not contain.  Every row is a
    cell [[size,color_index,shape_index,agent,direction,row+1,col+1]]: the
    agent stands in the cell whose agent flag is set, an object in every
    cell whose color index is not zero. *)
Definition decode_all_cell (colors nouns : list string)
    (r : list Z) : Decoded :=
  let pos := mkPosition (slot r 6 - 1) (slot r 5 - 1) in
  mkDecoded
    (if bool_decide (slot r 3 ≠ 0) then [(pos, slot r 4)] else [])
    (if bool_decide (slot r 1 ≠ 0)
     then [mkPositioned
             (mkObject (slot r 0) (idx2word colors (slot r 1))
                       (idx2word nouns (slot r 2))) pos]
     else []).

Definition decode_all (colors nouns : list string)
    (rows : list (list Z)) : Decoded :=
  foldr (fun r acc => merge (decode_all_cell colors nouns r) acc)
        (mkDecoded [] []) rows.

(** *** What the round trip needs of a situation *)

(** Every color and shape has an index, so that encoding raises no
    [KeyError]; in the container mode the shape of a box is not looked
    up. *)
Definition in_vocabulary (reascan_boxes : bool) (colors nouns : list string)
    (o : PositionedObject) : Prop :=
  color (object o) ∈ colors
  /\ (reascan_boxes && is_box o = true \/ shape (object o) ∈ nouns).

(** The position is a cell of the grid. *)
Definition inside_grid (grid_size : Z) (p : Position) : Prop :=
  0 <= row p < grid_size /\ 0 <= column p < grid_size.

(** The place of a position of the grid in the row-major list of cells. *)
Definition cell_of (grid_size : Z) (p : Position) : nat :=
  (Z.to_nat (row p) * Z.to_nat grid_size + Z.to_nat (column p))%nat.

(** The three writes of an object outside the container mode, on its
    cell. *)
Definition write_object (colors nouns : list string) (o : PositionedObject)
    (cell : list Z) : list Z :=
  <[2%nat := default 0 (word2idx nouns !! shape (object o))]>
    (<[1%nat := default 0 (word2idx colors !! color (object o))]>
       (<[0%nat := size_ (object o)]> cell)).

(** The object standing on cell [k], if any. *)
Definition object_at (grid_size : Z) (objs : list PositionedObject)
    (k : nat) : option PositionedObject :=
  head (filter (fun o => cell_of grid_size (position o) = k) objs).

(** ** Encoding of the examples *)

(** [np.concatenate([actions, np.ones_like(actions[:1]) * eos_token_idx])]
    on a one-dimensional array. *)
Definition add_eos_to_actions (actions : list Z) (eos_token_idx : Z)
    : list Z :=
  actions
  ++ map (fun one => one * eos_token_idx)
         (map (fun _ => 1) (py_slice_to (Some 1) actions)).

Definition labelled_situation_to_demonstration_tuple
    (input target : list string) (input_word2idx action_word2idx : gmap string Z)
    : result (list Z * list Z) :=
  instruction ← mapM (dict_get input_word2idx) input;
  actions ← mapM (dict_get action_word2idx) target;
  Ok (instruction, actions).

(** [yield_baseline_examples]: one triple per example of the split. *)
Definition yield_baseline_examples (situations : list Example)
    (instruction_word2idx action_word2idx color2idx noun2idx : gmap string Z)
    (world_encoding_scheme : Scheme) (reascan_boxes : bool)
    : result (list (list Z * list Z * list (list Z))) :=
  mapM (fun example =>
          '(instruction, target) ←
            labelled_situation_to_demonstration_tuple
              (parse_command_repr (command example))
              (parse_command_repr (target_commands example))
              instruction_word2idx action_word2idx;
          world_layout ←
            parse_sparse_situation (situation example)
              (grid_size (situation example)) color2idx noun2idx
              world_encoding_scheme reascan_boxes;
          eos ← dict_get action_word2idx "[eos]";
          Ok (instruction, add_eos_to_actions target eos, world_layout))
       situations.

(** ** The word tables of [main] *)

(** The order [<=] of strings, and [sorted(list(set(words)))]: the distinct
    words in that order. *)
Definition str_le (a b : string) : Prop := String.leb a b = true.

#[global] Instance str_le_dec (a b : string) : Decision (str_le a b).
Proof. unfold str_le. apply _. Defined.

Definition sorted_unique (words : list string) : list string :=
  merge_sort str_le (elements (list_to_set words : gset string)).

(** [{w: i for i, w in enumerate(words)}]. *)
Definition word_indices (words : list string) : gmap string Z :=
  foldl (fun m '(i, w) => <[w := Z.of_nat i]> m) ∅ (enumerate words).

(** [INPUT_WORD2IDX]: the tokens of the commands of all the splits, then
    the two special tokens, each numbered by the size of the table when it
    is added. *)
Definition INPUT_WORD2IDX (examples_of_splits : list (list Example))
    : gmap string Z :=
  let table :=
    word_indices
      (sorted_unique
         (concat (map (fun example => str_split ","%char (command example))
                      (concat examples_of_splits)))) in
  let table := <["[pad]" := Z.of_nat (size table)]> table in
  <["[sos]" := Z.of_nat (size table)]> table.

(** The fourth component of an encoded example: the layouts of the
    supports, or the layout of the query when there is no support layout. *)
Inductive SupportLayouts : Type :=
  | QueryLayout (world_layout : list (list Z))
  | Layouts (support_layouts : list (list (list Z))).

(** The tuple that [encode_metalearning_example] returns. *)
Record EncodedExample : Type := mkEncodedExample {
  encoded_query_instruction : list Z;
  encoded_query_target : list Z;
  encoded_world_layout : list (list Z);
  encoded_support_layouts : SupportLayouts;
  encoded_support_instructions : list (list Z);
  encoded_support_targets : list (list Z);
  encoded_priorities : list Z
}.

(** [encode_metalearning_example].  The example is the tuple that a
    strategy yields: the tokens of the command and of the action sequence,
    the situation, and the instructions, action sequences and situations of
    the supports. *)
Definition encode_metalearning_example
    (world_encoding_scheme : Scheme) (reascan_boxes : bool)
    (instruction_word2idx action_word2idx color2idx noun2idx : gmap string Z)
    (grid_size : Z)
    (example : list string * list string * Situation * list (list string)
               * list (list string) * list Situation)
    : result EncodedExample :=
  let '(command, target_commands, situation_representation,
        support_instructions, support_targets,
        support_situation_representations) := example in
  world_layout ←
    parse_sparse_situation situation_representation grid_size color2idx
      noun2idx world_encoding_scheme reascan_boxes;
  '(query_instruction, query_target) ←
    labelled_situation_to_demonstration_tuple command target_commands
      instruction_word2idx action_word2idx;
  support_layouts ←
    mapM (fun support_situation_representation =>
            parse_sparse_situation support_situation_representation
              grid_size color2idx noun2idx world_encoding_scheme
              reascan_boxes)
         support_situation_representations;
  '(support_instructions, support_targets) ←
    (if nonempty support_instructions then
       pairs ←
         mapM (fun '(support_instruction, support_target) =>
                 labelled_situation_to_demonstration_tuple
                   support_instruction support_target
                   instruction_word2idx action_word2idx)
              (zip support_instructions support_targets);
       if nonempty pairs then Ok (pairs.*1, pairs.*2)
       else Raise ValueError
     else Ok ([], []));
  eos ← dict_get action_word2idx "[eos]";
  Ok (mkEncodedExample
        query_instruction
        (add_eos_to_actions query_target eos)
        world_layout
        (if nonempty support_layouts then Layouts support_layouts
         else QueryLayout world_layout)
        support_instructions
        (map (fun support_target => add_eos_to_actions support_target eos)
             support_targets)
        (map Z.of_nat (reverse (seq 0 (length support_instructions))))).

(** ** Concrete inputs used to exercise the definitions *)

Module Examples.

Definition placed (sz : Z) (c sh : string) (r cl : Z) : PositionedObject :=
  mkPositioned (mkObject sz c sh) (mkPosition cl r).

Definition colors : list string := ["blue"; "green"; "red"; "yellow"].
Definition nouns : list string := ["circle"; "cylinder"; "square"].

(** The agent at (0,0), a small red circle at row 2, column 3 as target,
    and four other objects. *)
Definition circle_world : Situation :=
  mkSituation 6 (mkPosition 0 0) 0 (placed 1 "red" "circle" 2 3)
    [placed 1 "red" "circle" 2 3; placed 2 "red" "circle" 4 4;
     placed 3 "blue" "square" 1 1; placed 2 "green" "circle" 5 5;
     placed 1 "red" "cylinder" 3 3].

Definition circle_query : list string :=
  ["push"; "a"; "small"; "red"; "circle"].

(** A red square as target (rule C) next to a blue square. *)
Definition square_world : Situation :=
  mkSituation 6 (mkPosition 0 0) 0 (placed 2 "red" "square" 1 1)
    [placed 2 "red" "square" 1 1; placed 2 "blue" "square" 3 3].

Definition square_query : list string := ["walk"; "to"; "a"; "red"; "square"].

Definition default_options : OracleOptions :=
  mkOracleOptions None true None false 16 false false.

(** The options of the split "situational_1", which waives every letter
    but D. *)
Definition situational_1_options : OracleOptions :=
  mkOracleOptions None true
    (Some ["A"; "B"; "C"; "E"; "F"; "G"; "H"]) false 16 false false.

Definition identity_permutation (n : nat) : list nat := seq 0 n.

(** One red circle at row 2, column 3, the agent at (0,0). *)
Definition one_circle : Situation :=
  mkSituation 6 (mkPosition 0 0) 0 (placed 1 "red" "circle" 2 3)
    [placed 1 "red" "circle" 2 3].

(** The same circle as target, seen from another agent position. *)
Definition one_circle_far : Situation :=
  mkSituation 6 (mkPosition 5 5) 0 (placed 1 "red" "circle" 2 3)
    [placed 1 "red" "circle" 2 3].

(** A training corpus of three examples: two share the command
    "push a red circle", all three have their target at row 2, column 3. *)
Definition train_examples : list Example :=
  [mkExample "push,a,red,circle" "walk,walk,push" one_circle;
   mkExample "walk,to,a,red,circle" "walk,walk" one_circle;
   mkExample "push,a,red,circle" "turn left,push" one_circle_far].

Definition push_query : list string := ["push"; "a"; "red"; "circle"].

Definition first_draw (j : nat) : nat := 0%nat.

(** Two objects on the cell at row 2, column 3, and the same world with
    the second of them only. *)
Definition crowded_cell : Situation :=
  mkSituation 6 (mkPosition 0 0) 0 (placed 1 "red" "circle" 2 3)
    [placed 1 "red" "circle" 2 3; placed 2 "blue" "square" 2 3].

Definition lone_square : Situation :=
  mkSituation 6 (mkPosition 0 0) 0 (placed 2 "blue" "square" 2 3)
    [placed 2 "blue" "square" 2 3].

(** The agent, facing west (3), on the cell of a box. *)
Definition agent_in_box : Situation :=
  mkSituation 6 (mkPosition 0 0) 3 (placed 1 "red" "circle" 2 3)
    [placed 1 "red" "circle" 2 3; placed 2 "green" "box" 0 0].

(** The six bindings of the gSCAN vocabulary, stored at the references 0
    to 5. *)
Definition bindings : list (gmap string string) :=
  [ {[ "walk" := "walk" ]};
    {[ "push" := "push"; "pull" := "pull" ]};
    {[ "cautiously" := "cautiously"; "hesitantly" := "hesitantly" ]};
    {[ "circle" := "circle"; "square" := "square" ]};
    {[ "red" := "red"; "blue" := "blue" ]};
    {[ "small" := "small"; "big" := "big" ]} ].

Definition store : gmap nat Vocabulary.value :=
  list_to_map (enumerate (Vocabulary.VDict <$> bindings)).

End Examples.

(** * Properties *)

(** ** Auxiliary facts about the embedding *)

Lemma py_in_true {A : Type} `{EqDecision A} (w : A) (l : list A) :
  py_in w l = true <-> w ∈ l.
Proof. unfold py_in. apply bool_decide_eq_true. Qed.

Lemma py_in_false {A : Type} `{EqDecision A} (w : A) (l : list A) :
  py_in w l = false <-> w ∉ l.
Proof. unfold py_in. apply bool_decide_eq_false. Qed.

Lemma py_slice_to_subseteq {A : Type} (n : option Z) (l : list A) :
  py_slice_to n l ⊆ l.
Proof.
  unfold py_slice_to. destruct n as [k|]; [|done].
  destruct (0 <=? k); apply subseteq_take.
Qed.

Lemma bind_Ok {A B : Type} (r : result A) (k : A -> result B) (b : B) :
  r ≫= k = Ok b <-> exists a, r = Ok a /\ k a = Ok b.
Proof.
  destruct r as [a|e]; simpl; split.
  - eauto.
  - by intros (a' & [= ->] & ?).
  - done.
  - by intros (a' & ? & ?).
Qed.

Lemma mapM_Ok_length {A B : Type} (f : A -> result B) (l : list A)
    (r : list B) :
  mapM f l = Ok r -> length r = length l.
Proof.
  revert r. induction l as [|a l IH]; intros r; simpl.
  - by intros [= <-].
  - intros (b & Hb & (bs & Hbs & [= <-])%bind_Ok)%bind_Ok.
    simpl. f_equal. by apply IH.
Qed.

Lemma mapM_Ok_elem {A B : Type} (f : A -> result B) (l : list A)
    (r : list B) (x : B) :
  mapM f l = Ok r -> x ∈ r -> exists a, a ∈ l /\ f a = Ok x.
Proof.
  revert r. induction l as [|a l IH]; intros r; simpl.
  - intros [= <-] Hx. by apply elem_of_nil in Hx.
  - intros (b & Hb & (bs & Hbs & [= <-])%bind_Ok)%bind_Ok Hx.
    apply elem_of_cons in Hx as [->|Hx].
    + exists a. split; [left|done].
    + destruct (IH bs Hbs Hx) as (a' & ? & ?).
      exists a'. split; [by right|done].
Qed.

Lemma mapM_Ok_total {A B : Type} (f : A -> result B) (l : list A) :
  (forall a, a ∈ l -> exists b, f a = Ok b) ->
  exists r, mapM f l = Ok r.
Proof.
  induction l as [|a l IH]; intros Hf; simpl; [by eexists|].
  destruct (Hf a) as [b Hb]; [left|].
  destruct IH as [r Hr]; [intros; apply Hf; by right|].
  exists (b :: r). by rewrite Hb; simpl; rewrite Hr.
Qed.

(** ** The prohibition rules (C4) *)

Section prohibition.

Context (agent : Position) (t : PositionedObject) (words : list string).

Lemma rule_B_reflect :
  py_in "yellow" words && py_in "square" words = true <-> Rules.B words.
Proof.
  unfold Rules.B. rewrite andb_true_iff, !py_in_true. done.
Qed.

Lemma rule_C_reflect :
  String.eqb (color (object t)) "red"
  && String.eqb (shape (object t)) "square" = true <-> Rules.C t.
Proof.
  unfold Rules.C. rewrite andb_true_iff, !String.eqb_eq. done.
Qed.

Lemma rule_D_reflect :
  (row agent <? row (position t))
  && (column agent >? column (position t)) = true <-> Rules.D agent t.
Proof.
  unfold Rules.D. rewrite andb_true_iff, Z.ltb_lt, Z.gtb_gt. done.
Qed.

Lemma rule_E_reflect :
  py_in "small" words && (size_ (object t) =? 2)
  && String.eqb (shape (object t)) "circle" = true <-> Rules.E words t.
Proof.
  unfold Rules.E.
  rewrite !andb_true_iff, py_in_true, Z.eqb_eq, String.eqb_eq. tauto.
Qed.

Lemma rule_F_reflect :
  py_in "push" words && (size_ (object t) =? 3)
  && String.eqb (shape (object t)) "square" = true <-> Rules.F words t.
Proof.
  unfold Rules.F.
  rewrite !andb_true_iff, py_in_true, Z.eqb_eq, String.eqb_eq. tauto.
Qed.

Lemma reflect_false (b : bool) (P : Prop) :
  (b = true <-> P) -> b = false -> ~ P.
Proof. intros H Hb HP. apply H in HP. congruence. Qed.

(** With no waiver the function is the cascade of the five tests. *)
Lemma is_prohibited_description_cascade :
  is_prohibited_description agent t words None =
  if py_in "yellow" words && py_in "square" words then Some "B"
  else if String.eqb (color (object t)) "red"
          && String.eqb (shape (object t)) "square" then Some "C"
  else if (row agent <? row (position t))
          && (column agent >? column (position t)) then Some "D"
  else if py_in "small" words && (size_ (object t) =? 2)
          && String.eqb (shape (object t)) "circle" then Some "E"
  else if py_in "push" words && (size_ (object t) =? 3)
          && String.eqb (shape (object t)) "square" then Some "F"
  else None.
Proof.
  unfold is_prohibited_description. simpl default.
  replace (py_in "B" []) with false by done.
  replace (py_in "C" []) with false by done.
  replace (py_in "D" []) with false by done.
  replace (py_in "E" []) with false by done.
  replace (py_in "F" []) with false by done.
  simpl negb. by rewrite !andb_true_r.
Qed.

End prohibition.

(** C4.  Called with an empty waiver set ([None], the default, or the empty
    list), [is_prohibited_description] returns the letter of the first rule
    that matches in the order B ("yellow" and "square" among the description
    words), C (target red and square), D (agent row below the target's row
    number and agent column beyond the target's), E ("small" among the words,
    target a circle of size 2), F ("push" among the words, target a square of
    size 3), and [None] when no rule matches. *)
Theorem is_prohibited_description_first_match
    (agent : Position) (t : PositionedObject) (words : list string) :
  Rules.first_match agent t words
    (is_prohibited_description agent t words None)
  /\ is_prohibited_description agent t words (Some [])
     = is_prohibited_description agent t words None.
Proof.
  split; [|done].
  rewrite is_prohibited_description_cascade.
  destruct (py_in "yellow" words && py_in "square" words) eqn:HB.
  { apply Rules.match_B. by apply rule_B_reflect. }
  apply (reflect_false _ _ (rule_B_reflect words)) in HB.
  destruct (String.eqb (color (object t)) "red"
            && String.eqb (shape (object t)) "square") eqn:HC.
  { apply Rules.match_C; [done|]. by apply rule_C_reflect. }
  apply (reflect_false _ _ (rule_C_reflect t)) in HC.
  destruct ((row agent <? row (position t))
            && (column agent >? column (position t))) eqn:HD.
  { apply Rules.match_D; [done..|]. by apply rule_D_reflect. }
  apply (reflect_false _ _ (rule_D_reflect agent t)) in HD.
  destruct (py_in "small" words && (size_ (object t) =? 2)
            && String.eqb (shape (object t)) "circle") eqn:HE.
  { apply Rules.match_E; [done..|]. by apply rule_E_reflect. }
  apply (reflect_false _ _ (rule_E_reflect t words)) in HE.
  destruct (py_in "push" words && (size_ (object t) =? 3)
            && String.eqb (shape (object t)) "square") eqn:HF.
  { apply Rules.match_F; [done..|]. by apply rule_F_reflect. }
  apply (reflect_false _ _ (rule_F_reflect t words)) in HF.
  by apply Rules.match_none.
Qed.

(** ** The oracle never repeats the query (C1) *)

Lemma support_instructions_differ (o : OracleOptions)
    (query_instruction : list string) (sg : Segmented)
    (options : list DescriptionOption)
    (combos : list (list string * list string))
    (ins : list string) (tgt : PositionedObject) :
  (ins, tgt) ∈ support_instructions o query_instruction sg options combos ->
  ins ≠ query_instruction.
Proof.
  unfold support_instructions.
  intros (dw & Hin & _)%list_elem_of_bind.
  apply list_elem_of_bind in Hin as (combo & Hin & _).
  destruct (bool_decide (is_Some _) && _); [by apply elem_of_nil in Hin|].
  simpl in Hin. case_bool_decide as Hne; [by apply elem_of_nil in Hin|].
  apply list_elem_of_singleton in Hin. by injection Hin as -> _.
Qed.

(** What the oracle returns is drawn from [support_instructions]. *)
Lemma oracle_returns_supports (permutation : nat -> list nat)
    (query_instruction : list string) (situation : Situation)
    (vocabulary_colors vocabulary_nouns : list string) (o : OracleOptions)
    (res : list (list string * PositionedObject)) :
  generate_relevant_instructions_gscan_oracle permutation query_instruction
    situation vocabulary_colors vocabulary_nouns o = Ok res ->
  res ⊆ support_instructions o query_instruction
          (segment_query query_instruction vocabulary_colors vocabulary_nouns)
          (description_words_options o situation
             (segment_query query_instruction vocabulary_colors
                vocabulary_nouns)
             vocabulary_colors vocabulary_nouns)
          (adverb_verb_combos o query_instruction
             (segment_query query_instruction vocabulary_colors
                vocabulary_nouns)).
Proof.
  unfold generate_relevant_instructions_gscan_oracle.
  set (supports := support_instructions _ _ _ _ _).
  destruct (negb (nonempty _) && negb (nonempty supports)).
  { intros [= <-] x Hx. by apply elem_of_nil in Hx. }
  destruct (negb (0 <? length supports)%nat); [done|].
  destruct (pick_random o).
  - intros Hm x Hx.
    destruct (mapM_Ok_elem _ _ _ _ Hm Hx) as (i & _ & Hi).
    destruct (supports !! i) as [s|] eqn:Hs; [|done].
    injection Hi as ->. by eapply list_elem_of_lookup_2.
  - intros Heq.
    replace res with (py_slice_to (Some (num_demos o)) supports)
      by congruence.
    apply py_slice_to_subseteq.
Qed.

(** C1.  Whatever the options, the situation and the random permutation,
    no pair returned by [generate_relevant_instructions_gscan_oracle] has a
    support instruction equal to the query instruction. *)
Theorem oracle_never_emits_query (permutation : nat -> list nat)
    (query_instruction : list string) (situation : Situation)
    (vocabulary_colors vocabulary_nouns : list string) (o : OracleOptions)
    (res : list (list string * PositionedObject))
    (support_instruction : list string) (target : PositionedObject) :
  generate_relevant_instructions_gscan_oracle permutation query_instruction
    situation vocabulary_colors vocabulary_nouns o = Ok res ->
  (support_instruction, target) ∈ res ->
  support_instruction ≠ query_instruction.
Proof.
  intros Hres Hin. apply oracle_returns_supports in Hres.
  eapply support_instructions_differ, Hres, Hin.
Qed.

(** The oracle does return: with a permutation of the positions it either
    gives a list or fails its assertion, and the assertion fails exactly
    when no support was built although split waivers are configured. *)
Lemma oracle_returns (permutation : nat -> list nat)
    (query_instruction : list string) (situation : Situation)
    (vocabulary_colors vocabulary_nouns : list string) (o : OracleOptions) :
  (forall n, permutation n ≡ₚ seq 0 n) ->
  let sg :=
    segment_query query_instruction vocabulary_colors vocabulary_nouns in
  let supports :=
    support_instructions o query_instruction sg
      (description_words_options o situation sg vocabulary_colors
         vocabulary_nouns)
      (adverb_verb_combos o query_instruction sg) in
  if decide (supports = [] /\ default [] (allow_demonstration_splits o) ≠ [])
  then generate_relevant_instructions_gscan_oracle permutation
         query_instruction situation vocabulary_colors vocabulary_nouns o
       = Raise AssertionError
  else exists res,
         generate_relevant_instructions_gscan_oracle permutation
           query_instruction situation vocabulary_colors vocabulary_nouns o
         = Ok res.
Proof.
  intros Hperm sg supports.
  unfold generate_relevant_instructions_gscan_oracle.
  fold sg. fold supports.
  destruct (decide _) as [[Hs Hw]|Hn].
  - rewrite Hs. destruct (default [] _); [done|]. done.
  - destruct supports as [|s0 supports'] eqn:Hsup.
    + destruct (default [] _); [simpl; eauto|]. exfalso. by apply Hn.
    + rewrite andb_false_r. simpl negb. cbv iota.
      destruct (pick_random o); [|eauto].
      apply mapM_Ok_total. intros i Hi.
      apply py_slice_to_subseteq in Hi. rewrite Hperm in Hi.
      apply elem_of_seq in Hi.
      destruct ((s0 :: supports') !! i) as [s|] eqn:Hl; [eauto|].
      apply lookup_ge_None in Hl. lia.
Qed.

(** C1 on the circle world: the oracle returns, the first support is a
    "walk to" instruction, and it differs from the query. *)
Lemma oracle_never_emits_query_witness :
  exists res,
    generate_relevant_instructions_gscan_oracle Examples.identity_permutation
      Examples.circle_query Examples.circle_world Examples.colors
      Examples.nouns Examples.default_options = Ok res
    /\ res !! 0%nat
       = Some (["walk"; "to"; "a"; "small"; "red"; "circle"; "while spinning"],
               target_object Examples.circle_world)
    /\ ["walk"; "to"; "a"; "small"; "red"; "circle"; "while spinning"]
       ≠ Examples.circle_query.
Proof.
  eexists. split; [vm_compute; reflexivity|]. split; [reflexivity|].
  eapply (oracle_never_emits_query Examples.identity_permutation
            Examples.circle_query Examples.circle_world Examples.colors
            Examples.nouns Examples.default_options).
  - vm_compute. reflexivity.
  - apply list_elem_of_here.
Defined.

(** ** The true target is checked without waivers (C10) *)

Lemma sort_description_words_by_query_match_subseteq
    (options : list DescriptionOption)
    (query vocabulary_colors vocabulary_nouns : list string) :
  sort_description_words_by_query_match options query vocabulary_colors
    vocabulary_nouns ⊆ options.
Proof.
  unfold sort_description_words_by_query_match. intros x Hx.
  apply list_elem_of_omap in Hx as (i & _ & Hi).
  by eapply list_elem_of_lookup_2.
Qed.

Lemma other_options_elsewhere (s : Situation) (words : list string)
    (opt : DescriptionOption) :
  opt ∈ drop 1 (generate_description_words_options s words) ->
  position opt.2 ≠ position (target_object s).
Proof.
  unfold generate_description_words_options. simpl. rewrite drop_0.
  intros (o & -> & Ho)%list_elem_of_fmap.
  by apply list_elem_of_filter in Ho as [Ho _].
Qed.

Lemma filtered_others_elsewhere (o : OracleOptions) (s : Situation)
    (sg : Segmented) (vocabulary_colors vocabulary_nouns : list string)
    (opt : DescriptionOption) :
  opt ∈ filtered_sorted_other_description_words o s sg vocabulary_colors
          vocabulary_nouns ->
  position opt.2 ≠ position (target_object s).
Proof.
  unfold filtered_sorted_other_description_words. intros Hin.
  apply (other_options_elsewhere s (description_words sg)).
  eapply sort_description_words_by_query_match_subseteq.
  destruct (allow_any_example o); [done|].
  by apply list_elem_of_filter in Hin as [_ Hin].
Qed.

(** C10.  With [allow_any_example] off, [demonstrate_target] on and at least
    one alternative left by the prohibition filter, the true target's option
    is dropped exactly when the target matches a rule under the empty waiver
    set; the waiver set [allow_demonstration_splits] plays no part in that
    test, and once dropped the target is the object of no candidate
    option. *)
Theorem target_checked_without_waivers (o : OracleOptions) (s : Situation)
    (sg : Segmented) (vocabulary_colors vocabulary_nouns : list string) :
  allow_any_example o = false ->
  demonstrate_target o = true ->
  filtered_sorted_other_description_words o s sg vocabulary_colors
    vocabulary_nouns ≠ [] ->
  let prohibited :=
    is_prohibited_description (agent_pos s) (target_object s)
      (description_words sg) None in
  let own :=
    target_description_words o s sg
      (filtered_sorted_other_description_words o s sg vocabulary_colors
         vocabulary_nouns) in
  (is_Some prohibited -> own = [])
  /\ (prohibited = None -> own = [(description_words sg, target_object s)])
  /\ (is_Some prohibited ->
      forall opt,
        opt ∈ description_words_options o s sg vocabulary_colors
                vocabulary_nouns ->
        opt.2 ≠ target_object s).
Proof.
  intros Hany Hdemo Hothers prohibited own.
  assert (Hown : own = if bool_decide (is_Some prohibited) then []
                       else [(description_words sg, target_object s)]).
  { subst own. unfold target_description_words.
    destruct (filtered_sorted_other_description_words _ _ _ _ _); [done|].
    simpl nonempty. cbv iota. rewrite Hdemo, Hany. simpl.
    fold prohibited. by destruct (bool_decide _). }
  split; [|split].
  - intros Hp. by rewrite Hown, bool_decide_eq_true_2.
  - intros Hp. rewrite Hown, bool_decide_eq_false_2; [done|].
    rewrite Hp. by intros [? ?].
  - intros Hp opt Hopt. unfold description_words_options in Hopt.
    apply py_slice_to_subseteq in Hopt. fold own in Hopt.
    rewrite Hown, bool_decide_eq_true_2 in Hopt by done.
    simpl in Hopt. apply filtered_others_elsewhere in Hopt.
    intros Heq. by rewrite Heq in Hopt.
Qed.

(** C10 on the square world under the waivers of "situational_1": the
    target matches rule C, the letter C is waived, and the target is set
    aside all the same. *)
Lemma target_checked_without_waivers_witness :
  "C" ∈ default [] (allow_demonstration_splits Examples.situational_1_options)
  /\ is_prohibited_description (agent_pos Examples.square_world)
       (target_object Examples.square_world) ["red"; "square"] None
     = Some "C"
  /\ forall opt,
       opt ∈ description_words_options Examples.situational_1_options
               Examples.square_world
               (segment_query Examples.square_query Examples.colors
                  Examples.nouns)
               Examples.colors Examples.nouns ->
       opt.2 ≠ target_object Examples.square_world.
Proof.
  split; [apply (proj1 (py_in_true _ _)); vm_compute; reflexivity|].
  split; [reflexivity|].
  apply (target_checked_without_waivers Examples.situational_1_options
           Examples.square_world
           (segment_query Examples.square_query Examples.colors
              Examples.nouns)
           Examples.colors Examples.nouns).
  - reflexivity.
  - reflexivity.
  - vm_compute. discriminate.
  - vm_compute. eauto.
Defined.

(** ** Batches (C7) *)

Section batched.

Context {A : Type}.
Implicit Types (it : list A) (n : nat).

(** One iteration of the loop as the source words it. *)
Lemma batched_loop_islice it n :
  batched_loop it n =
  match take n it with
  | [] => []
  | batch => batch :: batched_loop (drop n it) n
  end.
Proof. destruct it, n; simp batched_loop; done. Qed.

Lemma batched_loop_concat it n :
  (0 < n)%nat -> concat (batched_loop it n) = it.
Proof.
  funelim (batched_loop it n); intros Hn.
  - done.
  - lia.
  - simpl. rewrite H by lia. by rewrite take_drop.
Qed.

(** Batch [i] is the [i]-th stretch of [n] elements, and there is one
    exactly when that stretch is not empty. *)
Lemma batched_loop_lookup it n i :
  (0 < n)%nat ->
  batched_loop it n !! i =
  if decide (i * n < length it)%nat
  then Some (take n (drop (i * n) it)) else None.
Proof.
  intros Hn. revert it. induction i as [|i IH]; intros it.
  - rewrite batched_loop_islice. simpl. rewrite drop_0.
    destruct it as [|x xs]; [by destruct n|].
    destruct n; [lia|]. done.
  - rewrite batched_loop_islice.
    destruct (take n it) as [|b bs] eqn:Ht.
    + assert (it = []) as ->.
      { destruct it; [done|]. destruct n; [lia|done]. }
      done.
    + rewrite <- Ht. rewrite lookup_cons_ne_0 by done.
      simpl pred. rewrite IH, length_drop, drop_drop.
      change (S i * n)%nat with (n + i * n)%nat.
      repeat case_decide; try lia; done.
Qed.

Lemma ceil_div_lt (N n i : nat) :
  (0 < n)%nat -> (i * n < N <-> i < (N + n - 1) / n)%nat.
Proof.
  intros Hn.
  pose proof (Nat.div_mod_eq (N + n - 1) n) as Hd.
  pose proof (Nat.mod_upper_bound (N + n - 1) n).
  split; intros Hi; nia.
Qed.

Lemma batched_loop_length it n :
  (0 < n)%nat ->
  length (batched_loop it n) = ((length it + n - 1) / n)%nat.
Proof.
  intros Hn.
  set (m := ((length it + n - 1) / n)%nat).
  destruct (Nat.lt_trichotomy (length (batched_loop it n)) m)
    as [Hlt|[Heq|Hgt]]; [|done|].
  - pose proof (lookup_ge_None_2 (batched_loop it n)
                  (length (batched_loop it n)) (Nat.le_refl _)) as Hnone.
    rewrite batched_loop_lookup in Hnone by done.
    case_decide as Hc; [done|]. rewrite ceil_div_lt in Hc by done.
    subst m. lia.
  - destruct (lookup_lt_is_Some_2 (batched_loop it n) m Hgt) as [b Hb].
    rewrite batched_loop_lookup in Hb by done.
    case_decide as Hc; [|done]. rewrite ceil_div_lt in Hc by done.
    subst m. lia.
Qed.

(** Every batch but the last is full; the last holds the remainder, or
    is full when the remainder is zero. *)
Lemma batched_loop_sizes it n i b :
  (0 < n)%nat ->
  batched_loop it n !! i = Some b ->
  length b =
  if decide (S i < length (batched_loop it n))%nat then n
  else if decide (length it mod n = 0)%nat then n
  else (length it mod n)%nat.
Proof.
  intros Hn Hb. rewrite batched_loop_length by done.
  rewrite batched_loop_lookup in Hb by done.
  case_decide as Hi; [|done]. injection Hb as <-.
  rewrite length_take, length_drop.
  pose proof (Nat.div_mod_eq (length it) n) as Hd.
  pose proof (Nat.mod_upper_bound (length it) n).
  set (N := length it) in *.
  set (q := (N `div` n)%nat) in *. set (r := (N `mod` n)%nat) in *.
  case_decide as Hlast.
  - apply ceil_div_lt in Hlast; [|done]. nia.
  - rewrite <- ceil_div_lt in Hlast by done.
    destruct (Nat.le_gt_cases q i) as [Hq|Hq].
    + assert (i < S q)%nat.
      { apply (Nat.mul_lt_mono_pos_r n); lia. }
      assert (q = i) as -> by lia. case_decide; lia.
    + assert (S i * n <= q * n)%nat by (apply Nat.mul_le_mono_r; lia).
      assert (q * n <= S i * n)%nat by lia.
      assert (q = S i) as ->.
      { apply (Nat.mul_cancel_r _ _ n); lia. }
      case_decide; lia.
Qed.

End batched.

Lemma enumerate_lookup {A : Type} (l : list A) (i : nat) :
  enumerate l !! i = (fun x => (i, x)) <$> l !! i.
Proof. unfold enumerate. apply list_lookup_imap. Qed.

Lemma enumerate_fst {A : Type} (l : list A) :
  (enumerate l).*1 = seq 0 (length l).
Proof.
  apply list_eq. intros i.
  rewrite list_lookup_fmap, enumerate_lookup.
  destruct (l !! i) as [x|] eqn:Hl; simpl.
  - symmetry. apply lookup_seq. split; [done|].
    by eapply lookup_lt_Some.
  - symmetry. apply lookup_seq_ge. by apply lookup_ge_None.
Qed.

Lemma enumerate_snd {A : Type} (l : list A) : (enumerate l).*2 = l.
Proof.
  apply list_eq. intros i.
  rewrite list_lookup_fmap, enumerate_lookup.
  by destruct (l !! i).
Qed.

Lemma enumerate_length {A : Type} (l : list A) :
  length (enumerate l) = length l.
Proof. unfold enumerate. apply length_imap. Qed.

Lemma enumerate_snoc {A : Type} (l : list A) (x : A) :
  enumerate (l ++ [x]) = enumerate l ++ [(length l, x)].
Proof.
  unfold enumerate. rewrite imap_app. simpl.
  by rewrite Nat.add_0_r.
Qed.

(** C7.  With chunk size 10000, a stream of N examples is written as
    ceil(N/10000) files numbered from 0; the batches put end to end are the
    stream, every batch but the last holds 10000 examples, the last holds
    N mod 10000 when that is not zero (10000 otherwise), and the batches
    hold N examples in all. *)
Theorem write_batches_partition {A : Type} (examples : list A) :
  exists files,
    write_batches examples = Ok files
    /\ Z.of_nat (length files) = (Z.of_nat (length examples) + 9999) / 10000
    /\ files.*1 = seq 0 (length files)
    /\ concat files.*2 = examples
    /\ (forall (i : nat) (batch : list A),
          files.*2 !! i = Some batch ->
          Z.of_nat (length batch) =
          if decide (S i < length files)%nat then 10000
          else if decide (Z.of_nat (length examples) mod 10000 = 0)
               then 10000
               else Z.of_nat (length examples) mod 10000)
    /\ sum_list (length <$> files.*2) = length examples.
Proof.
  unfold write_batches, batched.
  change (10000 <? 1) with false. cbv iota.
  set (n := Z.to_nat 10000).
  assert (Hn : Z.of_nat n = 10000) by (subst n; lia).
  assert (Hpos : (0 < n)%nat) by lia.
  clearbody n.
  exists (enumerate (batched_loop examples n)).
  split; [done|].
  rewrite enumerate_length, enumerate_fst, enumerate_snd, ?enumerate_length.
  split; [|split; [done|split; [by apply batched_loop_concat|split]]].
  - rewrite batched_loop_length by done.
    rewrite Nat2Z.inj_div, <- Hn. f_equal. lia.
  - intros i batch Hb.
    rewrite (batched_loop_sizes _ _ _ _ Hpos Hb).
    rewrite <- Hn, <- Nat2Z.inj_mod.
    repeat case_decide; lia.
  - rewrite <- length_concat. by rewrite batched_loop_concat.
Qed.

(** ** The command index and the exclusion test (C8) *)

Lemma filter_ext_elem_of {A : Type} (P Q : A -> Prop)
    `{forall x, Decision (P x)} `{forall x, Decision (Q x)} (l : list A) :
  (forall x, x ∈ l -> P x <-> Q x) -> filter P l = filter Q l.
Proof.
  induction l as [|a l IH]; intros Hext; [done|].
  rewrite !filter_cons.
  rewrite IH by (intros; apply Hext; by right).
  destruct (decide (P a)) as [HP|HP], (decide (Q a)) as [HQ|HQ];
    try done; exfalso; apply (Hext a (list_elem_of_here _ _)) in HP || apply HP;
    tauto || (apply (Hext a (list_elem_of_here _ _)); done).
Qed.

Lemma sort_indices_by_command_snoc (examples : list Example) (e : Example) :
  sort_indices_by_command (examples ++ [e]) =
  bucket_append (command_text e) (length examples)
    (sort_indices_by_command examples).
Proof.
  unfold sort_indices_by_command.
  by rewrite enumerate_snoc, foldl_snoc.
Qed.

(** A bucket of the command index is the list, in increasing order, of the
    positions of the examples with that command text. *)
Lemma sort_indices_by_command_bucket (examples : list Example)
    (key : string) :
  default [] (sort_indices_by_command examples !! key) =
  filter (fun i => command_text <$> examples !! i = Some key)
         (seq 0 (length examples)).
Proof.
  induction examples as [|e examples IH] using rev_ind; [done|].
  rewrite sort_indices_by_command_snoc, length_app. simpl length.
  rewrite Nat.add_1_r, seq_S, filter_app. simpl.
  assert (Hold : filter (fun i => command_text <$> (examples ++ [e]) !! i
                                  = Some key) (seq 0 (length examples))
                 = filter (fun i => command_text <$> examples !! i = Some key)
                          (seq 0 (length examples))).
  { apply filter_ext_elem_of. intros i Hi. apply elem_of_seq in Hi.
    by rewrite lookup_app_l by lia. }
  rewrite Hold, <- IH. clear Hold.
  assert (Hlast : (examples ++ [e]) !! length examples = Some e).
  { rewrite lookup_app_r by done. by rewrite Nat.sub_diag. }
  unfold bucket_append.
  destruct (decide (command_text e = key)) as [<-|Hne].
  - rewrite lookup_insert_eq. simpl.
    rewrite filter_cons, decide_True by (by rewrite Hlast). done.
  - rewrite lookup_insert_ne by done.
    rewrite filter_cons, decide_False.
    + by rewrite app_nil_r.
    + rewrite Hlast. simpl. congruence.
Qed.

Lemma StronglySorted_seq (start len : nat) :
  StronglySorted lt (seq start len).
Proof.
  revert start. induction len as [|len IH]; intros start; simpl.
  - constructor.
  - constructor; [apply IH|].
    apply Forall_forall. intros x Hx%elem_of_seq. lia.
Qed.

Lemma StronglySorted_filter {A : Type} (R : A -> A -> Prop) (P : A -> Prop)
    `{forall x, Decision (P x)} (l : list A) :
  StronglySorted R l -> StronglySorted R (filter P l).
Proof.
  induction 1 as [|a l Hl IH Ha]; [constructor|].
  rewrite filter_cons. destruct (decide (P a)); [|done].
  constructor; [done|]. rewrite Forall_forall in Ha |- *.
  intros x Hx%list_elem_of_filter. apply Ha, Hx.
Qed.

Lemma StronglySorted_lookup {A : Type} (R : A -> A -> Prop) (l : list A)
    (i j : nat) (x y : A) :
  StronglySorted R l -> (i < j)%nat ->
  l !! i = Some x -> l !! j = Some y -> R x y.
Proof.
  intros Hs. revert i j. induction Hs as [|a l Hl IH Ha]; intros i j Hij Hi Hj.
  - done.
  - destruct j as [|j]; [lia|]. simpl in Hj.
    destruct i as [|i]; simpl in Hi.
    + injection Hi as ->. rewrite Forall_forall in Ha.
      apply Ha. by eapply list_elem_of_lookup_2.
    + apply (IH i j); [lia|done..].
Qed.

(** [bisect_left] on an increasing list: the result splits the list into
    the elements below [x] and the others. *)
Lemma bisect_left_loop_spec (a : list nat) (x lo hi : nat) :
  StronglySorted lt a ->
  (lo <= hi <= length a)%nat ->
  (forall j y, (j < lo)%nat -> a !! j = Some y -> (y < x)%nat) ->
  (forall j y, (hi <= j)%nat -> a !! j = Some y -> (x <= y)%nat) ->
  (lo <= bisect_left_loop a x lo hi <= hi)%nat
  /\ (forall j y, (j < bisect_left_loop a x lo hi)%nat ->
                  a !! j = Some y -> (y < x)%nat)
  /\ (forall j y, (bisect_left_loop a x lo hi <= j)%nat ->
                  a !! j = Some y -> (x <= y)%nat).
Proof.
  intros Hs. funelim (bisect_left_loop a x lo hi); intros Hb Hlo Hhi.
  - set (mid := ((lo + hi) / 2)%nat) in *.
    assert (Hmid : (lo <= mid < hi)%nat).
    { subst mid. pose proof (Nat.div_mod_eq (lo + hi) 2).
      pose proof (Nat.mod_upper_bound (lo + hi) 2). lia. }
    assert (Ham : a !! mid = Some (a !!! mid)).
    { apply list_lookup_lookup_total_lt. lia. }
    destruct (decide (a !!! mid < x)%nat) as [Hlt|Hge].
    + destruct (H Hlt Hs) as (? & ? & ?); [lia| |done|].
      * intros j y Hj Hy.
        destruct (decide (j = mid)) as [->|Hne]; [congruence|].
        pose proof (StronglySorted_lookup lt a j mid y (a !!! mid) Hs
                      ltac:(lia) Hy Ham).
        lia.
      * split; [lia|]. by split.
    + destruct (H0 Hge Hs) as (? & ? & ?); [lia|done| |].
      * intros j y Hj Hy.
        destruct (decide (j = mid)) as [->|Hne].
        { rewrite Ham in Hy. injection Hy. lia. }
        pose proof (StronglySorted_lookup lt a mid j (a !!! mid) y Hs
                      ltac:(lia) Ham Hy).
        lia.
      * split; [lia|]. by split.
  - assert (lo = hi) as -> by lia. split; [lia|]. by split.
Qed.

Lemma find_in_sorted_list_spec (a : list nat) (x : nat) :
  StronglySorted lt a -> find_in_sorted_list a x = true <-> x ∈ a.
Proof.
  intros Hs. unfold find_in_sorted_list, bisect_left.
  destruct (bisect_left_loop_spec a x 0 (length a) Hs)
    as (Hr & Hbelow & Habove); [lia|intros; lia| |].
  { intros j y Hj Hy. apply lookup_lt_Some in Hy. lia. }
  set (i := bisect_left_loop a x 0 (length a)) in *.
  rewrite andb_true_iff, !bool_decide_eq_true. split.
  - intros [Hi Hx]. apply list_elem_of_lookup. exists i.
    rewrite <- Hx. apply list_lookup_lookup_total_lt. lia.
  - intros [j Hj]%list_elem_of_lookup.
    assert (i <= j)%nat.
    { destruct (decide (i <= j)%nat); [done|].
      pose proof (Hbelow j x ltac:(lia) Hj). lia. }
    pose proof (lookup_lt_Some _ _ _ Hj).
    split; [lia|].
    assert (Hi : a !! i = Some (a !!! i)).
    { apply list_lookup_lookup_total_lt. lia. }
    pose proof (Habove i (a !!! i) (Nat.le_refl _) Hi).
    destruct (decide (i = j)) as [->|Hne]; [congruence|].
    pose proof (StronglySorted_lookup lt a i j (a !!! i) x Hs
                  ltac:(lia) Hi Hj).
    lia.
Qed.



(** ** Sampling from the bucket of the target position (C5) *)

Lemma omap_total_length {A B : Type} (f : A -> option B) (l : list A) :
  (forall x, x ∈ l -> is_Some (f x)) -> length (omap f l) = length l.
Proof.
  induction l as [|x l IH]; intros Hf; [done|]. csimpl.
  destruct (Hf x) as [y Hy]; [left|]. rewrite Hy. csimpl.
  rewrite IH; [done|]. intros; apply Hf; by right.
Qed.

Lemma random_choice_replace_length {A : Type} (draw : nat -> nat)
    (a : list A) (size : Z) (r : list A) :
  random_choice_replace draw a size = Ok r ->
  0 <= size /\ Z.of_nat (length r) = size /\ r ⊆ a.
Proof.
  unfold random_choice_replace.
  destruct (size <? 0) eqn:Hneg; [done|].
  destruct (negb (nonempty a) && (0 <? size)) eqn:Hempty; [done|].
  intros Heq.
  replace r with (omap (fun j => a !! (draw j mod length a)%nat)
                       (seq 0 (Z.to_nat size))) by congruence.
  clear Heq. split; [lia|]. split.
  - destruct a as [|x a].
    + simpl in Hempty. assert (size = 0) as -> by lia. done.
    + rewrite omap_total_length; [rewrite length_seq; lia|].
      intros j _. apply lookup_lt_is_Some_2.
      apply Nat.mod_upper_bound. done.
  - intros y (j & _ & Hy)%list_elem_of_omap.
    by eapply list_elem_of_lookup_2.
Qed.

Lemma random_choice_replace_singleton {A : Type} (draw : nat -> nat)
    (x : A) (size : Z) :
  0 <= size ->
  random_choice_replace draw [x] size = Ok (replicate (Z.to_nat size) x).
Proof.
  intros Hsize. unfold random_choice_replace.
  destruct (size <? 0) eqn:Hneg; [lia|].
  change (negb (nonempty [x]) && (0 <? size)) with false. cbv iota.
  f_equal. remember (seq 0 (Z.to_nat size)) as js eqn:Hjs.
  replace (Z.to_nat size) with (length js) by (by rewrite Hjs, length_seq).
  clear Hjs. induction js as [|j js IH]; [done|].
  csimpl in *. by rewrite IH.
Qed.

Lemma supports_of_examples_singleton (train_examples : list Example)
    (i : nat) (e : Example) :
  train_examples !! i = Some e ->
  supports_of_examples train_examples [i]
  = Ok ([parse_command_repr (command e)],
        [parse_command_repr (target_commands e)], [situation e]).
Proof.
  intros He. unfold supports_of_examples, get_example. simpl.
  by rewrite He.
Qed.

(** The number of supports the strategy returns is the smaller of the
    number of candidates left by the exclusion and [num_demos]. *)
Lemma same_position_support_count (draw : nat -> nat)
    (query_command : list string) (s : Situation)
    (by_target_x_y : gmap Z (gmap Z (list nat)))
    (by_command : gmap string (list nat))
    (train_examples : list Example) (num_demos : Z)
    (possible_demos : list nat) (sup : Supports) :
  exclude_same_command by_command (str_join " " query_command)
    (bucket2 by_target_x_y (column (position (target_object s)))
       (row (position (target_object s)))) = Ok possible_demos ->
  find_supports_with_any_target_object_in_same_position draw query_command s
    by_target_x_y by_command train_examples num_demos = Ok sup ->
  Z.of_nat (length sup.1.1)
  = Z.min (Z.of_nat (length possible_demos)) num_demos.
Proof.
  unfold find_supports_with_any_target_object_in_same_position.
  intros -> Hsup. simpl in Hsup.
  apply bind_Ok in Hsup as (relevant & Hrel & Hsup).
  apply random_choice_replace_length in Hrel as (_ & Hlen & _).
  unfold supports_of_examples in Hsup.
  apply bind_Ok in Hsup as (examples & Hex & Hsup).
  apply mapM_Ok_length in Hex.
  replace sup with
    (map (fun e => parse_command_repr (command e)) examples,
     map (fun e => parse_command_repr (target_commands e)) examples,
     map situation examples) by congruence.
  simpl. rewrite length_map, Hex. exact Hlen.
Qed.

(** C5, as the code has it.  When the exclusion of the query's command
    text leaves exactly one candidate in the bucket of the target's
    position, the strategy returns exactly one support whatever
    [num_demos >= 1] is asked for (5 in particular): the sample size is the
    smaller of the number of candidates and [num_demos], and the one
    support is that candidate. *)
Theorem same_position_singleton_bucket (draw : nat -> nat)
    (query_command : list string) (s : Situation)
    (by_target_x_y : gmap Z (gmap Z (list nat)))
    (by_command : gmap string (list nat))
    (train_examples : list Example) (num_demos : Z)
    (candidate : nat) (e : Example) :
  exclude_same_command by_command (str_join " " query_command)
    (bucket2 by_target_x_y (column (position (target_object s)))
       (row (position (target_object s)))) = Ok [candidate] ->
  train_examples !! candidate = Some e ->
  1 <= num_demos ->
  find_supports_with_any_target_object_in_same_position draw query_command s
    by_target_x_y by_command train_examples num_demos
  = Ok ([parse_command_repr (command e)],
        [parse_command_repr (target_commands e)], [situation e]).
Proof.
  intros Hex He Hn.
  unfold find_supports_with_any_target_object_in_same_position.
  rewrite Hex. simpl.
  replace (Z.min (Z.of_nat 1) num_demos) with 1 by lia.
  rewrite random_choice_replace_singleton by lia. simpl.
  by apply supports_of_examples_singleton.
Qed.

(** C5 on the example corpus with [num_demos = 5]: candidate 1 is the only
    one left and the strategy returns that one support. *)
Lemma same_position_singleton_bucket_witness :
  find_supports_with_any_target_object_in_same_position Examples.first_draw
    Examples.push_query Examples.one_circle
    (sort_indices_by_target_positions Examples.train_examples)
    (sort_indices_by_command Examples.train_examples)
    Examples.train_examples 5
  = Ok ([["walk"; "to"; "a"; "red"; "circle"]], [["walk"; "walk"]],
        [Examples.one_circle]).
Proof.
  apply (same_position_singleton_bucket Examples.first_draw
           Examples.push_query Examples.one_circle
           (sort_indices_by_target_positions Examples.train_examples)
           (sort_indices_by_command Examples.train_examples)
           Examples.train_examples 5 1%nat
           (mkExample "walk,to,a,red,circle" "walk,walk"
              Examples.one_circle)).
  - vm_compute. reflexivity.
  - reflexivity.
  - lia.
Defined.

(** The claim C5 as stated fails: on the example corpus the bucket of the
    target position is [0; 1; 2], the exclusion leaves the single candidate
    1, [num_demos] is 5, and the strategy returns one support, not five. *)
Lemma same_position_singleton_returns_one :
  bucket2 (sort_indices_by_target_positions Examples.train_examples) 3 2
  = [0; 1; 2]%nat
  /\ exclude_same_command (sort_indices_by_command Examples.train_examples)
       (str_join " " Examples.push_query) [0; 1; 2]%nat = Ok [1%nat]
  /\ exists sup,
       find_supports_with_any_target_object_in_same_position
         Examples.first_draw Examples.push_query Examples.one_circle
         (sort_indices_by_target_positions Examples.train_examples)
         (sort_indices_by_command Examples.train_examples)
         Examples.train_examples 5 = Ok sup
       /\ length sup.1.1 = 1%nat
       /\ length sup.1.1 ≠ 5%nat.
Proof.
  split; [vm_compute; reflexivity|].
  split; [vm_compute; reflexivity|].
  eexists. split; [vm_compute; reflexivity|].
  split; [reflexivity|]. simpl. lia.
Qed.

(** ** Random command texts (C6) *)

(** Joining the characters of a text of two characters or more gives a
    longer text, hence another one. *)
Lemma str_join_characters_length (s : string) :
  String.length (str_join " " (characters s))
  = (2 * String.length s - 1)%nat.
Proof.
  induction s as [|c s IH]; [done|].
  destruct s as [|c' s]; [done|].
  change (characters (String c (String c' s)))
    with (String c EmptyString :: characters (String c' s)).
  change (str_join " " (String c "" :: characters (String c' s)))
    with (String c (String " " (str_join " " (characters (String c' s))))).
  simpl String.length in *. rewrite IH. lia.
Qed.

(** C6 at a failing input.  The corpus has the two command texts
    "push a red circle" and "walk to a red circle"; for the query
    "push a red circle" and [num_demos = 1] the one other text is drawn, its
    characters are joined with blanks, the result is no key of the index,
    and the strategy returns no support at all. *)
Lemma random_find_matching_returns_nothing :
  elements (dom (sort_indices_by_command Examples.train_examples)
            ∖ {[str_join " " Examples.push_query]})
  = ["walk to a red circle"]
  /\ str_join " " (characters "walk to a red circle")
     = "w a l k   t o   a   r e d   c i r c l e"
  /\ generate_random_instructions_find_support_in_any_layout
       (fun keys => keys) Examples.first_draw Examples.push_query
       (sort_indices_by_command Examples.train_examples)
       Examples.train_examples 1
     = Ok ([], [], []).
Proof.
  split; [vm_compute; reflexivity|].
  split; [vm_compute; reflexivity|].
  vm_compute. reflexivity.
Qed.

(** Whenever no key of the index is the blank-separated spelling of a key,
    which is so for every corpus of commands of several letters, the
    strategy returns no support. *)
Lemma random_find_matching_never_finds
    (shuffle : list string -> list string) (draw : nat -> nat)
    (query_command : list string) (by_command : gmap string (list nat))
    (train_examples : list Example) (num_demos : Z)
    (res : list string * list (list string) * list Situation) :
  (forall keys, shuffle keys ≡ₚ keys) ->
  (forall k, k ∈ dom by_command ->
             by_command !! str_join " " (characters k) = None) ->
  generate_random_instructions_find_support_in_any_layout shuffle draw
    query_command by_command train_examples num_demos = Ok res ->
  res = ([], [], []).
Proof.
  intros Hshuffle Hkeys.
  unfold generate_random_instructions_find_support_in_any_layout.
  intros (drawn & Hdrawn & (found & Hfound & Hres)%bind_Ok)%bind_Ok.
  assert (Hin : forall k, k ∈ drawn -> k ∈ dom by_command).
  { intros k Hk. unfold random_choice_no_replace in Hdrawn.
    destruct (num_demos <? 0); [done|].
    destruct (Z.of_nat _ <? num_demos); [done|].
    injection Hdrawn as <-. apply subseteq_take in Hk.
    rewrite Hshuffle in Hk.
    by apply elem_of_elements, elem_of_difference in Hk as [Hk _]. }
  assert (Hnone : forall x, x ∈ found -> x = None).
  { intros x Hx.
    destruct (mapM_Ok_elem _ _ _ _ Hfound Hx) as ([j k] & Hjk & Hf).
    assert (k ∈ drawn) as Hk.
    { apply list_elem_of_lookup in Hjk as [i Hi].
      rewrite enumerate_lookup in Hi.
      destruct (drawn !! i) eqn:Hd; [|done]. injection Hi as _ <-.
      by eapply list_elem_of_lookup_2. }
    rewrite (Hkeys k (Hin k Hk)) in Hf. by injection Hf. }
  assert (omap id found = []) as Hkept.
  { clear -Hnone. induction found as [|x found IH]; [done|].
    rewrite (Hnone x) by left. csimpl. apply IH.
    intros; apply Hnone; by right. }
  rewrite Hkept in Hres. by injection Hres.
Qed.

(** ** Construction of a vocabulary (C9) *)

Section vocabulary.

Import Vocabulary.

Lemma size_list_to_set_le (l : list string) :
  (size (list_to_set l : gset string) <= length l)%nat.
Proof.
  induction l as [|a l IH]; [done|]. simpl.
  rewrite size_union_alt, size_singleton.
  pose proof (subseteq_size (list_to_set l ∖ {[a]} : gset string)
                (list_to_set l)) as Hle.
  assert ((list_to_set l ∖ {[a]} : gset string) ⊆ list_to_set l) as Hsub.
  { intros x Hx. by apply elem_of_difference in Hx as [Hx _]. }
  specialize (Hle Hsub). lia.
Qed.

Lemma length_size_NoDup (l : list string) :
  length l = size (list_to_set l : gset string) <-> NoDup l.
Proof.
  split; [|intros; symmetry; by apply size_list_to_set].
  induction l as [|a l IH]; [constructor|]. simpl. intros Hlen.
  pose proof (size_list_to_set_le l) as Hle.
  destruct (decide (a ∈ l)) as [Hin|Hnin].
  - exfalso.
    assert (({[a]} ∪ list_to_set l : gset string) = list_to_set l) as Heq.
    { apply subseteq_union_1_L, singleton_subseteq_l.
      by apply elem_of_list_to_set. }
    rewrite Heq in Hlen. lia.
  - apply NoDup_cons. split; [done|]. apply IH.
    rewrite size_union, size_singleton in Hlen; [lia|].
    apply disjoint_singleton_l. by rewrite elem_of_list_to_set.
Qed.

Lemma elem_of_keys (d : gmap string string) (w : string) :
  w ∈ keys d <-> w ∈ dom d.
Proof.
  unfold keys. rewrite elem_of_dom, list_elem_of_fmap. split.
  - intros ([k v] & -> & Hkv). apply elem_of_map_to_list in Hkv. by exists v.
  - intros [v Hv]. exists (w, v). split; [done|].
    by apply elem_of_map_to_list.
Qed.

Lemma NoDup_keys (d : gmap string string) : NoDup (keys d).
Proof. apply NoDup_fst_map_to_list. Qed.

Lemma elem_of_concat (ls : list (list string)) (w : string) :
  w ∈ concat ls <-> exists j lj, ls !! j = Some lj /\ w ∈ lj.
Proof.
  induction ls as [|l ls IH]; simpl.
  - split; [by intros ?%elem_of_nil|by intros (? & ? & ? & ?)].
  - rewrite elem_of_app, IH. split.
    + intros [Hw|(j & lj & Hj & Hw)]; [by exists 0%nat, l|by exists (S j), lj].
    + intros ([|j] & lj & Hj & Hw); simpl in Hj.
      * left. by injection Hj as ->.
      * right. eauto.
Qed.

Lemma concat_NoDup_apart (ls : list (list string)) (i j : nat)
    (li lj : list string) (w : string) :
  NoDup (concat ls) -> (i < j)%nat ->
  ls !! i = Some li -> ls !! j = Some lj -> w ∈ li -> w ∈ lj -> False.
Proof.
  revert i j. induction ls as [|l ls IH]; intros i j Hnd Hij Hi Hj Hwi Hwj.
  - done.
  - simpl in Hnd. apply NoDup_app in Hnd as (_ & Hapart & Hnd).
    destruct j as [|j]; [lia|]. simpl in Hj.
    destruct i as [|i]; simpl in Hi.
    + injection Hi as ->. apply (Hapart w Hwi).
      apply elem_of_concat. eauto.
    + apply (IH i j); [done|lia|done..].
Qed.

Lemma concat_NoDup_or_shared (ls : list (list string)) :
  Forall NoDup ls ->
  NoDup (concat ls)
  \/ exists i j li lj w,
       (i < j)%nat /\ ls !! i = Some li /\ ls !! j = Some lj
       /\ w ∈ li /\ w ∈ lj.
Proof.
  induction 1 as [|l ls Hl Hls IH]; [left; constructor|].
  destruct IH as [Hnd|(i & j & li & lj & w & Hij & Hi & Hj & Hwi & Hwj)].
  - destruct (decide (Exists (fun w => w ∈ concat ls) l)) as [Hex|Hnex].
    + right. apply Exists_exists in Hex as (w & Hw & Hc).
      apply elem_of_concat in Hc as (j & lj & Hj & Hwj).
      exists 0%nat, (S j), l, lj, w. split; [lia|]. by repeat split.
    + left. simpl. apply NoDup_app. split; [done|]. split; [|done].
      intros w Hw Hc. apply Hnex, Exists_exists. eauto.
  - right. exists (S i), (S j), li, lj, w. split; [lia|]. by repeat split.
Qed.

(** The assertion of the constructor holds exactly when no word is shared. *)
Lemma all_words_NoDup_iff (ds : list (gmap string string)) :
  NoDup (concat (keys <$> ds)) <-> ~ shared_word ds.
Proof.
  split.
  - intros Hnd (i & j & di & dj & w & Hij & Hi & Hj & Hwi & Hwj).
    apply elem_of_keys in Hwi, Hwj.
    assert (Hi' : (keys <$> ds) !! i = Some (keys di))
      by by rewrite list_lookup_fmap, Hi.
    assert (Hj' : (keys <$> ds) !! j = Some (keys dj))
      by by rewrite list_lookup_fmap, Hj.
    destruct (Nat.lt_trichotomy i j) as [Hlt|[Heq|Hgt]]; [|done|].
    + by apply (concat_NoDup_apart _ i j _ _ w Hnd Hlt Hi' Hj').
    + by apply (concat_NoDup_apart _ j i _ _ w Hnd Hgt Hj' Hi').
  - intros Hns.
    destruct (concat_NoDup_or_shared (keys <$> ds))
      as [Hnd|(i & j & li & lj & w & Hij & Hi & Hj & Hwi & Hwj)]; [|done|].
    { apply Forall_fmap, Forall_forall. intros d _. apply NoDup_keys. }
    exfalso. apply Hns.
    rewrite list_lookup_fmap in Hi, Hj.
    destruct (ds !! i) as [di|] eqn:Hdi; [|done].
    destruct (ds !! j) as [dj|] eqn:Hdj; [|done].
    injection Hi as <-. injection Hj as <-.
    exists i, j, di, dj, w. split; [lia|].
    by rewrite <- !elem_of_keys.
Qed.

Lemma NoDup_or_shared_word (ds : list (gmap string string)) :
  NoDup (concat (keys <$> ds)) \/ shared_word ds.
Proof.
  destruct (concat_NoDup_or_shared (keys <$> ds))
    as [Hnd|(i & j & li & lj & w & Hij & Hi & Hj & Hwi & Hwj)]; [|by left|].
  { apply Forall_fmap, Forall_forall. intros d _. apply NoDup_keys. }
  right. rewrite list_lookup_fmap in Hi, Hj.
  destruct (ds !! i) as [di|] eqn:Hdi; [|done].
  destruct (ds !! j) as [dj|] eqn:Hdj; [|done].
  injection Hi as <-. injection Hj as <-.
  exists i, j, di, dj, w. split; [lia|].
  by rewrite <- !elem_of_keys.
Qed.

Lemma shared_word_not_NoDup (ds : list (gmap string string)) :
  shared_word ds -> ~ NoDup (concat (keys <$> ds)).
Proof.
  intros (i & j & di & dj & w & Hij & Hi & Hj & Hwi & Hwj) Hnd.
  apply elem_of_keys in Hwi, Hwj.
  assert (Hi' : (keys <$> ds) !! i = Some (keys di))
    by by rewrite list_lookup_fmap, Hi.
  assert (Hj' : (keys <$> ds) !! j = Some (keys dj))
    by by rewrite list_lookup_fmap, Hj.
  destruct (Nat.lt_trichotomy i j) as [Hlt|[Heq|Hgt]]; [|done|].
  - by apply (concat_NoDup_apart _ i j _ _ w Hnd Hlt Hi' Hj').
  - by apply (concat_NoDup_apart _ j i _ _ w Hnd Hgt Hj' Hi').
Qed.

(** The constructor raises when a word is shared and returns the object
    otherwise. *)
Lemma init_spec (h : gmap nat value) (l1 l2 l3 l4 l5 l6 : nat) :
  let ds := read_dict h <$> [l1; l2; l3; l4; l5; l6] in
  (shared_word ds -> init h l1 l2 l3 l4 l5 l6 = Raise AssertionError)
  /\ (~ shared_word ds -> init h l1 l2 l3 l4 l5 l6 = Ok (mk l1 l2 l3 l4 l5 l6))
  /\ (init h l1 l2 l3 l4 l5 l6 = Raise AssertionError -> shared_word ds).
Proof.
  intros ds. unfold init.
  assert (Hall : keys (read_dict h l1) ++ keys (read_dict h l2)
                 ++ keys (read_dict h l3) ++ keys (read_dict h l4)
                 ++ keys (read_dict h l5) ++ keys (read_dict h l6)
                 = concat (keys <$> ds)).
  { subst ds. simpl. by rewrite app_nil_r. }
  rewrite Hall.
  pose proof (NoDup_or_shared_word ds) as Hor.
  pose proof (shared_word_not_NoDup ds) as Hnot.
  rewrite <- length_size_NoDup in Hor, Hnot.
  case_bool_decide as Hlen.
  - split; [intros Hs; by destruct (Hnot Hs)|]. by split.
  - split; [done|]. split; [|intros _; tauto].
    intros Hs. tauto.
Qed.

End vocabulary.



(** ** The round-robin ordering of the alternatives (C3) *)

Lemma next_mode_cycle (m : Mode) : next_mode (next_mode (next_mode m)) = m.
Proof. by destruct m. Qed.

Lemma filter_length_split {A : Type} (P : A -> Prop)
    `{forall x, Decision (P x)} (l : list A) :
  (length (filter P l) + length (filter (fun x => ~ P x) l))%nat = length l.
Proof.
  induction l as [|a l IH]; [done|].
  rewrite !filter_cons. destruct (decide (P a)) as [HP|HP].
  - rewrite decide_False by tauto. simpl. lia.
  - rewrite decide_True by done. simpl. lia.
Qed.

Lemma sorted_by_match_length (matches : list bool) (l : list nat) :
  length (sorted_by_match matches l) = length l.
Proof.
  unfold sorted_by_match. rewrite length_app.
  apply (filter_length_split (fun i => matches !!! i = true)).
Qed.

Lemma filter_none {A : Type} (P : A -> Prop) `{forall x, Decision (P x)}
    (l : list A) :
  (forall x, x ∈ l -> ~ P x) -> filter P l = [].
Proof.
  induction l as [|a l IH]; intros Hl; [done|].
  rewrite filter_cons, decide_False by (apply Hl; left).
  apply IH. intros; apply Hl; by right.
Qed.

(** The first entry of the sorted array that satisfies a test implying the
    match flag is the first such position in the order of the list. *)
Lemma head_filter_sorted_by_match (matches : list bool) (Q : nat -> Prop)
    `{forall x, Decision (Q x)} (l : list nat) :
  (forall i, Q i -> matches !!! i = true) ->
  head (filter Q (sorted_by_match matches l)) = head (filter Q l).
Proof.
  intros HQ. unfold sorted_by_match. rewrite filter_app.
  rewrite (filter_none Q (filter (fun i => matches !!! i ≠ true) l)).
  - rewrite app_nil_r, list_filter_filter. f_equal.
    apply filter_ext_elem_of. intros i _. split; [tauto|].
    intros Hi. split; [done|]. by apply HQ.
  - intros i [Hne _]%list_elem_of_filter Hq. by apply Hne, HQ.
Qed.

Lemma head_filter_at {A : Type} (P : A -> Prop) `{forall x, Decision (P x)}
    (l : list A) (c : nat) (p : A) :
  l !! c = Some p -> P p ->
  (forall j q, (j < c)%nat -> l !! j = Some q -> ~ P q) ->
  head (filter P l) = Some p.
Proof.
  revert c. induction l as [|a l IH]; intros c Hc Hp Hbefore; [done|].
  rewrite filter_cons. destruct c as [|c]; simpl in Hc.
  - injection Hc as ->. by rewrite decide_True.
  - rewrite decide_False by (apply (Hbefore 0%nat); [lia|done]).
    apply (IH c); [done..|].
    intros j q Hj Hq. apply (Hbefore (S j)); [lia|done].
Qed.

Section round_robin.

Context (t : MatchTables) (n : nat).
Context (Harray : forall m,
           indices_indexes_array t m
           = sorted_by_match (option_matches t m) (seq 0 n)).

Lemma array_length (m : Mode) : length (indices_indexes_array t m) = n.
Proof. by rewrite Harray, sorted_by_match_length, length_seq. Qed.

(** [pick] read on the sorted array of the mode. *)
Lemma pick_array (m : Mode) (remaining : gset nat) :
  pick (option_matches t) n m remaining
  = head (filter (pickable (option_matches t) m remaining)
                 (indices_indexes_array t m)).
Proof.
  unfold pick. rewrite Harray. symmetry.
  apply head_filter_sorted_by_match. by intros i [_ Hi].
Qed.

Lemma pick_exhausted (st : Cursor) (m : Mode) :
  cursor_invariant t st -> (n <= indices_indexes st m)%nat ->
  pick (option_matches t) n m (option_indices_set st) = None.
Proof.
  intros Hinv Hm. rewrite pick_array, filter_none; [done|].
  intros p [j Hj]%list_elem_of_lookup.
  apply (Hinv m j p); [|done].
  apply lookup_lt_Some in Hj. rewrite array_length in Hj. lia.
Qed.

Lemma pick_found (st : Cursor) (p : nat) :
  cursor_invariant t st ->
  indices_indexes_array t (mode st) !! indices_indexes st (mode st) = Some p ->
  pickable (option_matches t) (mode st) (option_indices_set st) p ->
  pick (option_matches t) n (mode st) (option_indices_set st) = Some p.
Proof.
  intros Hinv Hp Hpick. rewrite pick_array.
  apply (head_filter_at _ _ (indices_indexes st (mode st))); [done..|].
  intros j q Hj Hq. by apply (Hinv (mode st) j q).
Qed.

(** A mode with nothing to pick passes its turn. *)
Lemma round_robin_spec_pass (k : nat) (m : Mode) (remaining : gset nat) :
  pick (option_matches t) n m remaining = None ->
  round_robin_spec k (option_matches t) n m remaining
  = round_robin_spec k (option_matches t) n (next_mode m) remaining.
Proof.
  intros Hnone. destruct k as [|k]; [done|]. simpl.
  unfold first_pick. rewrite next_mode_cycle, Hnone.
  destruct (pick _ n (next_mode m) remaining); [done|].
  by destruct (pick _ n (next_mode (next_mode m)) remaining).
Qed.

Lemma round_robin_spec_nothing (k : nat) (m : Mode) (remaining : gset nat) :
  (forall m', pick (option_matches t) n m' remaining = None) ->
  round_robin_spec k (option_matches t) n m remaining = [].
Proof.
  intros Hnone. destruct k as [|k]; [done|]. simpl.
  unfold first_pick. by rewrite !Hnone.
Qed.

Lemma round_robin_spec_emit (m : Mode) (remaining : gset nat) (p : nat) :
  pick (option_matches t) n m remaining = Some p ->
  round_robin_spec (size remaining) (option_matches t) n m remaining
  = p :: round_robin_spec (size (remaining ∖ {[p]})) (option_matches t) n
           (next_mode m) (remaining ∖ {[p]}).
Proof.
  intros Hpick.
  assert (p ∈ remaining) as Hp.
  { unfold pick in Hpick. apply head_Some_elem_of in Hpick.
    by apply list_elem_of_filter in Hpick as [[Hp _] _]. }
  assert (size remaining = S (size (remaining ∖ {[p]}))) as ->.
  { rewrite size_difference by (by apply singleton_subseteq_l).
    rewrite size_singleton.
    assert (size remaining ≠ 0)%nat; [|lia].
    apply size_non_empty_iff. intros Hempty.
    apply (not_elem_of_empty (C:=gset nat) p). by apply Hempty. }
  simpl. unfold first_pick. by rewrite Hpick.
Qed.

End round_robin.

Ltac split_ltb :=
  repeat match goal with
         | |- context [(?a <? ?b)%nat] => destruct (Nat.ltb_spec a b)
         | H : context [(?a <? ?b)%nat] |- _ => destruct (Nat.ltb_spec a b)
         | |- context [(?a <=? ?b)%nat] => destruct (Nat.leb_spec a b)
         | H : context [(?a <=? ?b)%nat] |- _ => destruct (Nat.leb_spec a b)
         end.

Ltac solve_measure :=
  unfold loop_measure, turns_to_pass, advance in *; simpl in *;
  split_ltb; simpl in *; try done; try lia.

Section round_robin_loop.

Context (t : MatchTables) (n : nat).
Context (Harray : forall m,
           indices_indexes_array t m
           = sorted_by_match (option_matches t m) (seq 0 n)).

Lemma cursor_invariant_mode (m m' : Mode) (ix : Mode -> nat)
    (remaining : gset nat) :
  cursor_invariant t (mkCursor m ix remaining) ->
  cursor_invariant t (mkCursor m' ix remaining).
Proof. done. Qed.

Lemma cursor_invariant_skip (m : Mode) (ix : Mode -> nat)
    (remaining : gset nat) (p : nat) :
  cursor_invariant t (mkCursor m ix remaining) ->
  indices_indexes_array t m !! ix m = Some p ->
  ~ pickable (option_matches t) m remaining p ->
  cursor_invariant t (mkCursor m (advance ix m) remaining).
Proof.
  intros Hinv Hp Hnp m' j q Hj Hq. simpl in *. unfold advance in Hj.
  destruct (decide (m' = m)) as [->|Hne].
  - destruct (decide (j = ix m)) as [->|Hlt].
    + by replace q with p by congruence.
    + apply (Hinv m j q); simpl; [lia|done].
  - by apply (Hinv m' j q).
Qed.

Lemma cursor_invariant_emit (m : Mode) (ix : Mode -> nat)
    (remaining : gset nat) (p : nat) :
  cursor_invariant t (mkCursor m ix remaining) ->
  indices_indexes_array t m !! ix m = Some p ->
  cursor_invariant t
    (mkCursor (next_mode m) (advance ix m) (remaining ∖ {[p]})).
Proof.
  intros Hinv Hp m' j q Hj Hq [Hin Hmatch]. simpl in *.
  apply elem_of_difference in Hin as [Hin Hnp].
  unfold advance in Hj.
  destruct (decide (m' = m)) as [->|Hne].
  - destruct (decide (j = ix m)) as [->|Hlt].
    + apply Hnp, elem_of_singleton. congruence.
    + apply (Hinv m j q); simpl; [lia|done|by split].
  - apply (Hinv m' j q); simpl; [done..|by split].
Qed.

(** The loop computes the specified ordering whenever the fuel exceeds
    the measure of the state. *)
Lemma round_robin_loop_refines (fuel : nat) (st : Cursor) :
  cursor_invariant t st ->
  (loop_measure n st < fuel)%nat ->
  round_robin_loop fuel t st
  = Some (round_robin_spec (size (option_indices_set st)) (option_matches t)
            n (mode st) (option_indices_set st)).
Proof.
  revert st. induction fuel as [|fuel IH]; intros [m ix remaining] Hinv Hfuel;
    [lia|].
  simpl. rewrite !(array_length t n Harray).
  destruct (negb _) eqn:Hcond.
  { (* every cursor is at the end *)
    rewrite (round_robin_spec_nothing t n); [done|].
    intros m'.
    apply (pick_exhausted t n Harray (mkCursor m ix remaining) m' Hinv).
    simpl. destruct m'; solve_measure. }
  destruct (n <=? ix m)%nat eqn:Hend.
  { (* the mode has no entry left: pass *)
    rewrite IH; simpl.
    - f_equal. symmetry. apply (round_robin_spec_pass t n).
      apply (pick_exhausted t n Harray (mkCursor m ix remaining) m Hinv).
      simpl. by apply Nat.leb_le.
    - done.
    - destruct m; solve_measure. }
  apply Nat.leb_gt in Hend.
  assert (Hp : indices_indexes_array t m !! ix m
               = Some (indices_indexes_array t m !!! ix m)).
  { apply list_lookup_lookup_total_lt.
    by rewrite (array_length t n Harray). }
  set (p := indices_indexes_array t m !!! ix m) in *.
  destruct (negb (bool_decide (p ∈ remaining))
            || negb (option_matches t m !!! p)) eqn:Hskip.
  { (* the entry was taken or does not match: skip it *)
    assert (~ pickable (option_matches t) m remaining p) as Hnp.
    { intros [Hin Hmatch]. rewrite Hmatch in Hskip.
      rewrite bool_decide_eq_true_2 in Hskip by done. done. }
    rewrite IH; simpl.
    - done.
    - by apply (cursor_invariant_skip m ix remaining p).
    - destruct m; solve_measure. }
  (* the entry is picked *)
  apply orb_false_iff in Hskip as [Hin Hmatch].
  apply negb_false_iff in Hin, Hmatch. apply bool_decide_eq_true in Hin.
  assert (Hpick : pick (option_matches t) n m remaining = Some p).
  { apply (pick_found t n Harray (mkCursor m ix remaining) p Hinv);
      [done|by split]. }
  rewrite IH; simpl.
  - by rewrite (round_robin_spec_emit t n m remaining p Hpick).
  - by apply cursor_invariant_emit.
  - destruct m; solve_measure.
Qed.

End round_robin_loop.

Section round_robin_spec.

Context (matches : Mode -> list bool) (n : nat).

Lemma pick_Some (m : Mode) (remaining : gset nat) (i : nat) :
  pick matches n m remaining = Some i ->
  pickable matches m remaining i /\ (i < n)%nat.
Proof.
  unfold pick. intros Hi%head_Some_elem_of.
  apply list_elem_of_filter in Hi as [Hp Hi]. apply elem_of_seq in Hi.
  split; [done|lia].
Qed.

Lemma pick_None (m : Mode) (remaining : gset nat) (i : nat) :
  pick matches n m remaining = None -> (i < n)%nat ->
  ~ pickable matches m remaining i.
Proof.
  unfold pick. intros Hnone Hi Hp.
  assert (i ∈ filter (pickable matches m remaining) (seq 0 n)) as Hin.
  { apply list_elem_of_filter. split; [done|]. apply elem_of_seq. lia. }
  destruct (filter _ _); [by apply elem_of_nil in Hin|done].
Qed.

Lemma first_pick_Some (m m' : Mode) (remaining : gset nat) (i : nat) :
  first_pick matches n m remaining = Some (i, m') ->
  pickable matches m' remaining i /\ (i < n)%nat.
Proof.
  unfold first_pick.
  destruct (pick matches n m remaining) eqn:H1.
  { intros [= <- <-]. by apply pick_Some. }
  destruct (pick matches n (next_mode m) remaining) eqn:H2.
  { intros [= <- <-]. by apply pick_Some. }
  destruct (pick matches n (next_mode (next_mode m)) remaining) eqn:H3;
    [|done].
  intros [= <- <-]. by apply pick_Some.
Qed.

Lemma first_pick_None (m m' : Mode) (remaining : gset nat) (i : nat) :
  first_pick matches n m remaining = None -> (i < n)%nat ->
  ~ pickable matches m' remaining i.
Proof.
  unfold first_pick.
  destruct (pick matches n m remaining) eqn:H1; [done|].
  destruct (pick matches n (next_mode m) remaining) eqn:H2; [done|].
  destruct (pick matches n (next_mode (next_mode m)) remaining) eqn:H3;
    [done|].
  intros _ Hi.
  destruct m, m'; simpl in *; by eapply pick_None.
Qed.

Lemma round_robin_spec_elem (k : nat) (m : Mode) (remaining : gset nat)
    (i : nat) :
  i ∈ round_robin_spec k matches n m remaining ->
  i ∈ remaining /\ (i < n)%nat /\ exists m', matches m' !!! i = true.
Proof.
  revert m remaining. induction k as [|k IH]; intros m remaining; simpl.
  - by intros ?%elem_of_nil.
  - destruct (first_pick matches n m remaining) as [[j m']|] eqn:Hfp;
      [|by intros ?%elem_of_nil].
    apply first_pick_Some in Hfp as [[Hj Hm] Hlt].
    intros [->|Hi]%elem_of_cons; [by eauto|].
    apply IH in Hi as (Hi & ? & ?).
    apply elem_of_difference in Hi as [Hi _]. by eauto.
Qed.

Lemma round_robin_spec_NoDup (k : nat) (m : Mode) (remaining : gset nat) :
  NoDup (round_robin_spec k matches n m remaining).
Proof.
  revert m remaining. induction k as [|k IH]; intros m remaining; simpl.
  - constructor.
  - destruct (first_pick matches n m remaining) as [[j m']|];
      [|constructor].
    apply NoDup_cons. split; [|apply IH].
    intros (Hj & _)%round_robin_spec_elem.
    apply elem_of_difference in Hj as [_ Hj]. by apply Hj, elem_of_singleton.
Qed.

Lemma round_robin_spec_complete (k : nat) (m m' : Mode)
    (remaining : gset nat) (i : nat) :
  (size remaining <= k)%nat ->
  pickable matches m' remaining i -> (i < n)%nat ->
  i ∈ round_robin_spec k matches n m remaining.
Proof.
  revert m remaining. induction k as [|k IH]; intros m remaining Hk Hp Hi.
  - exfalso. destruct Hp as [Hin _].
    assert (size remaining ≠ 0)%nat; [|lia].
    apply size_non_empty_iff. intros Hempty.
    apply (not_elem_of_empty (C:=gset nat) i). by apply Hempty.
  - simpl.
    destruct (first_pick matches n m remaining) as [[j m'']|] eqn:Hfp.
    + destruct (decide (i = j)) as [->|Hne]; [left|right].
      apply first_pick_Some in Hfp as [[Hj _] _].
      apply IH; [|split; [|apply Hp]|done].
      * rewrite size_difference by (by apply singleton_subseteq_l).
        rewrite size_singleton. lia.
      * apply elem_of_difference. split; [apply Hp|].
        by intros ?%elem_of_singleton.
    + exfalso. by eapply first_pick_None.
Qed.

End round_robin_spec.

(** A match flag is set exactly when the option has a word of the
    vocabulary that is also a word of the query. *)
Lemma matches_word_true (vocabulary query : list string)
    (dw : DescriptionOption) :
  matches_word vocabulary query dw = true
  <-> exists w, w ∈ dw.1 /\ w ∈ vocabulary /\ w ∈ query.
Proof.
  unfold matches_word. rewrite existsb_exists. split.
  - intros (w & Hw & Hq). apply list_elem_of_In in Hw.
    apply list_elem_of_filter in Hw as [Hv Hw].
    apply py_in_true in Hq. eauto.
  - intros (w & Hw & Hv & Hq). exists w. split.
    + apply list_elem_of_In, list_elem_of_filter. by split.
    + by apply py_in_true.
Qed.

Lemma option_matches_true (options : list DescriptionOption)
    (query vocabulary_colors vocabulary_nouns : list string)
    (m : Mode) (i : nat) :
  (i < length options)%nat ->
  option_matches
    (match_tables options query vocabulary_colors vocabulary_nouns) m !!! i
  = true
  <-> exists dw w,
        options !! i = Some dw /\ w ∈ dw.1 /\ w ∈ query
        /\ w ∈ match m with
               | ModeColor => vocabulary_colors
               | ModeObject => vocabulary_nouns
               | ModeSize => size_words
               end.
Proof.
  intros Hi. simpl. rewrite list_lookup_total_alt, list_lookup_fmap.
  destruct (lookup_lt_is_Some_2 options i Hi) as [dw Hdw].
  rewrite Hdw. simpl. rewrite matches_word_true. split.
  - intros (w & ? & ? & ?). by exists dw, w.
  - intros (dw' & w & Hdw' & ? & ? & ?).
    pose proof (eq_trans (eq_sym Hdw) Hdw') as Heq.
    injection Heq as <-. by exists w.
Qed.

Lemma omap_lookup_Forall2 {A : Type} (l : list A) (idxs : list nat) :
  (forall i, i ∈ idxs -> (i < length l)%nat) ->
  Forall2 (fun i x => l !! i = Some x) idxs (omap (fun i => l !! i) idxs).
Proof.
  induction idxs as [|i idxs IH]; intros Hlt; [constructor|]. csimpl.
  destruct (lookup_lt_is_Some_2 l i) as [x Hx]; [apply Hlt; left|].
  rewrite Hx. csimpl. constructor; [done|].
  apply IH. intros; apply Hlt; by right.
Qed.

(** The generator ends within its fuel and yields the specified order. *)
Lemma sorted_option_indices_spec (options : list DescriptionOption)
    (query vocabulary_colors vocabulary_nouns : list string) :
  round_robin_loop (round_robin_fuel (length options))
    (match_tables options query vocabulary_colors vocabulary_nouns)
    (initial_cursor (length options))
  = Some (round_robin_spec (length options)
            (option_matches
               (match_tables options query vocabulary_colors
                  vocabulary_nouns))
            (length options) ModeColor
            (list_to_set (seq 0 (length options)))).
Proof.
  set (n := length options).
  set (t := match_tables options query vocabulary_colors vocabulary_nouns).
  rewrite (round_robin_loop_refines t n).
  - simpl. rewrite size_list_to_set by apply NoDup_seq.
    by rewrite length_seq.
  - done.
  - intros m j p Hj. simpl in Hj. lia.
  - unfold round_robin_fuel. solve_measure.
Qed.

(** C3.  The generator yields the options in the round-robin order of the
    specification: starting in mode color, each emission is the first
    option in list order that was not emitted before and matches the
    criterion of the current mode (a color, a noun or a size word shared
    with the query), a mode with no such option passes its turn, and after
    an emission the turn goes to the next mode of the cycle color, object,
    size.  Every option that matches one of the three criteria is yielded
    exactly once, and no other option is yielded. *)
Theorem sort_description_words_round_robin
    (options : list DescriptionOption)
    (query vocabulary_colors vocabulary_nouns : list string) :
  let n := length options in
  let matches :=
    option_matches
      (match_tables options query vocabulary_colors vocabulary_nouns) in
  let yielded :=
    sorted_option_indices options query vocabulary_colors vocabulary_nouns in
  yielded
  = round_robin_spec n matches n ModeColor (list_to_set (seq 0 n))
  /\ Forall2 (fun i dw => options !! i = Some dw) yielded
       (sort_description_words_by_query_match options query
          vocabulary_colors vocabulary_nouns)
  /\ NoDup yielded
  /\ forall i,
       i ∈ yielded <->
       exists dw w,
         options !! i = Some dw /\ w ∈ dw.1 /\ w ∈ query
         /\ (w ∈ vocabulary_colors \/ w ∈ vocabulary_nouns
             \/ w ∈ size_words).
Proof.
  intros n matches yielded.
  assert (Hy : yielded
               = round_robin_spec n matches n ModeColor
                   (list_to_set (seq 0 n))).
  { subst yielded. unfold sorted_option_indices.
    by rewrite sorted_option_indices_spec. }
  split; [done|]. split; [|split].
  - unfold sort_description_words_by_query_match. fold yielded.
    apply omap_lookup_Forall2. intros i Hi. rewrite Hy in Hi.
    by apply round_robin_spec_elem in Hi as (_ & ? & _).
  - rewrite Hy. apply round_robin_spec_NoDup.
  - intros i. rewrite Hy. split.
    + intros (_ & Hi & m & Hm)%round_robin_spec_elem.
      apply option_matches_true in Hm as (dw & w & ? & ? & ? & Hv);
        [|done].
      exists dw, w. repeat (split; [done|]). destruct m; tauto.
    + intros (dw & w & Hdw & Hw & Hq & Hv).
      assert (i < n)%nat by (by eapply lookup_lt_Some).
      assert (exists m, matches m !!! i = true) as [m Hm].
      { destruct Hv as [Hv|[Hv|Hv]];
          [exists ModeColor|exists ModeObject|exists ModeSize];
          (apply option_matches_true; [done|]); by exists dw, w. }
      apply (round_robin_spec_complete matches n n ModeColor m);
        [|split; [|done]|done].
      * rewrite size_list_to_set by apply NoDup_seq.
        by rewrite length_seq.
      * apply elem_of_list_to_set, elem_of_seq. lia.
Qed.


(** ** SituationCodec round trip (C2) *)

Lemma word2idx_snoc (words : list string) (w : string) :
  word2idx (words ++ [w])
  = <[w := Z.of_nat (length words) + 1]> (word2idx words).
Proof. unfold word2idx. by rewrite enumerate_snoc, foldl_snoc. Qed.

Lemma word2idx_lookup (words : list string) (w : string) :
  w ∈ words ->
  exists i : nat,
    word2idx words !! w = Some (Z.of_nat i + 1) /\ words !! i = Some w.
Proof.
  induction words as [|w' words IH] using rev_ind.
  - by intros ?%elem_of_nil.
  - intros Hw. rewrite word2idx_snoc.
    destruct (decide (w' = w)) as [->|Hne].
    + exists (length words). rewrite lookup_insert_eq. split; [done|].
      rewrite lookup_app_r by done. by rewrite Nat.sub_diag.
    + rewrite lookup_insert_ne by done.
      apply elem_of_app in Hw as [Hw|Hw%list_elem_of_singleton];
        [|congruence].
      destruct (IH Hw) as (i & Hi & Hl). exists i. split; [done|].
      rewrite lookup_app_l; [done|]. by eapply lookup_lt_Some.
Qed.

(** The index of a word of the table is at least 1 and is read back as the
    word. *)
Lemma dict_get_word2idx (words : list string) (w : string) :
  w ∈ words ->
  exists z, dict_get (word2idx words) w = Ok z
            /\ z ≠ 0 /\ idx2word words z = w.
Proof.
  intros (i & Hi & Hl)%word2idx_lookup.
  exists (Z.of_nat i + 1). unfold dict_get, idx2word. rewrite Hi.
  split; [done|]. split; [lia|].
  replace (Z.to_nat (Z.of_nat i + 1 - 1)) with i by lia. by rewrite Hl.
Qed.

Lemma sequence_object_row_decode (reascan_boxes : bool)
    (colors nouns : list string) (o : PositionedObject) :
  in_vocabulary reascan_boxes colors nouns o ->
  exists r,
    sequence_object_row reascan_boxes (word2idx colors) (word2idx nouns) o
    = Ok r
    /\ decode_sequence_row reascan_boxes colors nouns r = mkDecoded [] [o].
Proof.
  intros [Hc Hs]. unfold sequence_object_row.
  destruct (dict_get_word2idx colors _ Hc) as (c & -> & Hc0 & Hcw).
  destruct o as [[sz co sh] [cl rw]]. simpl in *.
  destruct reascan_boxes; simpl in *.
  - destruct (is_box _) eqn:Hbox; simpl.
    + eexists. split; [done|].
      unfold decode_sequence_row, slot. simpl.
      unfold is_box in Hbox. simpl in Hbox. apply String.eqb_eq in Hbox.
      by rewrite Hcw, Hbox.
    + destruct Hs as [?|Hs]; [done|].
      destruct (dict_get_word2idx nouns _ Hs) as (n & -> & Hn0 & Hnw).
      eexists. split; [done|].
      unfold decode_sequence_row, slot. simpl. by rewrite Hcw, Hnw.
  - destruct Hs as [?|Hs]; [done|].
    destruct (dict_get_word2idx nouns _ Hs) as (n & -> & Hn0 & Hnw).
    eexists. split; [done|].
    unfold decode_sequence_row, slot. simpl. by rewrite Hcw, Hnw.
Qed.

Lemma sequence_rows_decode (reascan_boxes : bool)
    (colors nouns : list string) (objs : list PositionedObject) :
  Forall (in_vocabulary reascan_boxes colors nouns) objs ->
  exists rows,
    mapM (sequence_object_row reascan_boxes (word2idx colors)
            (word2idx nouns)) objs = Ok rows
    /\ decode_sequence reascan_boxes colors nouns rows = mkDecoded [] objs.
Proof.
  induction 1 as [|o objs Ho Hobjs (rows & Hrows & Hdec)].
  - by exists [].
  - destruct (sequence_object_row_decode _ _ _ _ Ho) as (r & Hr & Hd).
    exists (r :: rows). simpl. rewrite Hr. simpl. rewrite Hrows. simpl.
    split; [done|]. unfold decode_sequence in *. simpl.
    by rewrite Hd, Hdec.
Qed.

(** The "sequence" scheme round trip. *)
Lemma sequence_round_trip (s : Situation) (grid_size : Z)
    (reascan_boxes : bool) (colors nouns : list string) :
  Forall (in_vocabulary reascan_boxes colors nouns) (placed_objects s) ->
  exists rows,
    parse_sparse_situation s grid_size (word2idx colors) (word2idx nouns)
      SchemeSequence reascan_boxes = Ok rows
    /\ decode_sequence reascan_boxes colors nouns rows
       = mkDecoded [(agent_pos s, agent_direction s)] (placed_objects s).
Proof.
  intros Hv. destruct (sequence_rows_decode _ _ _ _ Hv) as (rows & Hr & Hd).
  unfold parse_sparse_situation. rewrite Hr. simpl.
  eexists. split; [done|].
  unfold decode_sequence in *. simpl. rewrite Hd.
  destruct s as [g [ac ar] d tgt objs]. by destruct reascan_boxes.
Qed.

Section all_scheme.

Context (grid_size : Z) (colors nouns : list string).

Lemma cell_index_inside (p : Position) :
  inside_grid grid_size p ->
  cell_index grid_size (row p) (column p) = Ok (cell_of grid_size p).
Proof.
  intros [Hr Hc]. unfold cell_index, np_index, cell_of.
  replace ((0 <=? row p) && (row p <? grid_size)) with true by lia.
  replace ((0 <=? column p) && (column p <? grid_size)) with true by lia.
  done.
Qed.

Lemma cell_of_lt (p : Position) :
  inside_grid grid_size p ->
  (cell_of grid_size p < Z.to_nat grid_size * Z.to_nat grid_size)%nat.
Proof. intros [Hr Hc]. unfold cell_of. nia. Qed.

Lemma cell_of_div (p : Position) :
  inside_grid grid_size p ->
  Z.of_nat (cell_of grid_size p / Z.to_nat grid_size) = row p.
Proof.
  intros [Hr Hc]. unfold cell_of.
  rewrite Nat.div_add_l by lia.
  rewrite Nat.div_small by lia. lia.
Qed.

Lemma cell_of_mod (p : Position) :
  inside_grid grid_size p ->
  Z.of_nat (cell_of grid_size p mod Z.to_nat grid_size) = column p.
Proof.
  intros [Hr Hc]. unfold cell_of.
  rewrite Nat.add_comm, Nat.Div0.mod_add.
  rewrite Nat.mod_small by lia. lia.
Qed.

Lemma cell_of_inj (p q : Position) :
  inside_grid grid_size p -> inside_grid grid_size q ->
  cell_of grid_size p = cell_of grid_size q -> p = q.
Proof.
  intros Hp Hq Heq.
  pose proof (cell_of_div p Hp) as Hd. pose proof (cell_of_mod p Hp) as Hm.
  rewrite Heq in Hd, Hm.
  rewrite (cell_of_div q Hq) in Hd. rewrite (cell_of_mod q Hq) in Hm.
  destruct p, q. simpl in *. congruence.
Qed.

(** One object placed: its cell receives the three writes. *)
Lemma all_place_object_inside (grid : list (list Z)) (o : PositionedObject) :
  inside_grid grid_size (position o) ->
  in_vocabulary false colors nouns o ->
  all_place_object false grid_size (word2idx colors) (word2idx nouns) grid o
  = Ok (alter (write_object colors nouns o)
              (cell_of grid_size (position o)) grid).
Proof.
  intros Hin [Hc [?|Hs]]; [done|].
  unfold all_place_object. rewrite cell_index_inside by done. simpl.
  destruct (word2idx_lookup colors _ Hc) as (i & Hi & _).
  destruct (word2idx_lookup nouns _ Hs) as (j & Hj & _).
  unfold dict_get, write_object, set_channel. rewrite Hi, Hj. simpl.
  f_equal. by rewrite !list_alter_alter_eq.
Qed.

Lemma all_place_objects_inside (grid : list (list Z))
    (objs : list PositionedObject) :
  Forall (fun o => inside_grid grid_size (position o)) objs ->
  Forall (in_vocabulary false colors nouns) objs ->
  foldlM (all_place_object false grid_size (word2idx colors)
            (word2idx nouns)) grid objs
  = Ok (foldl (fun g o =>
                 alter (write_object colors nouns o)
                       (cell_of grid_size (position o)) g)
              grid objs).
Proof.
  intros Hin Hv. revert grid.
  induction objs as [|o objs IH]; intros grid; [done|].
  apply Forall_cons in Hin as [Ho Hin]. apply Forall_cons in Hv as [Hvo Hv].
  simpl. rewrite all_place_object_inside by done. simpl. by apply IH.
Qed.

(** The cell [k] after all objects are placed, no two on one cell. *)
Lemma placed_cell (grid : list (list Z)) (objs : list PositionedObject)
    (k : nat) :
  NoDup (cell_of grid_size ∘ position <$> objs) ->
  foldl (fun g o =>
           alter (write_object colors nouns o)
                 (cell_of grid_size (position o)) g)
        grid objs !! k
  = match object_at grid_size objs k with
    | Some o => write_object colors nouns o <$> grid !! k
    | None => grid !! k
    end.
Proof.
  revert grid. induction objs as [|o objs IH]; intros grid Hnd; [done|].
  rewrite fmap_cons in Hnd. apply NoDup_cons in Hnd as [Ho Hnd].
  simpl. rewrite IH by done. unfold object_at. rewrite filter_cons.
  destruct (decide (cell_of grid_size (position o) = k)) as [<-|Hne].
  - simpl. rewrite filter_none.
    + simpl. by rewrite list_lookup_alter_eq.
    + intros o' Ho' Heq. apply Ho. apply list_elem_of_fmap.
      exists o'. by split.
  - by rewrite list_lookup_alter_ne.
Qed.

End all_scheme.

(** A family of lists over the cells that differs from another in one cell,
    where it has one element more. *)
Lemma bind_seq_extra {A : Type} (N k0 : nat) (f g : nat -> list A) (x : A) :
  (k0 < N)%nat ->
  (forall k, k ≠ k0 -> f k = g k) ->
  f k0 = x :: g k0 ->
  seq 0 N ≫= f ≡ₚ x :: (seq 0 N ≫= g).
Proof.
  intros Hk Hother Hat.
  replace N with (k0 + S (N - S k0))%nat by lia.
  rewrite seq_app. simpl seq. rewrite !bind_app, !bind_cons, Hat.
  rewrite (Forall_bind_ext f g (seq 0 k0)).
  2:{ apply Forall_forall. intros k Hin%elem_of_seq. apply Hother. lia. }
  rewrite (Forall_bind_ext f g (seq (S k0) (N - S k0))).
  2:{ apply Forall_forall. intros k Hin%elem_of_seq. apply Hother. lia. }
  simpl. by rewrite <- Permutation_middle.
Qed.

Lemma eq_reflexive_perm {A : Type} (l k : list A) : l = k -> l ≡ₚ k.
Proof. by intros ->. Qed.

Lemma bind_seq_empty {A : Type} (N : nat) :
  seq 0 N ≫= (fun _ => @nil A) = [].
Proof. induction (seq 0 N) as [|k l IH]; [done|]. by rewrite bind_cons, IH. Qed.

Lemma decode_all_agents (colors nouns : list string) (rows : list (list Z)) :
  agents (decode_all colors nouns rows)
  = rows ≫= (fun r => agents (decode_all_cell colors nouns r)).
Proof.
  induction rows as [|r rows IH]; [done|].
  rewrite bind_cons, <- IH. done.
Qed.

Lemma decode_all_objects (colors nouns : list string) (rows : list (list Z)) :
  objects (decode_all colors nouns rows)
  = rows ≫= (fun r => objects (decode_all_cell colors nouns r)).
Proof.
  induction rows as [|r rows IH]; [done|].
  rewrite bind_cons, <- IH. done.
Qed.

Section all_round_trip.

Context (grid_size : Z) (colors nouns : list string).
Context (objs : list PositionedObject).
Context (Hinside : Forall (fun o => inside_grid grid_size (position o)) objs).
Context (Hvocabulary : Forall (in_vocabulary false colors nouns) objs).
Context (Hapart : NoDup (cell_of grid_size ∘ position <$> objs)).

Lemma object_at_Some (k : nat) (o : PositionedObject) :
  object_at grid_size objs k = Some o ->
  o ∈ objs /\ cell_of grid_size (position o) = k.
Proof.
  unfold object_at. intros Ho%head_Some_elem_of.
  by apply list_elem_of_filter in Ho as [? ?].
Qed.

Lemma object_at_cell (o : PositionedObject) :
  o ∈ objs -> object_at grid_size objs (cell_of grid_size (position o)) = Some o.
Proof.
  intros Ho. unfold object_at.
  destruct (head _) as [o'|] eqn:Hhead.
  - apply head_Some_elem_of, list_elem_of_filter in Hhead as [Heq Ho'].
    f_equal.
    apply (NoDup_fmap_1 (cell_of grid_size ∘ position)) in Hapart as Hnd.
    apply list_elem_of_lookup in Ho as [i Hi].
    apply list_elem_of_lookup in Ho' as [j Hj].
    assert (i = j) as ->; [|congruence].
    eapply (NoDup_lookup _ _ _ _ Hapart);
      rewrite list_lookup_fmap; [by rewrite Hi|by rewrite Hj; simpl; rewrite Heq].
  - exfalso. apply head_None in Hhead.
    assert (o ∈ filter (fun o' => cell_of grid_size (position o')
                                  = cell_of grid_size (position o)) objs)
      as Hin by (by apply list_elem_of_filter).
    rewrite Hhead in Hin. by apply elem_of_nil in Hin.
Qed.

(** The objects read off the cells are the placed objects. *)
Lemma cells_hold_objects :
  seq 0 (Z.to_nat grid_size * Z.to_nat grid_size)
    ≫= (fun k => option_list (object_at grid_size objs k))
  ≡ₚ objs.
Proof.
  clear Hvocabulary. unfold object_at.
  induction objs as [|o objs' IH].
  - simpl. by rewrite bind_seq_empty.
  - apply Forall_cons in Hinside as [Ho Hin].
    rewrite fmap_cons in Hapart. apply NoDup_cons in Hapart as [Hfresh Hnd].
    etrans; [|apply Permutation_skip, (IH Hin Hnd)].
    apply (bind_seq_extra _ (cell_of grid_size (position o))).
    + by apply cell_of_lt.
    + intros k Hk. by rewrite filter_cons, decide_False.
    + rewrite filter_cons, decide_True by done. simpl.
      rewrite filter_none; [done|].
      intros o' Ho' Heq. apply Hfresh, list_elem_of_fmap.
      exists o'. by split.
Qed.

End all_round_trip.

Section all_cells.

Context (grid_size : Z) (colors nouns : list string).

(** The row of cell [k], whose last two channels of the grid are [b3] and
    [b4], decodes to the agent when [b3] is set and to the object standing
    on the cell. *)
Lemma decode_all_cell_row (b3 b4 : Z) (k : nat)
    (standing : option PositionedObject) :
  (forall o, standing = Some o ->
             in_vocabulary false colors nouns o
             /\ inside_grid grid_size (position o)
             /\ cell_of grid_size (position o) = k) ->
  decode_all_cell colors nouns
    (match standing with
     | Some o => write_object colors nouns o [0; 0; 0; b3; b4]
     | None => [0; 0; 0; b3; b4]
     end
     ++ [Z.of_nat (k / Z.to_nat grid_size) + 1;
         Z.of_nat (k mod Z.to_nat grid_size) + 1])
  = mkDecoded
      (if bool_decide (b3 ≠ 0)
       then [(mkPosition (Z.of_nat (k mod Z.to_nat grid_size))
                         (Z.of_nat (k / Z.to_nat grid_size)), b4)]
       else [])
      (option_list standing).
Proof.
  intros Hstanding. destruct standing as [o|].
  - destruct (Hstanding o eq_refl) as ([Hc [?|Hs]] & Hin & Hk); [done|].
    destruct (word2idx_lookup colors _ Hc) as (i & Hi & Hil).
    destruct (word2idx_lookup nouns _ Hs) as (j & Hj & Hjl).
    unfold write_object. rewrite Hi, Hj. simpl.
    unfold decode_all_cell, slot. simpl.
    rewrite !Z.add_simpl_r.
    rewrite (bool_decide_eq_true_2 (Z.of_nat i + 1 ≠ 0)) by lia.
    unfold idx2word. rewrite !Z.add_simpl_r, !Nat2Z.id, Hil, Hjl. simpl.
    rewrite <- Hk, (cell_of_div grid_size _ Hin), (cell_of_mod grid_size _ Hin).
    by destruct o as [[sz co sh] [cl rw]].
  - unfold decode_all_cell, slot. simpl. by rewrite !Z.add_simpl_r.
Qed.

End all_cells.

(** The "all" scheme round trip, outside the container mode. *)
Lemma all_round_trip (s : Situation) (grid_size : Z)
    (colors nouns : list string) :
  inside_grid grid_size (agent_pos s) ->
  Forall (fun o => inside_grid grid_size (position o)) (placed_objects s) ->
  Forall (in_vocabulary false colors nouns) (placed_objects s) ->
  NoDup (cell_of grid_size ∘ position <$> placed_objects s) ->
  exists rows,
    parse_sparse_situation s grid_size (word2idx colors) (word2idx nouns)
      SchemeAll false = Ok rows
    /\ agents (decode_all colors nouns rows)
       = [(agent_pos s, agent_direction s)]
    /\ objects (decode_all colors nouns rows) ≡ₚ placed_objects s.
Proof.
  intros Hagent Hinside Hvocabulary Hapart.
  set (g := Z.to_nat grid_size).
  set (ka := cell_of grid_size (agent_pos s)).
  set (base := fun k : nat =>
                 if decide (k = ka) then [0; 0; 0; 1; agent_direction s]
                 else [0; 0; 0; 0; 0]).
  set (F := fun k : nat =>
              match object_at grid_size (placed_objects s) k with
              | Some o => write_object colors nouns o (base k)
              | None => base k
              end
              ++ [Z.of_nat (k / g) + 1; Z.of_nat (k mod g) + 1]).
  assert (Hka : (ka < g * g)%nat) by (by apply cell_of_lt).
  assert (Hcell : forall k,
            decode_all_cell colors nouns (F k)
            = mkDecoded
                (if decide (k = ka)
                 then [(agent_pos s, agent_direction s)] else [])
                (option_list (object_at grid_size (placed_objects s) k))).
  { intros k.
    assert (forall o,
              object_at grid_size (placed_objects s) k = Some o ->
              in_vocabulary false colors nouns o
              /\ inside_grid grid_size (position o)
              /\ cell_of grid_size (position o) = k) as Hstanding.
    { intros o [Ho Hk]%object_at_Some.
      rewrite Forall_forall in Hinside, Hvocabulary. auto. }
    subst F base. simpl. unfold g. destruct (decide (k = ka)) as [->|Hne].
    - rewrite (decode_all_cell_row grid_size colors nouns 1
                 (agent_direction s) ka _ Hstanding).
      rewrite bool_decide_eq_true_2 by done. unfold ka.
      rewrite (cell_of_div grid_size _ Hagent),
        (cell_of_mod grid_size _ Hagent).
      by destruct (agent_pos s).
    - rewrite (decode_all_cell_row grid_size colors nouns 0 0 k _
                 Hstanding).
      by rewrite bool_decide_eq_false_2 by (intros H; by apply H). }
  exists (F <$> seq 0 (g * g)).
  split; [|split].
  - unfold parse_sparse_situation.
    replace (grid_size <? 0) with false by (destruct Hagent; lia).
    rewrite cell_index_inside by done. simpl.
    rewrite (all_place_objects_inside grid_size colors nouns) by done.
    simpl. f_equal. apply list_eq. intros k.
    unfold add_positional_information_to_grid.
    rewrite list_lookup_imap, (placed_cell grid_size colors nouns) by done.
    rewrite list_lookup_fmap. fold g. fold ka.
    destruct (decide (k < g * g)%nat) as [Hk|Hk].
    + rewrite lookup_seq_lt by done. simpl.
      assert (<[ka:=[0; 0; 0; 1; agent_direction s]]>
                (replicate (g * g) [0; 0; 0; 0; 0]) !! k = Some (base k))
        as Hbase.
      { subst base. simpl. destruct (decide (k = ka)) as [->|Hne].
        - rewrite list_lookup_insert_eq; [done|].
          by rewrite length_replicate.
        - rewrite list_lookup_insert_ne by done.
          by rewrite lookup_replicate_2. }
      rewrite Hbase. subst F. simpl.
      by destruct (object_at grid_size (placed_objects s) k).
    + rewrite lookup_seq_ge by lia. simpl.
      assert (<[ka:=[0; 0; 0; 1; agent_direction s]]>
                (replicate (g * g) [0; 0; 0; 0; 0]) !! k = None) as Hnone.
      { apply lookup_ge_None.
        rewrite length_insert, length_replicate. lia. }
      rewrite Hnone.
      by destruct (object_at grid_size (placed_objects s) k).
  - rewrite decode_all_agents, list_fmap_bind.
    apply Permutation_singleton_r.
    transitivity ((agent_pos s, agent_direction s)
                  :: (seq 0 (g * g) ≫= (fun _ => @nil (Position * Z))));
      [|by rewrite bind_seq_empty].
    apply (bind_seq_extra _ ka); [done| |].
    + intros k Hk. unfold compose. rewrite Hcell. simpl.
      by rewrite decide_False.
    + unfold compose. rewrite Hcell. simpl. by rewrite decide_True.
  - rewrite decode_all_objects, list_fmap_bind.
    etrans; [|apply (cells_hold_objects grid_size (placed_objects s)
                       Hinside Hapart)].
    fold g. apply eq_reflexive_perm.
    apply Forall_bind_ext, Forall_forall. intros k _.
    unfold compose. by rewrite Hcell.
Qed.




(** In the container mode of the "all" scheme the agent's two channels are
    the last two of eight, which are also the color and the flag of a box:
    a box on the agent's cell overwrites the agent flag with its color index
    and the direction with 1. *)
Lemma all_scheme_box_hides_agent :
  exists rows,
    parse_sparse_situation Examples.agent_in_box 6
      (word2idx Examples.colors) (word2idx Examples.nouns) SchemeAll true
    = Ok rows
    /\ rows !! 0%nat = Some [0; 0; 0; 0; 0; 2; 2; 1; 1; 1].
Proof. eexists. split; vm_compute; reflexivity. Qed.

(** ** Waivers of the prohibition rules *)

Lemma head_filter_cons {A : Type} (P : A -> Prop) `{forall x, Decision (P x)}
    (x : A) (l : list A) :
  head (filter P (x :: l)) = if decide (P x) then Some x else head (filter P l).
Proof. rewrite filter_cons. by destruct (decide (P x)). Qed.

Section waivers.

Context (agent : Position) (t : PositionedObject) (words : list string).

Lemma rule_holds_B : rule_holds agent t words "B" <-> Rules.B words.
Proof. unfold rule_holds. intuition discriminate. Qed.

Lemma rule_holds_C : rule_holds agent t words "C" <-> Rules.C t.
Proof. unfold rule_holds. intuition discriminate. Qed.

Lemma rule_holds_D : rule_holds agent t words "D" <-> Rules.D agent t.
Proof. unfold rule_holds. intuition discriminate. Qed.

Lemma rule_holds_E : rule_holds agent t words "E" <-> Rules.E words t.
Proof. unfold rule_holds. intuition discriminate. Qed.

Lemma rule_holds_F : rule_holds agent t words "F" <-> Rules.F words t.
Proof. unfold rule_holds. intuition discriminate. Qed.

Lemma waived_test (b : bool) (P : Prop) (letter : string)
    (waived : list string) :
  (b = true <-> P) ->
  b && negb (py_in letter waived) = true <-> (letter ∉ waived) /\ P.
Proof.
  intros Hb. rewrite andb_true_iff, negb_true_iff, py_in_false. tauto.
Qed.

Lemma is_prohibited_description_head (waivers : option (list string)) :
  is_prohibited_description agent t words waivers
  = head (filter (fun letter =>
                    (letter ∉ default [] waivers)
                    /\ rule_holds agent t words letter)
                 ["B"; "C"; "D"; "E"; "F"]).
Proof.
  unfold is_prohibited_description.
  set (waived := default [] waivers).
  pose proof (waived_test _ _ "B" waived (rule_B_reflect words)) as HB.
  pose proof (waived_test _ _ "C" waived (rule_C_reflect t)) as HC.
  pose proof (waived_test _ _ "D" waived (rule_D_reflect agent t)) as HD.
  pose proof (waived_test _ _ "E" waived (rule_E_reflect t words)) as HE.
  pose proof (waived_test _ _ "F" waived (rule_F_reflect t words)) as HF.
  rewrite <- rule_holds_B in HB. rewrite <- rule_holds_C in HC.
  rewrite <- rule_holds_D in HD. rewrite <- rule_holds_E in HE.
  rewrite <- rule_holds_F in HF.
  repeat (rewrite head_filter_cons;
          match goal with
          | |- (if ?b then _ else _) = _ =>
              destruct b;
              [ rewrite decide_True; [done|];
                first [ by apply HB | by apply HC | by apply HD
                      | by apply HE | by apply HF ]
              | rewrite decide_False;
                [| intros Hc;
                   first [ apply HB in Hc | apply HC in Hc | apply HD in Hc
                         | apply HE in Hc | apply HF in Hc ];
                   discriminate ] ]
          end).
  done.
Qed.

End waivers.

(** X1.  Whatever the waiver set, [is_prohibited_description] returns the
    first letter, in the order B, C, D, E, F, that is not waived and whose
    rule holds of the description words, the target and the agent position,
    and [None] when there is no such letter: a waived letter is never
    returned, and waiving a letter lets the later rules be tested. *)
Theorem is_prohibited_description_first_unwaived
    (agent : Position) (t : PositionedObject) (words : list string)
    (waivers : option (list string)) :
  is_prohibited_description agent t words waivers
  = head (filter (fun letter =>
                    (letter ∉ default [] waivers)
                    /\ rule_holds agent t words letter)
                 ["B"; "C"; "D"; "E"; "F"]).
Proof. apply is_prohibited_description_head. Qed.

(** X2.  The waiver sets of [SPLITS_ALLOW_ORACLE_DEMONSTRATIONS] leave at
    most one rule in force per evaluation split, the rule of the split
    itself: with the waiver set of a split other than "train", a description
    can only be refused for B in "visual_easier", C in "visual", D in
    "situational_1", E in "situational_2" and F in "contextual", and is never
    refused in "test", "adverb_1" and "adverb_2".  A split that the table
    does not list has no waiver, like "train". *)
Theorem split_waivers_leave_own_rule (current_split letter : string)
    (waived : list string)
    (agent : Position) (t : PositionedObject) (words : list string) :
  SPLITS_ALLOW_ORACLE_DEMONSTRATIONS !! current_split = Some waived ->
  current_split ≠ "train" ->
  is_prohibited_description agent t words
    (Some (allowed_demonstration_splits current_split)) = Some letter ->
  (current_split, letter)
    ∈ [("visual_easier", "B"); ("visual", "C"); ("situational_1", "D");
       ("situational_2", "E"); ("contextual", "F")].
Proof.
  intros Hsplit Htrain Hletter.
  unfold allowed_demonstration_splits in Hletter.
  rewrite Hsplit in Hletter. simpl in Hletter.
  rewrite is_prohibited_description_head in Hletter. simpl in Hletter.
  apply head_Some_elem_of, list_elem_of_filter in Hletter
    as [[Hwaived _] Hletter].
  apply elem_of_list_to_map_2 in Hsplit.
  repeat (apply elem_of_cons in Hsplit as [[= -> ->]|Hsplit]; [|]);
    try (by apply elem_of_nil in Hsplit);
    try (by destruct Htrain);
    repeat (apply elem_of_cons in Hletter as [->|Hletter];
            [first [ by exfalso; apply Hwaived;
                        apply (proj1 (py_in_true _ _)); vm_compute
                   | apply (proj1 (py_in_true _ _)); by vm_compute ]|]);
    by apply elem_of_nil in Hletter.
Qed.

Lemma split_waivers_leave_own_rule_witness :
  SPLITS_ALLOW_ORACLE_DEMONSTRATIONS !! "situational_1"
  = Some ["A"; "B"; "C"; "E"; "F"; "G"; "H"]
  /\ is_prohibited_description (mkPosition 3 0)
       (mkPositioned (mkObject 2 "red" "square") (mkPosition 1 2))
       ["red"; "square"]
       (Some (allowed_demonstration_splits "situational_1")) = Some "D"
  /\ ("situational_1", "D")
     ∈ [("visual_easier", "B"); ("visual", "C"); ("situational_1", "D");
        ("situational_2", "E"); ("contextual", "F")].
Proof.
  split; [by vm_compute|]. split; [by vm_compute|].
  apply (split_waivers_leave_own_rule "situational_1" "D"
           ["A"; "B"; "C"; "E"; "F"; "G"; "H"] (mkPosition 3 0)
           (mkPositioned (mkObject 2 "red" "square") (mkPosition 1 2))
           ["red"; "square"]); by vm_compute.
Defined.

(** ** What the oracle proposes *)

(** An option kept by the round-robin ordering shares a color, a noun or a
    size word with the query. *)
Lemma sorted_option_shares_word (options : list DescriptionOption)
    (query vocabulary_colors vocabulary_nouns : list string)
    (dw : DescriptionOption) :
  dw ∈ sort_description_words_by_query_match options query vocabulary_colors
         vocabulary_nouns ->
  dw ∈ options
  /\ exists w, w ∈ dw.1 /\ w ∈ query
               /\ (w ∈ vocabulary_colors \/ w ∈ vocabulary_nouns
                   \/ w ∈ size_words).
Proof.
  intros Hin. split.
  { by eapply sort_description_words_by_query_match_subseteq. }
  apply list_elem_of_omap in Hin as (i & Hi & Hdw).
  unfold sorted_option_indices in Hi.
  rewrite sorted_option_indices_spec in Hi. simpl in Hi.
  apply round_robin_spec_elem in Hi as (_ & Hlt & m & Hm).
  apply option_matches_true in Hm as (dw' & w & Hdw' & ? & ? & Hv); [|done].
  pose proof (eq_trans (eq_sym Hdw') Hdw) as Heq. injection Heq as ->.
  exists w. repeat (split; [done|]). destruct m; tauto.
Qed.

(** The verb and adverb combinations come from the two option tables. *)
Lemma adverb_verb_combos_product (o : OracleOptions)
    (query_instruction : list string) (sg : Segmented)
    (combo : list string * list string) :
  combo ∈ adverb_verb_combos o query_instruction sg ->
  combo.1 ∈ ALL_ACTION_OPTIONS
  /\ combo.2 ∈ real_adverb_options query_instruction.
Proof.
  unfold adverb_verb_combos, generate_limited_adverb_verb_combos.
  intros Hin.
  assert (combo ∈ product ALL_ACTION_OPTIONS
                    (real_adverb_options query_instruction)) as Hp.
  { destruct (limit_verb_adverb o); [|done].
    by apply list_elem_of_filter in Hin as [_ Hin]. }
  unfold product in Hp.
  apply list_elem_of_bind in Hp as (v & Hp & Hv).
  apply list_elem_of_bind in Hp as (a & Hp & Ha).
  apply list_elem_of_singleton in Hp as ->. done.
Qed.

(** The candidate options are the target's own or alternatives that
    passed the filter. *)
Lemma description_words_options_cases (o : OracleOptions) (s : Situation)
    (sg : Segmented) (vocabulary_colors vocabulary_nouns : list string)
    (dw : DescriptionOption) :
  dw ∈ description_words_options o s sg vocabulary_colors vocabulary_nouns ->
  dw = (description_words sg, target_object s)
  \/ dw ∈ filtered_sorted_other_description_words o s sg vocabulary_colors
            vocabulary_nouns.
Proof.
  unfold description_words_options. intros Hin.
  apply py_slice_to_subseteq in Hin.
  apply elem_of_app in Hin as [Hin|Hin]; [left|by right].
  unfold target_description_words in Hin.
  assert (dw ∈ take 1 (generate_description_words_options s
                         (description_words sg))) as Ht.
  { repeat (destruct (_ : bool); try done);
      by apply elem_of_nil in Hin. }
  unfold generate_description_words_options in Ht. simpl in Ht.
  rewrite take_0 in Ht. by apply list_elem_of_singleton in Ht.
Qed.

Lemma support_instructions_elem (o : OracleOptions)
    (query_instruction : list string) (sg : Segmented)
    (options : list DescriptionOption)
    (combos : list (list string * list string))
    (ins : list string) (tgt : PositionedObject) :
  (ins, tgt) ∈ support_instructions o query_instruction sg options combos <->
  exists dw combo,
    dw ∈ options /\ combo ∈ combos
    /\ (allow_any_example o = true
        \/ is_prohibited_action_adverb_combo combo.1 combo.2 = None)
    /\ ins = combo.1 ++ article_words sg ++ dw.1 ++ combo.2
    /\ tgt = dw.2
    /\ ins ≠ query_instruction.
Proof.
  unfold support_instructions. rewrite list_elem_of_bind. split.
  - intros (dw & Hin & Hdw). apply list_elem_of_bind in Hin as (combo & Hin & Hc).
    exists dw, combo. split; [done|]. split; [done|].
    destruct (is_prohibited_action_adverb_combo combo.1 combo.2) eqn:Hp;
      destruct (allow_any_example o); simpl in Hin;
      try (by apply elem_of_nil in Hin);
      (case_bool_decide as Hq; [by apply elem_of_nil in Hin|]);
      apply list_elem_of_singleton in Hin; injection Hin as -> ->;
      (split; [by (left + right)|]); done.
  - intros (dw & combo & Hdw & Hc & Hallow & -> & -> & Hq).
    exists dw. split; [|done]. apply list_elem_of_bind. exists combo.
    split; [|done].
    assert (bool_decide
              (is_Some (is_prohibited_action_adverb_combo combo.1 combo.2))
            && negb (allow_any_example o) = false) as ->.
    { destruct Hallow as [->| ->]; [by rewrite andb_false_r|].
      rewrite bool_decide_eq_false_2; [done|]. by intros [? ?]. }
    simpl. rewrite bool_decide_eq_false_2 by done. by left.
Qed.

(** X3.  The anatomy of a support proposed by the oracle: its instruction is
    a verb of [ALL_ACTION_OPTIONS], the articles of the query, the words of
    one description option of the situation and an adverb, in this order;
    the adverb is one of [ALL_ADVERB_OPTIONS], or "cautiously" when the
    query itself contains it; the description option is paired with the
    support's target; and unless [allow_any_example] is set, "pull" never
    comes with "while spinning". *)
Theorem oracle_support_anatomy (permutation : nat -> list nat)
    (query_instruction : list string) (situation : Situation)
    (vocabulary_colors vocabulary_nouns : list string) (o : OracleOptions)
    (res : list (list string * PositionedObject))
    (support_instruction : list string) (target : PositionedObject) :
  generate_relevant_instructions_gscan_oracle permutation query_instruction
    situation vocabulary_colors vocabulary_nouns o = Ok res ->
  (support_instruction, target) ∈ res ->
  let sg :=
    segment_query query_instruction vocabulary_colors vocabulary_nouns in
  exists verb adverb words,
    support_instruction = verb ++ article_words sg ++ words ++ adverb
    /\ verb ∈ [["walk"; "to"]; ["push"]; ["pull"]]
    /\ (adverb ∈ [["while spinning"]; ["while zigzagging"]; ["hesitantly"];
                  []]
        \/ adverb = ["cautiously"] /\ "cautiously" ∈ query_instruction)
    /\ (words, target)
         ∈ generate_description_words_options situation
             (description_words sg)
    /\ (allow_any_example o = false ->
        (verb, adverb) ≠ (["pull"], ["while spinning"])).
Proof.
  intros Hres Hin sg. apply oracle_returns_supports in Hres.
  apply Hres in Hin. fold sg in Hin.
  apply support_instructions_elem
    in Hin as (dw & combo & Hdw & Hcombo & Hallow & -> & -> & _).
  exists combo.1, combo.2, dw.1.
  apply adverb_verb_combos_product in Hcombo as [Hverb Hadverb].
  split; [done|]. split; [done|]. split; [|split].
  - unfold real_adverb_options in Hadverb.
    destruct (py_in "cautiously" query_instruction) eqn:Hc; [|by left].
    apply elem_of_app in Hadverb as [?|Hadverb]; [by left|right].
    apply list_elem_of_singleton in Hadverb. split; [done|].
    by apply py_in_true.
  - destruct dw as [words tgt]. simpl.
    apply description_words_options_cases in Hdw as [[= -> ->]|Hdw].
    + unfold generate_description_words_options. left.
    + unfold filtered_sorted_other_description_words in Hdw.
      assert ((words, tgt)
                ∈ sort_description_words_by_query_match
                    (drop 1 (generate_description_words_options situation
                               (description_words sg)))
                    (description_words sg) vocabulary_colors
                    vocabulary_nouns) as Hs.
      { destruct (allow_any_example o); [done|].
        by apply list_elem_of_filter in Hdw as [_ Hdw]. }
      apply sort_description_words_by_query_match_subseteq in Hs.
      eapply subseteq_drop, Hs.
  - intros Hany [= Hv Ha]. destruct Hallow as [Hallow|Hallow]; [congruence|].
    rewrite Hv, Ha in Hallow. by vm_compute in Hallow.
Qed.

Lemma oracle_support_anatomy_witness :
  exists res,
    generate_relevant_instructions_gscan_oracle Examples.identity_permutation
      Examples.circle_query Examples.circle_world Examples.colors
      Examples.nouns Examples.default_options = Ok res
    /\ exists verb adverb words,
         ["walk"; "to"; "a"; "small"; "red"; "circle"; "while spinning"]
         = verb ++ ["a"] ++ words ++ adverb
         /\ verb ∈ [["walk"; "to"]; ["push"]; ["pull"]]
         /\ (adverb ∈ [["while spinning"]; ["while zigzagging"];
                       ["hesitantly"]; []]
             \/ adverb = ["cautiously"]
                /\ "cautiously" ∈ Examples.circle_query)
         /\ (words, target_object Examples.circle_world)
              ∈ generate_description_words_options Examples.circle_world
                  ["small"; "red"; "circle"]
         /\ (allow_any_example Examples.default_options = false ->
             (verb, adverb) ≠ (["pull"], ["while spinning"])).
Proof.
  eexists. split; [vm_compute; reflexivity|].
  eapply (oracle_support_anatomy Examples.identity_permutation
            Examples.circle_query Examples.circle_world Examples.colors
            Examples.nouns Examples.default_options).
  - vm_compute. reflexivity.
  - left.
Defined.

(** An alternative kept by the oracle: a placed object away from the
    target's cell, described by its size tag, color and shape, sharing a
    descriptor with the query and, unless any example is allowed, passing
    the prohibition rules under the waiver set. *)
Lemma filtered_other_spec (o : OracleOptions) (s : Situation)
    (sg : Segmented) (vocabulary_colors vocabulary_nouns : list string)
    (words : list string) (tgt : PositionedObject) :
  (words, tgt) ∈ filtered_sorted_other_description_words o s sg
                   vocabulary_colors vocabulary_nouns ->
  tgt ∈ placed_objects s
  /\ position tgt ≠ position (target_object s)
  /\ words
     = size_tag (object_types_max_sizes (placed_objects s))
         (object_types_min_sizes (placed_objects s)) tgt
       ++ [color (object tgt); shape (object tgt)]
  /\ (exists w, w ∈ words /\ w ∈ description_words sg)
  /\ (allow_any_example o = false ->
      is_prohibited_description (agent_pos s) tgt words
        (allow_demonstration_splits o) = None).
Proof.
  intros Hin.
  assert (position tgt ≠ position (target_object s)) as Hpos.
  { by apply filtered_others_elsewhere in Hin. }
  unfold filtered_sorted_other_description_words in Hin.
  assert ((words, tgt)
            ∈ sort_description_words_by_query_match
                (drop 1 (generate_description_words_options s
                           (description_words sg)))
                (description_words sg) vocabulary_colors vocabulary_nouns
          /\ (allow_any_example o = false ->
              is_prohibited_description (agent_pos s) tgt words
                (allow_demonstration_splits o) = None)) as [Hs Hp].
  { destruct (allow_any_example o); [done|].
    apply list_elem_of_filter in Hin as [Hp Hin]. done. }
  apply sorted_option_shares_word in Hs as [Hgen (w & Hw & Hq & _)].
  unfold generate_description_words_options in Hgen. simpl in Hgen.
  rewrite drop_0 in Hgen.
  apply list_elem_of_fmap in Hgen as (obj & [= -> ->] & Hobj).
  apply list_elem_of_filter in Hobj as [_ Hobj].
  split; [done|]. split; [done|]. split; [done|]. split; [|done].
  by exists w.
Qed.



(** The candidate options are never empty when at least one is asked
    for: without alternative the target's own option is kept. *)
Lemma description_words_options_nonempty (o : OracleOptions) (s : Situation)
    (sg : Segmented) (vocabulary_colors vocabulary_nouns : list string) :
  (n_description_options o = None
   \/ exists n, n_description_options o = Some n /\ 1 <= n) ->
  description_words_options o s sg vocabulary_colors vocabulary_nouns ≠ [].
Proof.
  intros Hn. unfold description_words_options.
  set (others := filtered_sorted_other_description_words _ _ _ _ _).
  assert (target_description_words o s sg others ++ others ≠ []) as Hne.
  { destruct others as [|dw others'] eqn:Ho.
    2: { intros Happ. apply app_eq_nil in Happ as [_ Happ]. done. }
    unfold target_description_words, generate_description_words_options.
    simpl. done. }
  destruct (target_description_words o s sg others ++ others)
    as [|dw l]; [done|].
  destruct Hn as [->|(n & -> & Hn)]; [done|].
  unfold py_slice_to. destruct (Z.leb_spec 0 n); [|lia].
  destruct (Z.to_nat n) eqn:Hz; [lia|]. done.
Qed.

(** Two combinations with the same adverb are always available, one that
    walks and one that pushes; neither is prohibited. *)
Lemma walk_and_push_combos (o : OracleOptions)
    (query_instruction : list string)
    (vocabulary_colors vocabulary_nouns : list string) :
  let sg :=
    segment_query query_instruction vocabulary_colors vocabulary_nouns in
  exists adverb,
    (["walk"; "to"], adverb) ∈ adverb_verb_combos o query_instruction sg
    /\ (["push"], adverb) ∈ adverb_verb_combos o query_instruction sg.
Proof.
  intros sg.
  assert (forall verb adverb,
            verb ∈ ALL_ACTION_OPTIONS ->
            adverb ∈ real_adverb_options query_instruction ->
            (verb, adverb) ∈ product ALL_ACTION_OPTIONS
                               (real_adverb_options query_instruction))
    as Hproduct.
  { intros verb adverb Hv Ha. unfold product.
    apply list_elem_of_bind. exists verb. split; [|done].
    apply list_elem_of_bind. exists adverb. split; [left|done]. }
  assert ([] ∈ real_adverb_options query_instruction) as Hnone.
  { unfold real_adverb_options.
    destruct (py_in _ _); [apply elem_of_app; left|];
      apply (proj1 (py_in_true _ _)); by vm_compute. }
  assert (["walk"; "to"] ∈ ALL_ACTION_OPTIONS) as Hwalk by left.
  assert (["push"] ∈ ALL_ACTION_OPTIONS) as Hpush by (right; left).
  unfold adverb_verb_combos.
  destruct (limit_verb_adverb o); [|exists []; by split; apply Hproduct].
  unfold generate_limited_adverb_verb_combos.
  destruct (adverb_words sg) as [|w ws] eqn:Hadv.
  { exists []. split; (apply list_elem_of_filter; split;
                        [|by apply Hproduct]); simpl; done. }
  assert (w ∈ vocabulary_adverbs /\ w ∈ query_instruction) as [Hw Hq].
  { assert (w ∈ adverb_words sg) as Hin by (rewrite Hadv; left).
    unfold sg, segment_query in Hin. simpl in Hin.
    by apply list_elem_of_filter in Hin. }
  assert ([w] ∈ real_adverb_options query_instruction) as Hopt.
  { unfold real_adverb_options.
    destruct (decide (w = "cautiously")) as [->|Hne].
    - rewrite (proj2 (py_in_true _ _) Hq). apply elem_of_app. right. left.
    - assert ([w] ∈ ALL_ADVERB_OPTIONS) as Hall.
      { unfold vocabulary_adverbs in Hw.
        repeat (apply elem_of_cons in Hw as [->|Hw];
                [first [ done
                       | apply (proj1 (py_in_true _ _)); by vm_compute ]|]).
        by apply elem_of_nil in Hw. }
      destruct (py_in _ _); [apply elem_of_app; by left|done]. }
  exists [w].
  split; (apply list_elem_of_filter; split; [|by apply Hproduct]); simpl;
    unfold py_in; rewrite (bool_decide_eq_true_2 (w ∈ w :: ws)) by left;
    done.
Qed.

(** Every candidate option gives rise to a support instruction. *)
Lemma support_instructions_nonempty (o : OracleOptions)
    (query_instruction : list string) (situation : Situation)
    (vocabulary_colors vocabulary_nouns : list string) :
  (n_description_options o = None
   \/ exists n, n_description_options o = Some n /\ 1 <= n) ->
  let sg :=
    segment_query query_instruction vocabulary_colors vocabulary_nouns in
  support_instructions o query_instruction sg
    (description_words_options o situation sg vocabulary_colors
       vocabulary_nouns)
    (adverb_verb_combos o query_instruction sg) ≠ [].
Proof.
  intros Hn sg Hempty.
  pose proof (description_words_options_nonempty o situation sg
                vocabulary_colors vocabulary_nouns Hn) as Hopts.
  destruct (description_words_options o situation sg vocabulary_colors
              vocabulary_nouns) as [|dw opts] eqn:Ho; [done|].
  destruct (walk_and_push_combos o query_instruction vocabulary_colors
              vocabulary_nouns) as (adverb & Hwalk & Hpush).
  fold sg in Hwalk, Hpush.
  assert (forall verb,
            (verb, adverb) ∈ adverb_verb_combos o query_instruction sg ->
            "pull" ∉ verb ->
            verb ++ article_words sg ++ dw.1 ++ adverb = query_instruction)
    as Hall.
  { intros verb Hverb Hpull.
    destruct (decide (verb ++ article_words sg ++ dw.1 ++ adverb
                      = query_instruction)) as [|Hne]; [done|].
    exfalso.
    assert ((verb ++ article_words sg ++ dw.1 ++ adverb, dw.2)
              ∈ support_instructions o query_instruction sg (dw :: opts)
                  (adverb_verb_combos o query_instruction sg)) as Hin.
    { apply support_instructions_elem. exists dw, (verb, adverb).
      split; [left|]. split; [done|]. split; [|done].
      right. unfold is_prohibited_action_adverb_combo. simpl.
      apply py_in_false in Hpull. by rewrite Hpull. }
    rewrite Hempty in Hin. by apply elem_of_nil in Hin. }
  pose proof (Hall ["walk"; "to"] Hwalk) as H1.
  pose proof (Hall ["push"] Hpush) as H2.
  assert ("pull" ∉ ["walk"; "to"]) as Hp1.
  { apply py_in_false. by vm_compute. }
  assert ("pull" ∉ ["push"]) as Hp2.
  { apply py_in_false. by vm_compute. }
  specialize (H1 Hp1). specialize (H2 Hp2).
  rewrite <- H2 in H1. simpl in H1. discriminate.
Qed.

(** The oracle returns at least one support when at least one option and
    one demonstration are asked for. *)
Lemma oracle_proposes (permutation : nat -> list nat)
    (query_instruction : list string) (situation : Situation)
    (vocabulary_colors vocabulary_nouns : list string) (o : OracleOptions) :
  (forall n, permutation n ≡ₚ seq 0 n) ->
  (n_description_options o = None
   \/ exists n, n_description_options o = Some n /\ 1 <= n) ->
  1 <= num_demos o ->
  exists res,
    generate_relevant_instructions_gscan_oracle permutation query_instruction
      situation vocabulary_colors vocabulary_nouns o = Ok res
    /\ res ≠ []
    /\ Z.of_nat (length res) <= num_demos o.
Proof.
  intros Hperm Hn Hdemos.
  pose proof (support_instructions_nonempty o query_instruction situation
                vocabulary_colors vocabulary_nouns Hn) as Hne.
  simpl in Hne.
  unfold generate_relevant_instructions_gscan_oracle.
  set (supports := support_instructions _ _ _ _ _) in *.
  destruct supports as [|s0 supports'] eqn:Hs; [done|].
  rewrite andb_false_r. simpl negb. cbv iota.
  unfold py_slice_to. destruct (Z.leb_spec 0 (num_demos o)); [|lia].
  destruct (pick_random o).
  - destruct (mapM_Ok_total
                (fun i => match (s0 :: supports') !! i with
                          | Some s => Ok s
                          | None => Raise IndexError
                          end)
                (take (Z.to_nat (num_demos o))
                      (permutation (length (s0 :: supports')))))
      as [res Hres].
    { intros i Hi. apply subseteq_take in Hi. rewrite Hperm in Hi.
      apply elem_of_seq in Hi.
      destruct ((s0 :: supports') !! i) as [s|] eqn:Hl; [eauto|].
      apply lookup_ge_None in Hl. lia. }
    exists res. split; [done|].
    apply mapM_Ok_length in Hres. rewrite length_take in Hres.
    rewrite Hperm, length_seq in Hres. simpl in Hres.
    split; [|lia]. destruct res; [simpl in Hres; lia|done].
  - eexists. split; [done|]. rewrite length_take. simpl.
    split; [|lia]. destruct (Z.to_nat (num_demos o)) eqn:Hz; [lia|done].
Qed.

(** The oracle returns at most [num_demos] supports. *)
Lemma oracle_length_le (permutation : nat -> list nat)
    (query_instruction : list string) (situation : Situation)
    (vocabulary_colors vocabulary_nouns : list string) (o : OracleOptions)
    (res : list (list string * PositionedObject)) :
  0 <= num_demos o ->
  generate_relevant_instructions_gscan_oracle permutation query_instruction
    situation vocabulary_colors vocabulary_nouns o = Ok res ->
  Z.of_nat (length res) <= num_demos o.
Proof.
  intros Hdemos. unfold generate_relevant_instructions_gscan_oracle.
  set (supports := support_instructions _ _ _ _ _).
  destruct (negb (nonempty _) && negb (nonempty supports)).
  { intros [= <-]. simpl. lia. }
  destruct (negb (0 <? length supports)%nat); [done|].
  unfold py_slice_to. destruct (Z.leb_spec 0 (num_demos o)); [|lia].
  destruct (pick_random o).
  - intros Hres%mapM_Ok_length. rewrite Hres, length_take. lia.
  - intros [= <-]. rewrite length_take. lia.
Qed.

(** X5.  The oracle always finds something to demonstrate: when at least
    one description option and one demonstration are asked for
    ([n_description_options] absent or at least 1, [num_demos] at least 1),
    it returns a list of at least one and at most [num_demos] supports,
    whatever the query, the situation, the waiver set and the other
    options; it neither returns the empty list that makes the caller skip
    the data point nor fails its assertion. *)
Theorem oracle_always_proposes (permutation : nat -> list nat)
    (query_instruction : list string) (situation : Situation)
    (vocabulary_colors vocabulary_nouns : list string) (o : OracleOptions) :
  (forall n, permutation n ≡ₚ seq 0 n) ->
  (n_description_options o = None
   \/ exists n, n_description_options o = Some n /\ 1 <= n) ->
  1 <= num_demos o ->
  exists res,
    generate_relevant_instructions_gscan_oracle permutation query_instruction
      situation vocabulary_colors vocabulary_nouns o = Ok res
    /\ res ≠ []
    /\ Z.of_nat (length res) <= num_demos o.
Proof. apply oracle_proposes. Qed.

Lemma oracle_always_proposes_witness :
  exists res,
    generate_relevant_instructions_gscan_oracle Examples.identity_permutation
      Examples.square_query Examples.square_world Examples.colors
      Examples.nouns Examples.situational_1_options = Ok res
    /\ res ≠ []
    /\ Z.of_nat (length res) <= 16.
Proof.
  apply (oracle_always_proposes Examples.identity_permutation
           Examples.square_query Examples.square_world Examples.colors
           Examples.nouns Examples.situational_1_options).
  - intros n. reflexivity.
  - left. reflexivity.
  - simpl. lia.
Defined.

Lemma bind_sublist_pointwise {A B : Type} (f g : A -> list B) (l : list A) :
  (forall x, f x `sublist_of` g x) -> l ≫= f `sublist_of` l ≫= g.
Proof.
  intros Hfg. induction l as [|x l IH]; [done|]. csimpl.
  by apply sublist_app.
Qed.

(** X6.  [limit_verb_adverb] only removes supports: the supports built with
    the limited verb and adverb combinations are, in the same order, a
    subsequence of the supports built from all the combinations, the other
    options being equal. *)
Theorem limit_verb_adverb_only_removes (o : OracleOptions)
    (query_instruction : list string) (situation : Situation)
    (vocabulary_colors vocabulary_nouns : list string) :
  let sg :=
    segment_query query_instruction vocabulary_colors vocabulary_nouns in
  let limited :=
    mkOracleOptions (n_description_options o) (demonstrate_target o)
      (allow_demonstration_splits o) (allow_any_example o) (num_demos o)
      (pick_random o) true in
  let unlimited :=
    mkOracleOptions (n_description_options o) (demonstrate_target o)
      (allow_demonstration_splits o) (allow_any_example o) (num_demos o)
      (pick_random o) false in
  support_instructions limited query_instruction sg
    (description_words_options limited situation sg vocabulary_colors
       vocabulary_nouns)
    (adverb_verb_combos limited query_instruction sg)
  `sublist_of`
  support_instructions unlimited query_instruction sg
    (description_words_options unlimited situation sg vocabulary_colors
       vocabulary_nouns)
    (adverb_verb_combos unlimited query_instruction sg).
Proof.
  intros sg limited unlimited.
  unfold support_instructions, adverb_verb_combos. simpl.
  change (description_words_options limited situation sg vocabulary_colors
            vocabulary_nouns)
    with (description_words_options unlimited situation sg vocabulary_colors
            vocabulary_nouns).
  apply bind_sublist_pointwise. intros dw.
  apply bind_sublist. unfold generate_limited_adverb_verb_combos.
  apply sublist_filter.
Qed.

(** ** Size tags of the alternatives *)

Lemma object_types_max_sizes_snoc (objs : list PositionedObject)
    (o : PositionedObject) :
  object_types_max_sizes (objs ++ [o])
  = <[object_type o :=
        Z.max (default 0 (object_types_max_sizes objs !! object_type o))
              (size_ (object o))]> (object_types_max_sizes objs).
Proof. unfold object_types_max_sizes. by rewrite foldl_snoc. Qed.

Lemma object_types_min_sizes_snoc (objs : list PositionedObject)
    (o : PositionedObject) :
  object_types_min_sizes (objs ++ [o])
  = <[object_type o :=
        Z.min (default 10 (object_types_min_sizes objs !! object_type o))
              (size_ (object o))]> (object_types_min_sizes objs).
Proof. unfold object_types_min_sizes. by rewrite foldl_snoc. Qed.

(** The entry of a type in the table of largest sizes: an upper bound of
    the sizes of the type, reached unless it is the initial 0. *)
Lemma object_types_max_sizes_spec (objs : list PositionedObject)
    (ty : string * string) :
  let M := default 0 (object_types_max_sizes objs !! ty) in
  0 <= M
  /\ (forall o, o ∈ objs -> object_type o = ty -> size_ (object o) <= M)
  /\ (M = 0 \/ exists o, o ∈ objs /\ object_type o = ty
                         /\ size_ (object o) = M).
Proof.
  induction objs as [|o objs IH] using rev_ind.
  { simpl. split; [done|]. split; [|by left].
    intros o Ho. by apply elem_of_nil in Ho. }
  rewrite object_types_max_sizes_snoc. simpl in *.
  destruct IH as (H0 & Hub & Hreach).
  destruct (decide (object_type o = ty)) as [<-|Hty].
  - rewrite lookup_insert_eq. simpl.
    set (M := default 0 (object_types_max_sizes objs !! object_type o)) in *.
    split; [lia|]. split.
    + intros o' [Ho'|Ho']%elem_of_app Hty'.
      * specialize (Hub o' Ho' Hty'). lia.
      * apply list_elem_of_singleton in Ho' as ->. lia.
    + destruct (Z.max_spec M (size_ (object o))) as [[_ ->]|[_ ->]].
      * right. exists o. split; [|done]. apply elem_of_app. right. left.
      * destruct Hreach as [?|(o' & ? & ? & ?)]; [by left|right].
        exists o'. split; [|done]. apply elem_of_app. by left.
  - rewrite lookup_insert_ne by done.
    split; [done|]. split.
    + intros o' [Ho'|Ho']%elem_of_app Hty'; [by apply Hub|].
      apply list_elem_of_singleton in Ho' as ->. done.
    + destruct Hreach as [?|(o' & ? & ? & ?)]; [by left|right].
      exists o'. split; [|done]. apply elem_of_app. by left.
Qed.

Lemma object_types_min_sizes_spec (objs : list PositionedObject)
    (ty : string * string) :
  let m := default 10 (object_types_min_sizes objs !! ty) in
  m <= 10
  /\ (forall o, o ∈ objs -> object_type o = ty -> m <= size_ (object o))
  /\ (m = 10 \/ exists o, o ∈ objs /\ object_type o = ty
                          /\ size_ (object o) = m).
Proof.
  induction objs as [|o objs IH] using rev_ind.
  { simpl. split; [done|]. split; [|by left].
    intros o Ho. by apply elem_of_nil in Ho. }
  rewrite object_types_min_sizes_snoc. simpl in *.
  destruct IH as (H0 & Hlb & Hreach).
  destruct (decide (object_type o = ty)) as [<-|Hty].
  - rewrite lookup_insert_eq. simpl.
    set (m := default 10 (object_types_min_sizes objs !! object_type o)) in *.
    split; [lia|]. split.
    + intros o' [Ho'|Ho']%elem_of_app Hty'.
      * specialize (Hlb o' Ho' Hty'). lia.
      * apply list_elem_of_singleton in Ho' as ->. lia.
    + destruct (Z.min_spec m (size_ (object o))) as [[_ ->]|[_ ->]].
      * destruct Hreach as [?|(o' & ? & ? & ?)]; [by left|right].
        exists o'. split; [|done]. apply elem_of_app. by left.
      * right. exists o. split; [|done]. apply elem_of_app. right. left.
  - rewrite lookup_insert_ne by done.
    split; [done|]. split.
    + intros o' [Ho'|Ho']%elem_of_app Hty'; [by apply Hlb|].
      apply list_elem_of_singleton in Ho' as ->. done.
    + destruct Hreach as [?|(o' & ? & ? & ?)]; [by left|right].
      exists o'. split; [|done]. apply elem_of_app. by left.
Qed.

(** X7.  How [generate_description_words_options] words an alternative: by
    its color and shape, preceded by "big" when no placed object of the same
    shape and color is larger, else by "small" when none is smaller, else
    by nothing.  "big" has priority: an object that is alone of its shape
    and color is worded "big", never "small". *)
Theorem alternative_size_tag (s : Situation) (query_words : list string)
    (words : list string) (obj : PositionedObject) :
  (words, obj)
    ∈ drop 1 (generate_description_words_options s query_words) ->
  0 <= size_ (object obj) <= 10 ->
  let same_type (o : PositionedObject) :=
    o ∈ placed_objects s /\ shape (object o) = shape (object obj)
    /\ color (object o) = color (object obj) in
  let largest :=
    forall o, same_type o -> size_ (object o) <= size_ (object obj) in
  let smallest :=
    forall o, same_type o -> size_ (object obj) <= size_ (object o) in
  obj ∈ placed_objects s
  /\ (largest ->
      words = ["big"; color (object obj); shape (object obj)])
  /\ (~ largest -> smallest ->
      words = ["small"; color (object obj); shape (object obj)])
  /\ (~ largest -> ~ smallest ->
      words = [color (object obj); shape (object obj)]).
Proof.
  intros Hin Hsize same_type largest smallest.
  unfold generate_description_words_options in Hin. simpl in Hin.
  rewrite drop_0 in Hin.
  apply list_elem_of_fmap in Hin as (o & [= -> ->] & Ho).
  apply list_elem_of_filter in Ho as [_ Ho].
  split; [done|].
  destruct (object_types_max_sizes_spec (placed_objects s) (object_type o))
    as (HM0 & HMub & HMreach).
  destruct (object_types_min_sizes_spec (placed_objects s) (object_type o))
    as (Hm10 & Hmlb & Hmreach).
  unfold size_tag.
  set (M := default 0 (object_types_max_sizes (placed_objects s)
                         !! object_type o)) in *.
  set (m := default 10 (object_types_min_sizes (placed_objects s)
                          !! object_type o)) in *.
  assert (forall o', same_type o' <->
                     o' ∈ placed_objects s /\ object_type o' = object_type o)
    as Hsame.
  { intros o'. unfold same_type, object_type. split.
    - intros (? & -> & ->). done.
    - intros (? & [= ? ?]). done. }
  assert (size_ (object o) <= M) as HoM by (by apply HMub).
  assert (m <= size_ (object o)) as Hom by (by apply Hmlb).
  assert (largest <-> size_ (object o) = M) as Hlargest.
  { split.
    - intros Hl. destruct HMreach as [HM|(o' & Ho' & Hty & HM)]; [lia|].
      assert (size_ (object o') <= size_ (object o)).
      { apply Hl, Hsame. done. }
      lia.
    - intros HM o' [Ho' Hty]%Hsame. rewrite HM. by apply HMub. }
  assert (smallest <-> size_ (object o) = m) as Hsmallest.
  { split.
    - intros Hl. destruct Hmreach as [Hm|(o' & Ho' & Hty & Hm)]; [lia|].
      assert (size_ (object o) <= size_ (object o')).
      { apply Hl, Hsame. done. }
      lia.
    - intros Hm o' [Ho' Hty]%Hsame. rewrite Hm. by apply Hmlb. }
  destruct (Z.eqb_spec (size_ (object o)) M) as [HeM|HneM].
  { split; [done|]. split; intros Hn; by destruct Hn; apply Hlargest. }
  split; [intros Hl; by apply Hlargest in Hl|].
  destruct (Z.eqb_spec (size_ (object o)) m) as [Hem|Hnem].
  { split; [done|]. intros _ Hn. by destruct Hn; apply Hsmallest. }
  split; [|done]. intros _ Hs. by apply Hsmallest in Hs.
Qed.

Lemma alternative_size_tag_witness :
  (["big"; "red"; "cylinder"], Examples.placed 1 "red" "cylinder" 3 3)
    ∈ drop 1 (generate_description_words_options Examples.circle_world
                ["small"; "red"; "circle"])
  /\ ["big"; "red"; "cylinder"] = ["big"; "red"; "cylinder"].
Proof.
  assert ((["big"; "red"; "cylinder"], Examples.placed 1 "red" "cylinder" 3 3)
            ∈ drop 1 (generate_description_words_options
                        Examples.circle_world ["small"; "red"; "circle"]))
    as Hin.
  { apply (proj1 (py_in_true _ _)). by vm_compute. }
  split; [done|].
  apply (alternative_size_tag Examples.circle_world
           ["small"; "red"; "circle"] ["big"; "red"; "cylinder"]
           (Examples.placed 1 "red" "cylinder" 3 3) Hin); [simpl; lia|].
  intros o (Ho & Hshape & Hcolor). simpl in *.
  unfold Examples.circle_world, Examples.placed in Ho. simpl in Ho.
  repeat (apply elem_of_cons in Ho as [->|Ho]; [by simpl in *|]).
  by apply elem_of_nil in Ho.
Defined.

(** ** The indexes by target position and by offset *)

Section bucket_index.

(** An index with buckets read by [read] and filled by [append]. *)
Context {M K : Type} `{EqDecision K}.
Context (empty : M) (read : M -> K -> list nat) (append : K -> nat -> M -> M).
Context (key : Example -> K).
Context (read_empty : forall k, read empty k = []).
Context (read_append : forall k i m, read (append k i m) k = read m k ++ [i]).
Context (read_append_ne : forall k k' i m,
           k ≠ k' -> read (append k i m) k' = read m k').

Lemma bucket_index_spec (examples : list Example) (k : K) :
  read (foldl (fun m '(index, example) => append (key example) index m)
              empty (enumerate examples)) k
  = filter (fun i => key <$> examples !! i = Some k)
           (seq 0 (length examples)).
Proof.
  induction examples as [|e examples IH] using rev_ind; [by simpl|].
  rewrite enumerate_snoc, foldl_snoc, length_app. simpl length.
  rewrite Nat.add_1_r, seq_S, filter_app. simpl.
  assert (Hold : filter (fun i => key <$> (examples ++ [e]) !! i = Some k)
                        (seq 0 (length examples))
                 = filter (fun i => key <$> examples !! i = Some k)
                          (seq 0 (length examples))).
  { apply filter_ext_elem_of. intros i Hi. apply elem_of_seq in Hi.
    by rewrite lookup_app_l by lia. }
  rewrite Hold, <- IH. clear Hold.
  assert (Hlast : (examples ++ [e]) !! length examples = Some e).
  { rewrite lookup_app_r by done. by rewrite Nat.sub_diag. }
  destruct (decide (key e = k)) as [<-|Hne].
  - rewrite read_append.
    rewrite filter_cons, decide_True by (by rewrite Hlast). done.
  - rewrite read_append_ne by done.
    rewrite filter_cons, decide_False.
    + by rewrite app_nil_r.
    + rewrite Hlast. simpl. congruence.
Qed.

Lemma bucket_index_sorted (examples : list Example) (k : K) :
  StronglySorted lt
    (read (foldl (fun m '(index, example) => append (key example) index m)
                 empty (enumerate examples)) k).
Proof.
  rewrite bucket_index_spec.
  apply StronglySorted_filter, StronglySorted_seq.
Qed.

Lemma bucket_index_elem_of (examples : list Example) (k : K) (i : nat) :
  i ∈ read (foldl (fun m '(index, example) => append (key example) index m)
                  empty (enumerate examples)) k
  <-> exists e, examples !! i = Some e /\ key e = k.
Proof.
  rewrite bucket_index_spec, list_elem_of_filter, elem_of_seq. split.
  - intros [Hk _]. destruct (examples !! i) as [e|]; [|done].
    exists e. split; [done|]. by injection Hk.
  - intros (e & He & <-). rewrite He. split; [done|].
    apply lookup_lt_Some in He. lia.
Qed.

End bucket_index.

Lemma bucket2_append2 (x y : Z) (i : nat) (m : gmap Z (gmap Z (list nat))) :
  bucket2 (bucket_append2 x y i m) x y = bucket2 m x y ++ [i].
Proof.
  unfold bucket2, bucket_append2, bucket_append.
  rewrite lookup_insert_eq. simpl. by rewrite lookup_insert_eq.
Qed.

Lemma bucket2_append2_ne (x y x' y' : Z) (i : nat)
    (m : gmap Z (gmap Z (list nat))) :
  (x, y) ≠ (x', y') ->
  bucket2 (bucket_append2 x y i m) x' y' = bucket2 m x' y'.
Proof.
  intros Hne. unfold bucket2, bucket_append2, bucket_append.
  destruct (decide (x = x')) as [<-|Hx].
  - rewrite lookup_insert_eq. simpl.
    rewrite lookup_insert_ne; [done|]. congruence.
  - by rewrite lookup_insert_ne.
Qed.

Section two_level_index.

Context (key : Example -> Z * Z).

Let read := fun (m : gmap Z (gmap Z (list nat))) (k : Z * Z) =>
  bucket2 m k.1 k.2.
Let append := fun (k : Z * Z) => bucket_append2 k.1 k.2.

Lemma two_level_index_sorted (examples : list Example) (x y : Z) :
  StronglySorted lt
    (bucket2 (foldl (fun m '(index, example) =>
                       bucket_append2 (key example).1 (key example).2 index m)
                    ∅ (enumerate examples)) x y).
Proof.
  refine (bucket_index_sorted ∅ read append key _ _ _ examples (x, y));
    [done|..].
  - intros [??] ??. apply bucket2_append2.
  - intros [??] [??] ???. by apply bucket2_append2_ne.
Qed.

Lemma two_level_index_elem_of (examples : list Example) (x y : Z) (i : nat) :
  i ∈ bucket2 (foldl (fun m '(index, example) =>
                        bucket_append2 (key example).1 (key example).2
                          index m)
                     ∅ (enumerate examples)) x y
  <-> exists e, examples !! i = Some e /\ key e = (x, y).
Proof.
  refine (bucket_index_elem_of ∅ read append key _ _ _ examples (x, y) i);
    [done|..].
  - intros [??] ??. apply bucket2_append2.
  - intros [??] [??] ???. by apply bucket2_append2_ne.
Qed.

End two_level_index.

(** The key of an example in the index by target position and in the
    index by offset. *)
Lemma target_position_bucket_elem_of (examples : list Example) (x y : Z)
    (i : nat) :
  i ∈ bucket2 (sort_indices_by_target_positions examples) x y
  <-> exists e, examples !! i = Some e
                /\ column (position (target_object (situation e))) = x
                /\ row (position (target_object (situation e))) = y.
Proof.
  etrans;
    [exact (two_level_index_elem_of
              (fun e => (column (position (target_object (situation e))),
                         row (position (target_object (situation e)))))
              examples x y i)|].
  split; intros (e & He & Hk); exists e; (split; [done|]);
    [by injection Hk|by destruct Hk as [-> ->]].
Qed.

Lemma offset_bucket_elem_of (examples : list Example) (x y : Z) (i : nat) :
  i ∈ bucket2 (sort_indices_by_offsets examples) x y
  <-> exists e, examples !! i = Some e
                /\ column (position (target_object (situation e)))
                   - column (agent_pos (situation e)) = x
                /\ row (position (target_object (situation e)))
                   - row (agent_pos (situation e)) = y.
Proof.
  etrans;
    [exact (two_level_index_elem_of
              (fun e => (column (position (target_object (situation e)))
                         - column (agent_pos (situation e)),
                         row (position (target_object (situation e)))
                         - row (agent_pos (situation e))))
              examples x y i)|].
  split; intros (e & He & Hk); exists e; (split; [done|]);
    [by injection Hk|by destruct Hk as [-> ->]].
Qed.

(** X8.  The two-level indexes built by [sort_indices_by_target_positions]
    and [sort_indices_by_offsets]: the bucket read at [[x][y]] holds, in
    strictly increasing order, exactly the positions of the examples whose
    target stands at column [x] and row [y], respectively whose target is
    [x] columns and [y] rows away from the agent; a bucket that was never
    written reads as the empty list. *)
Theorem position_and_offset_buckets (examples : list Example) (x y : Z) :
  let by_position := bucket2 (sort_indices_by_target_positions examples) x y in
  let by_offset := bucket2 (sort_indices_by_offsets examples) x y in
  StronglySorted lt by_position
  /\ (forall i,
        i ∈ by_position <->
        exists e, examples !! i = Some e
                  /\ column (position (target_object (situation e))) = x
                  /\ row (position (target_object (situation e))) = y)
  /\ StronglySorted lt by_offset
  /\ (forall i,
        i ∈ by_offset <->
        exists e, examples !! i = Some e
                  /\ column (position (target_object (situation e)))
                     - column (agent_pos (situation e)) = x
                  /\ row (position (target_object (situation e)))
                     - row (agent_pos (situation e)) = y).
Proof.
  intros by_position by_offset. split; [|split; [|split]].
  - exact (two_level_index_sorted
             (fun e => (column (position (target_object (situation e))),
                        row (position (target_object (situation e)))))
             examples x y).
  - apply target_position_bucket_elem_of.
  - exact (two_level_index_sorted
             (fun e => (column (position (target_object (situation e)))
                        - column (agent_pos (situation e)),
                        row (position (target_object (situation e)))
                        - row (agent_pos (situation e))))
             examples x y).
  - apply offset_bucket_elem_of.
Qed.

(** ** Supports looked up by offset *)

(** What the exclusion keeps, when the command index is the one built from
    the training examples: the candidates whose example has another command
    text. *)
Lemma exclude_same_command_kept (train_examples : list Example)
    (command_key : string) (candidates kept : list nat) (p : nat) :
  exclude_same_command (sort_indices_by_command train_examples) command_key
    candidates = Ok kept ->
  p ∈ kept ->
  p ∈ candidates
  /\ forall e, train_examples !! p = Some e -> command_text e ≠ command_key.
Proof.
  unfold exclude_same_command. intros Hex Hp.
  destruct candidates as [|c candidates].
  { injection Hex as <-. by apply elem_of_nil in Hp. }
  destruct (sort_indices_by_command train_examples !! command_key)
    as [bucket|] eqn:Hb; [|done].
  injection Hex as <-. apply list_elem_of_filter in Hp as [Hfind Hp].
  split; [done|]. intros e He Hkey.
  pose proof (sort_indices_by_command_bucket train_examples command_key)
    as Hbucket.
  rewrite Hb in Hbucket. simpl in Hbucket.
  assert (StronglySorted lt bucket) as Hsorted.
  { rewrite Hbucket. apply StronglySorted_filter, StronglySorted_seq. }
  assert (p ∈ bucket) as Hin.
  { rewrite Hbucket. apply list_elem_of_filter. split.
    - rewrite He. simpl. by rewrite Hkey.
    - apply elem_of_seq. apply lookup_lt_Some in He. lia. }
  apply (find_in_sorted_list_spec bucket p Hsorted) in Hin. congruence.
Qed.

(** The supports are read off the examples that the drawn positions
    name. *)
Lemma supports_of_examples_Ok (train_examples : list Example)
    (relevant_demos : list nat) (sup : Supports) :
  supports_of_examples train_examples relevant_demos = Ok sup ->
  exists examples,
    Forall2 (fun i e => train_examples !! i = Some e) relevant_demos examples
    /\ sup = (map (fun e => parse_command_repr (command e)) examples,
              map (fun e => parse_command_repr (target_commands e)) examples,
              map situation examples).
Proof.
  unfold supports_of_examples. intros Hsup.
  apply bind_Ok in Hsup as (examples & Hex & Hsup).
  exists examples. split; [|congruence]. clear Hsup.
  revert examples Hex.
  induction relevant_demos as [|i demos IH]; intros examples Hex.
  { injection Hex as <-. constructor. }
  simpl in Hex. apply bind_Ok in Hex as (e & He & Hex).
  apply bind_Ok in Hex as (rest & Hrest & Hex). injection Hex as <-.
  constructor; [|by apply IH].
  unfold get_example in He. by destruct (train_examples !! i); [injection He as ->|].
Qed.

(** X9.  The strategy of the supports with the same offset, run on the
    payload that [main] builds from the training examples: every support it
    returns is a training example whose target lies at the same offset from
    its agent as the query's target from the query's agent, and whose
    command text differs from the query's; there are at most [num_demos]
    of them. *)
Theorem same_offset_supports_sound (draw : nat -> nat)
    (query_command : list string) (s : Situation)
    (train_examples : list Example) (num_demos : Z) (sup : Supports) :
  let payload :=
    find_supports_with_same_agent_target_offset_payload train_examples in
  find_supports_with_same_agent_target_offset draw query_command s
    payload.1.1 payload.1.2 payload.2 num_demos = Ok sup ->
  exists examples,
    sup = (map (fun e => parse_command_repr (command e)) examples,
           map (fun e => parse_command_repr (target_commands e)) examples,
           map situation examples)
    /\ Z.of_nat (length examples) <= num_demos
    /\ Forall (fun e =>
                 e ∈ train_examples
                 /\ column (position (target_object (situation e)))
                    - column (agent_pos (situation e))
                    = column (position (target_object s))
                      - column (agent_pos s)
                 /\ row (position (target_object (situation e)))
                    - row (agent_pos (situation e))
                    = row (position (target_object s)) - row (agent_pos s)
                 /\ command_text e ≠ str_join " " query_command)
              examples.
Proof.
  intros payload. unfold payload.
  unfold find_supports_with_same_agent_target_offset_payload,
    find_supports_with_same_agent_target_offset. simpl.
  intros Hsup.
  apply bind_Ok in Hsup as (kept & Hkept & Hsup).
  apply bind_Ok in Hsup as (relevant & Hrel & Hsup).
  apply random_choice_replace_length in Hrel as (_ & Hlen & Hsub).
  apply supports_of_examples_Ok in Hsup as (examples & Hex & ->).
  exists examples. split; [done|]. split.
  { apply Forall2_length in Hex. lia. }
  apply Forall_forall. intros e He.
  apply list_elem_of_lookup_1 in He as [k Hk].
  destruct (Forall2_lookup_r _ _ _ _ _ Hex Hk) as (p & Hp & Hpe).
  assert (p ∈ kept) as Hin by (eapply Hsub, list_elem_of_lookup_2, Hp).
  destruct (exclude_same_command_kept _ _ _ _ _ Hkept Hin) as [Hcand Hcmd].
  apply offset_bucket_elem_of in Hcand as (e' & He' & Hx & Hy).
  assert (e' = e) as -> by congruence.
  split; [by eapply list_elem_of_lookup_2|]. split; [done|].
  split; [done|]. by apply Hcmd.
Qed.

Lemma same_offset_supports_sound_witness :
  exists examples,
    ([["walk"; "to"; "a"; "red"; "circle"]], [["walk"; "walk"]],
     [Examples.one_circle])
    = (map (fun e => parse_command_repr (command e)) examples,
       map (fun e => parse_command_repr (target_commands e)) examples,
       map situation examples)
    /\ Z.of_nat (length examples) <= 5
    /\ Forall (fun e =>
                 e ∈ Examples.train_examples
                 /\ column (position (target_object (situation e)))
                    - column (agent_pos (situation e)) = 3 - 0
                 /\ row (position (target_object (situation e)))
                    - row (agent_pos (situation e)) = 2 - 0
                 /\ command_text e ≠ str_join " " Examples.push_query)
              examples.
Proof.
  apply (same_offset_supports_sound Examples.first_draw Examples.push_query
           Examples.one_circle Examples.train_examples 5).
  by vm_compute.
Defined.

(** ** A query whose command text is not in the training corpus *)

(** The keys of the command index are the command texts of the examples. *)
Lemma sort_indices_by_command_lookup_None (examples : list Example)
    (key : string) :
  sort_indices_by_command examples !! key = None
  <-> forall e, e ∈ examples -> command_text e ≠ key.
Proof.
  induction examples as [|e examples IH] using rev_ind.
  { split; [|done]. intros _ e He. by apply elem_of_nil in He. }
  rewrite sort_indices_by_command_snoc. unfold bucket_append.
  destruct (decide (command_text e = key)) as [<-|Hne].
  - rewrite lookup_insert_eq. split; [done|]. intros Hall.
    exfalso. apply (Hall e); [|done]. apply elem_of_app. right. left.
  - rewrite lookup_insert_ne by done. rewrite IH. split.
    + intros Hall e' [He'|He']%elem_of_app; [by apply Hall|].
      by apply list_elem_of_singleton in He' as ->.
    + intros Hall e' He'. apply Hall, elem_of_app. by left.
Qed.

Lemma exclude_same_command_missing (train_examples : list Example)
    (command_key : string) (candidates : list nat) :
  (forall e, e ∈ train_examples -> command_text e ≠ command_key) ->
  exclude_same_command (sort_indices_by_command train_examples) command_key
    candidates
  = match candidates with [] => Ok [] | _ => Raise KeyError end.
Proof.
  intros Hmissing%sort_indices_by_command_lookup_None.
  unfold exclude_same_command. rewrite Hmissing. by destruct candidates.
Qed.

(** X10.  A query whose command text no training example has, in the two
    strategies that look supports up by offset and by target position: the
    bucket of the query's own command is read from a plain dictionary, once
    per candidate, so the strategy raises [KeyError] as soon as one training
    example has the same offset (respectively the same target position),
    and returns no support at all when none has. *)
Theorem lookup_strategies_unseen_command (draw : nat -> nat)
    (query_command : list string) (s : Situation)
    (train_examples : list Example) (num_demos : Z) :
  (forall e, e ∈ train_examples ->
             command_text e ≠ str_join " " query_command) ->
  0 <= num_demos ->
  let same_offset (e : Example) :=
    column (position (target_object (situation e)))
    - column (agent_pos (situation e))
    = column (position (target_object s)) - column (agent_pos s)
    /\ row (position (target_object (situation e)))
       - row (agent_pos (situation e))
       = row (position (target_object s)) - row (agent_pos s) in
  let same_position (e : Example) :=
    position (target_object (situation e)) = position (target_object s) in
  let by_offset :=
    find_supports_with_same_agent_target_offset draw query_command s
      (sort_indices_by_offsets train_examples)
      (sort_indices_by_command train_examples) train_examples num_demos in
  let by_position :=
    find_supports_with_any_target_object_in_same_position draw query_command
      s (sort_indices_by_target_positions train_examples)
      (sort_indices_by_command train_examples) train_examples num_demos in
  ((exists e, e ∈ train_examples /\ same_offset e) ->
   by_offset = Raise KeyError)
  /\ ((forall e, e ∈ train_examples -> ~ same_offset e) ->
      by_offset = Ok ([], [], []))
  /\ ((exists e, e ∈ train_examples /\ same_position e) ->
      by_position = Raise KeyError)
  /\ ((forall e, e ∈ train_examples -> ~ same_position e) ->
      by_position = Ok ([], [], [])).
Proof.
  intros Hmissing Hdemos same_offset same_position by_offset by_position.
  unfold by_offset, by_position,
    find_supports_with_same_agent_target_offset,
    find_supports_with_any_target_object_in_same_position.
  rewrite !exclude_same_command_missing by done.
  assert (forall (l : list nat),
            (match l with [] => Ok [] | _ => Raise KeyError end
               ≫= (fun possible_demos =>
                     random_choice_replace draw possible_demos
                       (Z.min (Z.of_nat (length possible_demos)) num_demos)
                       ≫= supports_of_examples train_examples))
            = match l with
              | [] => Ok ([], [], [])
              | _ => Raise KeyError
              end) as Hrun.
  { intros [|p l]; [|done]. simpl.
    unfold random_choice_replace. simpl.
    rewrite Z.min_l by done. done. }
  rewrite !Hrun. clear Hrun.
  split; [|split; [|split]].
  - intros (e & [i Hi]%list_elem_of_lookup_1 & Hx & Hy).
    destruct (bucket2 _ _ _) as [|p l] eqn:Hb; [|done].
    assert (i ∈ bucket2 (sort_indices_by_offsets train_examples)
                  (column (position (target_object s))
                   - column (agent_pos s))
                  (row (position (target_object s)) - row (agent_pos s)))
      as Hin by (apply offset_bucket_elem_of; eauto).
    rewrite Hb in Hin. by apply elem_of_nil in Hin.
  - intros Hnone.
    destruct (bucket2 _ _ _) as [|p l] eqn:Hb; [done|].
    assert (p ∈ bucket2 (sort_indices_by_offsets train_examples)
                  (column (position (target_object s))
                   - column (agent_pos s))
                  (row (position (target_object s)) - row (agent_pos s)))
      as Hin by (rewrite Hb; left).
    apply offset_bucket_elem_of in Hin as (e & He & Hx & Hy).
    destruct (Hnone e); [by eapply list_elem_of_lookup_2|done].
  - intros (e & [i Hi]%list_elem_of_lookup_1 & Hp).
    destruct (bucket2 _ _ _) as [|p l] eqn:Hb; [|done].
    assert (i ∈ bucket2 (sort_indices_by_target_positions train_examples)
                  (column (position (target_object s)))
                  (row (position (target_object s))))
      as Hin.
    { apply target_position_bucket_elem_of. exists e.
      unfold same_position in Hp. by rewrite Hp. }
    rewrite Hb in Hin. by apply elem_of_nil in Hin.
  - intros Hnone.
    destruct (bucket2 _ _ _) as [|p l] eqn:Hb; [done|].
    assert (p ∈ bucket2 (sort_indices_by_target_positions train_examples)
                  (column (position (target_object s)))
                  (row (position (target_object s))))
      as Hin by (rewrite Hb; left).
    apply target_position_bucket_elem_of in Hin as (e & He & Hx & Hy).
    destruct (Hnone e); [by eapply list_elem_of_lookup_2|].
    unfold same_position.
    destruct (position (target_object (situation e))),
      (position (target_object s)). simpl in *. congruence.
Qed.

Lemma lookup_strategies_unseen_command_witness :
  find_supports_with_same_agent_target_offset Examples.first_draw
    ["pull"; "a"; "red"; "circle"] Examples.one_circle
    (sort_indices_by_offsets Examples.train_examples)
    (sort_indices_by_command Examples.train_examples)
    Examples.train_examples 16 = Raise KeyError.
Proof.
  apply (lookup_strategies_unseen_command Examples.first_draw
           ["pull"; "a"; "red"; "circle"] Examples.one_circle
           Examples.train_examples 16).
  - intros e He. unfold Examples.train_examples in He.
    repeat (apply elem_of_cons in He as [->|He]; [by vm_compute|]).
    by apply elem_of_nil in He.
  - lia.
  - exists (mkExample "push,a,red,circle" "walk,walk,push"
              Examples.one_circle).
    split; [left|]. by vm_compute.
Defined.

(** ** The index tables of colors and nouns *)

Lemma word2idx_lookup_cases (words : list string) (w : string) :
  match word2idx words !! w with
  | None => w ∉ words
  | Some z =>
      exists i : nat,
        z = Z.of_nat i + 1 /\ words !! i = Some w
        /\ forall j : nat, (i < j)%nat -> words !! j ≠ Some w
  end.
Proof.
  induction words as [|x words IH] using rev_ind.
  { unfold word2idx. simpl. rewrite lookup_empty. apply not_elem_of_nil. }
  rewrite word2idx_snoc.
  destruct (decide (x = w)) as [->|Hne].
  - rewrite lookup_insert_eq. exists (length words).
    split; [done|]. split.
    + rewrite lookup_app_r by done. by rewrite Nat.sub_diag.
    + intros j Hj. rewrite lookup_ge_None_2; [done|].
      rewrite length_app. simpl. lia.
  - rewrite lookup_insert_ne by done.
    destruct (word2idx words !! w) as [z|].
    + destruct IH as (i & -> & Hi & Hlast). exists i.
      split; [done|]. split.
      * rewrite lookup_app_l; [done|]. by eapply lookup_lt_Some.
      * intros j Hj. destruct (decide (j < length words)%nat).
        -- rewrite lookup_app_l by done. by apply Hlast.
        -- rewrite lookup_app_r by lia.
           destruct (j - length words)%nat; simpl; [congruence|done].
    + rewrite not_elem_of_app. split; [done|].
      by rewrite list_elem_of_singleton.
Qed.

Lemma dict_get_word2idx_Ok (words : list string) (w : string) (z : Z) :
  dict_get (word2idx words) w = Ok z -> w ∈ words.
Proof.
  unfold dict_get. pose proof (word2idx_lookup_cases words w) as Hc.
  destruct (word2idx words !! w); [|done].
  destruct Hc as (i & _ & Hi & _). intros _.
  by eapply list_elem_of_lookup_2.
Qed.

Lemma dict_get_word2idx_Raise (words : list string) (w : string) :
  w ∉ words -> dict_get (word2idx words) w = Raise KeyError.
Proof.
  unfold dict_get. pose proof (word2idx_lookup_cases words w) as Hc.
  destruct (word2idx words !! w); [|done].
  destruct Hc as (i & _ & Hi & _). intros Hw.
  destruct Hw. by eapply list_elem_of_lookup_2.
Qed.

(** X11.  The tables [COLOR2IDX] and [NOUN2IDX]: a word is a key exactly
    when it is in the list; its index is its position counted from 1, so
    that 0 never denotes a word; when a word is listed twice its last
    position is the one kept. *)
Theorem word2idx_spec (words : list string) (w : string) :
  match word2idx words !! w with
  | None => w ∉ words
  | Some z =>
      exists i : nat,
        z = Z.of_nat i + 1 /\ words !! i = Some w
        /\ forall j : nat, (i < j)%nat -> words !! j ≠ Some w
  end.
Proof. apply word2idx_lookup_cases. Qed.


(** ** The "sequence" encoding *)

Lemma mapM_Ok_Forall2 {A B : Type} (f : A -> result B) (l : list A)
    (r : list B) :
  mapM f l = Ok r <-> Forall2 (fun a b => f a = Ok b) l r.
Proof.
  revert r. induction l as [|a l IH]; intros r; simpl.
  - split; [intros [= <-]; constructor|by inversion 1].
  - rewrite bind_Ok. split.
    + intros (b & Hb & Hr). apply bind_Ok in Hr as (r' & Hr' & [= <-]).
      constructor; [done|by apply IH].
    + inversion 1 as [|? b ? r' Hb Hr']; subst. exists b. split; [done|].
      apply bind_Ok. exists r'. split; [by apply IH|done].
Qed.

(** A loop whose body raises nothing but [KeyError] returns or raises
    [KeyError]. *)
Lemma mapM_KeyError {A B : Type} (f : A -> result B) (l : list A) :
  (forall a, a ∈ l -> f a = Raise KeyError \/ exists b, f a = Ok b) ->
  mapM f l = Raise KeyError \/ exists r, mapM f l = Ok r.
Proof.
  induction l as [|a l IH]; intros Hf; simpl; [right; eauto|].
  destruct (Hf a) as [->|[b ->]]; [left|by left|]. simpl.
  destruct IH as [->|[r ->]]; [intros; apply Hf; by right|by left|].
  right. eauto.
Qed.

Lemma sequence_object_row_Ok (reascan_boxes : bool)
    (colors nouns : list string) (o : PositionedObject) (r : list Z) :
  sequence_object_row reascan_boxes (word2idx colors) (word2idx nouns) o
  = Ok r ->
  in_vocabulary reascan_boxes colors nouns o
  /\ length r = (if reascan_boxes then 10 else 7)%nat
  /\ r !! 5%nat = Some (row (position o))
  /\ r !! 6%nat = Some (column (position o)).
Proof.
  unfold sequence_object_row, in_vocabulary. intros Hr.
  destruct reascan_boxes; [destruct (is_box o) eqn:Hbox|]; simpl in Hr.
  - apply bind_Ok in Hr as (c & Hc%dict_get_word2idx_Ok & [= <-]).
    split; [split; [done|by left]|done].
  - apply bind_Ok in Hr as (c & Hc%dict_get_word2idx_Ok & Hr).
    apply bind_Ok in Hr as (n & Hn%dict_get_word2idx_Ok & [= <-]).
    split; [split; [done|by right]|done].
  - apply bind_Ok in Hr as (c & Hc%dict_get_word2idx_Ok & Hr).
    apply bind_Ok in Hr as (n & Hn%dict_get_word2idx_Ok & [= <-]).
    split; [split; [done|by right]|done].
Qed.

Lemma sequence_object_row_KeyError (reascan_boxes : bool)
    (colors nouns : list string) (o : PositionedObject) :
  sequence_object_row reascan_boxes (word2idx colors) (word2idx nouns) o
  = Raise KeyError
  \/ exists r,
       sequence_object_row reascan_boxes (word2idx colors) (word2idx nouns) o
       = Ok r.
Proof.
  unfold sequence_object_row, dict_get.
  destruct reascan_boxes; [destruct (is_box o)|]; simpl;
    destruct (word2idx colors !! color (object o)); simpl;
    try (by left); try (right; by eauto);
    destruct (word2idx nouns !! shape (object o)); simpl;
    try (by left); right; by eauto.
Qed.


(** ** The "all" encoding *)

Lemma foldlM_invariant {A B : Type} (P : A -> Prop) (f : A -> B -> result A)
    (l : list B) (a a' : A) :
  (forall a b a', P a -> f a b = Ok a' -> P a') ->
  P a -> foldlM f a l = Ok a' -> P a'.
Proof.
  intros Hstep. revert a. induction l as [|b l IH]; intros a Ha; simpl.
  - by intros [= <-].
  - intros (a1 & H1 & Hrest)%bind_Ok. eapply IH; [|done]. by eapply Hstep.
Qed.

Lemma set_channel_shape (cells width k ch : nat) (v : Z)
    (grid : list (list Z)) :
  grid_shape cells width grid ->
  grid_shape cells width (set_channel k ch v grid).
Proof.
  intros [Hlen Hall]. unfold set_channel. split.
  - by rewrite length_alter.
  - apply Forall_alter; [done|]. intros cell _ Hcell.
    by rewrite length_insert.
Qed.

Lemma all_place_object_shape (cells width : nat) (reascan_boxes : bool)
    (grid_size : Z) (color2idx noun2idx : gmap string Z)
    (grid grid' : list (list Z)) (o : PositionedObject) :
  grid_shape cells width grid ->
  all_place_object reascan_boxes grid_size color2idx noun2idx grid o
  = Ok grid' ->
  grid_shape cells width grid'.
Proof.
  intros Hshape. unfold all_place_object.
  intros (k & _ & Hplace)%bind_Ok.
  destruct (reascan_boxes && is_box o).
  - apply bind_Ok in Hplace as (c & _ & [= <-]).
    by repeat apply set_channel_shape.
  - apply bind_Ok in Hplace as (c & _ & Hplace).
    apply bind_Ok in Hplace as (n & _ & [= <-]).
    by repeat apply set_channel_shape.
Qed.

(** X13.  The "all" encoding of a situation, when it succeeds, has one row
    per cell of the grid, in row-major order, each with the 5 attribute
    slots (8 in the container mode) followed by the row and the column of
    the cell, both counted from 1. *)
Theorem all_encoding_shape (s : Situation) (grid_size : Z)
    (color2idx noun2idx : gmap string Z) (reascan_boxes : bool)
    (rows : list (list Z)) :
  parse_sparse_situation s grid_size color2idx noun2idx SchemeAll
    reascan_boxes = Ok rows ->
  let channels := (if reascan_boxes then 8 else 5)%nat in
  0 <= grid_size
  /\ length rows = (Z.to_nat grid_size * Z.to_nat grid_size)%nat
  /\ forall (k : nat) (r : list Z),
       rows !! k = Some r ->
       length r = (channels + 2)%nat
       /\ r !! channels = Some (Z.of_nat (k / Z.to_nat grid_size) + 1)
       /\ r !! S channels = Some (Z.of_nat (k mod Z.to_nat grid_size) + 1).
Proof.
  intros Hrows channels. unfold parse_sparse_situation in Hrows.
  destruct (Z.ltb_spec grid_size 0) as [|Hsize]; [done|].
  split; [done|].
  apply bind_Ok in Hrows as (ka & _ & Hrows).
  apply bind_Ok in Hrows as (grid & Hgrid & [= <-]).
  assert (grid_shape (Z.to_nat grid_size * Z.to_nat grid_size) channels grid)
    as [Hlen Hall].
  { eapply foldlM_invariant; [|  |exact Hgrid].
    - intros ???. apply all_place_object_shape.
    - split.
      + by rewrite length_insert, length_replicate.
      + apply Forall_insert.
        * apply Forall_replicate. rewrite length_replicate.
          by destruct reascan_boxes.
        * rewrite length_app, length_replicate. by destruct reascan_boxes. }
  unfold add_positional_information_to_grid.
  split; [by rewrite length_imap|].
  intros k r Hr. rewrite list_lookup_imap in Hr.
  destruct (grid !! k) as [cell|] eqn:Hcell; [|done].
  injection Hr as <-.
  assert (length cell = channels) as Hc.
  { eapply Forall_lookup_1 in Hall; [|done]. done. }
  rewrite length_app, Hc. split; [simpl; lia|].
  split.
  - rewrite lookup_app_r by lia. by rewrite Hc, Nat.sub_diag.
  - rewrite lookup_app_r by lia. rewrite Hc.
    by replace (S channels - channels)%nat with 1%nat by lia.
Qed.

Lemma all_encoding_shape_witness :
  exists rows,
    parse_sparse_situation Examples.circle_world 6
      (word2idx Examples.colors) (word2idx Examples.nouns) SchemeAll false
    = Ok rows
    /\ length rows = 36%nat
    /\ rows !! 15%nat = Some [1; 3; 1; 0; 0; 3; 4].
Proof.
  eexists. split; [by vm_compute|]. split; [|by vm_compute].
  eapply (all_encoding_shape Examples.circle_world 6
            (word2idx Examples.colors) (word2idx Examples.nouns) false).
  by vm_compute.
Defined.

(** ** Coordinates outside the grid *)

Lemma np_index_Ok (n i : Z) (k : nat) :
  np_index n i = Ok k ->
  - n <= i < n /\ np_index n (i mod n) = Ok k.
Proof.
  unfold np_index.
  destruct (Z.leb_spec 0 i), (Z.ltb_spec i n); simpl;
    try (intros [= <-]; split; [lia|];
         rewrite Z.mod_small by lia;
         destruct (Z.leb_spec 0 i), (Z.ltb_spec i n); simpl; (done || lia)).
  all: destruct (Z.leb_spec (- n) i), (Z.ltb_spec i 0); simpl; try done;
    try lia.
  all: intros [= <-]; split; [lia|];
    replace (i mod n) with (i + n)
      by (apply Z.mod_unique with (q := -1); lia);
    destruct (Z.leb_spec 0 (i + n)), (Z.ltb_spec (i + n) n); simpl;
    (done || lia).
Qed.

Lemma cell_index_Ok (grid_size r c : Z) (k : nat) :
  cell_index grid_size r c = Ok k ->
  (- grid_size <= r < grid_size /\ - grid_size <= c < grid_size)
  /\ cell_index grid_size (r mod grid_size) (c mod grid_size) = Ok k.
Proof.
  unfold cell_index.
  intros (i & [Hr Hi]%np_index_Ok & Hk)%bind_Ok.
  apply bind_Ok in Hk as (j & [Hc Hj]%np_index_Ok & [= <-]).
  split; [done|]. rewrite Hi. simpl. rewrite Hj. done.
Qed.

Lemma all_place_object_wrap (reascan_boxes : bool) (grid_size : Z)
    (color2idx noun2idx : gmap string Z) (grid grid' : list (list Z))
    (o : PositionedObject) :
  all_place_object reascan_boxes grid_size color2idx noun2idx grid o
  = Ok grid' ->
  (- grid_size <= row (position o) < grid_size
   /\ - grid_size <= column (position o) < grid_size)
  /\ all_place_object reascan_boxes grid_size color2idx noun2idx grid
       (wrap_object grid_size o) = Ok grid'.
Proof.
  unfold all_place_object.
  intros (k & [Hvalid Hk]%cell_index_Ok & Hplace)%bind_Ok.
  split; [done|]. simpl. rewrite Hk. done.
Qed.

Lemma all_place_objects_wrap (reascan_boxes : bool) (grid_size : Z)
    (color2idx noun2idx : gmap string Z) (objs : list PositionedObject)
    (grid grid' : list (list Z)) :
  foldlM (all_place_object reascan_boxes grid_size color2idx noun2idx)
         grid objs = Ok grid' ->
  Forall (fun o => - grid_size <= row (position o) < grid_size
                   /\ - grid_size <= column (position o) < grid_size) objs
  /\ foldlM (all_place_object reascan_boxes grid_size color2idx noun2idx)
            grid (map (wrap_object grid_size) objs) = Ok grid'.
Proof.
  revert grid. induction objs as [|o objs IH]; intros grid; simpl.
  { intros [= <-]. by split. }
  intros (grid1 & [Hvalid Ho]%all_place_object_wrap & Hrest)%bind_Ok.
  apply IH in Hrest as [Hall Hrest]. split; [by constructor|].
  rewrite Ho. done.
Qed.

(** X14.  Coordinates outside the grid in the "all" encoding: the cell of
    the agent and of each object is addressed like an array, so the
    encoding succeeds only if every row and column lies between
    [-grid_size] and [grid_size - 1], and a negative coordinate counts from
    the far edge: the result is the encoding of the situation whose
    coordinates are reduced modulo the grid size. *)
Theorem all_encoding_wraps (s : Situation) (grid_size : Z)
    (color2idx noun2idx : gmap string Z) (reascan_boxes : bool)
    (rows : list (list Z)) :
  parse_sparse_situation s grid_size color2idx noun2idx SchemeAll
    reascan_boxes = Ok rows ->
  let addressable (p : Position) :=
    - grid_size <= row p < grid_size /\ - grid_size <= column p < grid_size in
  addressable (agent_pos s)
  /\ Forall (fun o => addressable (position o)) (placed_objects s)
  /\ parse_sparse_situation (wrap_situation grid_size s) grid_size color2idx
       noun2idx SchemeAll reascan_boxes = Ok rows.
Proof.
  intros Hrows addressable. unfold parse_sparse_situation in *.
  destruct (Z.ltb_spec grid_size 0) as [|Hsize]; [done|].
  apply bind_Ok in Hrows as (ka & [Hagent Hka]%cell_index_Ok & Hrows).
  apply bind_Ok in Hrows as (grid & [Hall Hgrid]%all_place_objects_wrap
                             & [= <-]).
  split; [done|]. split; [done|]. simpl.
  rewrite Hka. simpl. rewrite Hgrid. done.
Qed.

Lemma all_encoding_wraps_witness :
  exists rows,
    parse_sparse_situation
      (mkSituation 6 (mkPosition (-1) 0) 0
         (Examples.placed 1 "red" "circle" 2 3)
         [Examples.placed 1 "red" "circle" 2 3])
      6 (word2idx Examples.colors) (word2idx Examples.nouns) SchemeAll false
    = Ok rows
    /\ parse_sparse_situation
         (mkSituation 6 (mkPosition 5 0) 0
            (Examples.placed 1 "red" "circle" 2 3)
            [Examples.placed 1 "red" "circle" 2 3])
         6 (word2idx Examples.colors) (word2idx Examples.nouns) SchemeAll
         false
       = Ok rows.
Proof.
  eexists. split; [vm_compute; reflexivity|].
  eapply (all_encoding_wraps
            (mkSituation 6 (mkPosition (-1) 0) 0
               (Examples.placed 1 "red" "circle" 2 3)
               [Examples.placed 1 "red" "circle" 2 3])
            6 (word2idx Examples.colors) (word2idx Examples.nouns) false).
  vm_compute. reflexivity.
Defined.

(** ** The oracle strategy as the configurations run it *)

Lemma oracle_configuration (name yield_func : string)
    (options : GenerationOptions) :
  (name, (yield_func, "generate_oracle", options)) ∈ GENERATION_CONFIGS ->
  (opt_n_description_options options = None
   \/ exists n, opt_n_description_options options = Some n /\ 1 <= n)
  /\ default 16 (opt_num_demos options) = 16.
Proof.
  unfold GENERATION_CONFIGS. intros Hin.
  repeat (apply elem_of_cons in Hin as [Hin|Hin];
          [first [ discriminate Hin
                 | injection Hin as _ _ ->; simpl; split; [|done];
                   first [by left|right; eexists; split; [done|lia]] ]
          |]).
  by apply elem_of_nil in Hin.
Qed.

(** X15.  No configuration of [GENERATION_CONFIGS] that runs the oracle
    strategy ever skips a data point: with the options of such a
    configuration and the payload of any split, [generate_oracle] never
    returns the message that no demonstration is possible; what it returns
    is between 1 and 16 support instructions, as many support targets, and
    no support layout. *)
Theorem oracle_strategy_never_skips
    (demonstrate : list string -> list string -> list string ->
                   PositionedObject -> Situation -> result (list string))
    (permutation : nat -> list nat)
    (command : list string) (situation : Situation)
    (colors nouns : list string) (current_split name yield_func : string)
    (options : GenerationOptions) :
  (forall n, permutation n ≡ₚ seq 0 n) ->
  (name, (yield_func, "generate_oracle", options)) ∈ GENERATION_CONFIGS ->
  let generated :=
    generate_relevant_supports_oracle demonstrate permutation command
      situation (generate_oracle_payload colors nouns current_split)
      options in
  generated ≠ Ok None
  /\ forall sup,
       generated = Ok (Some sup) ->
       sup.1.1 ≠ [] /\ Z.of_nat (length sup.1.1) <= 16
       /\ length sup.1.2 = length sup.1.1 /\ sup.2 = [].
Proof.
  intros Hperm [Hn Hdemos]%oracle_configuration generated.
  unfold generated, generate_relevant_supports_oracle,
    generate_oracle_payload.
  set (o := mkOracleOptions _ _ _ _ _ _ _).
  destruct (oracle_proposes permutation command situation nouns colors o
              Hperm Hn) as (res & Hres & Hne & Hlen).
  { simpl. rewrite Hdemos. lia. }
  simpl in Hlen. rewrite Hdemos in Hlen.
  rewrite Hres. simpl. destruct res as [|r res]; [done|]. simpl negb.
  cbv iota.
  destruct (mapM _ (r :: res)) as [targets|e] eqn:Htargets; simpl;
    [|by split].
  split; [done|]. intros sup [= <-]. simpl.
  apply mapM_Ok_length in Htargets. rewrite Htargets. simpl in *.
  rewrite length_fmap. split; [done|]. split; [lia|]. done.
Qed.

Lemma oracle_strategy_never_skips_witness :
  exists sup,
    generate_relevant_supports_oracle
      (fun _ _ _ _ _ => Ok ["walk"]) Examples.identity_permutation
      Examples.circle_query Examples.circle_world
      (generate_oracle_payload Examples.colors Examples.nouns "train")
      (mkGenerationOptions (Some 1) None None None None (Some true)
         (Some true))
    = Ok (Some sup)
    /\ Z.of_nat (length sup.1.1) <= 16.
Proof.
  eexists. split; [vm_compute; reflexivity|].
  eapply (oracle_strategy_never_skips
            (fun _ _ _ _ _ => Ok ["walk"]) Examples.identity_permutation
            Examples.circle_query Examples.circle_world Examples.colors
            Examples.nouns "train" "metalearn" "metalearning").
  - intros n. reflexivity.
  - right. left.
  - vm_compute. reflexivity.
Defined.

(** ** Supports found by the instructions of the oracle *)

(** An index of a bucket of the command index names an example with the
    command text of the bucket. *)
Lemma command_bucket_example (train_examples : list Example) (key : string)
    (bucket : list nat) (i : nat) :
  sort_indices_by_command train_examples !! key = Some bucket ->
  i ∈ bucket ->
  exists e, train_examples !! i = Some e /\ command_text e = key.
Proof.
  intros Hb Hi.
  pose proof (sort_indices_by_command_bucket train_examples key) as Hbucket.
  rewrite Hb in Hbucket. simpl in Hbucket. rewrite Hbucket in Hi.
  apply list_elem_of_filter in Hi as [Hk _].
  destruct (train_examples !! i) as [e|]; [|done].
  exists e. split; [done|]. by injection Hk.
Qed.

Lemma omap_length_le {A B : Type} (f : A -> option B) (l : list A) :
  (length (omap f l) <= length l)%nat.
Proof.
  induction l as [|x l IH]; [done|]. csimpl.
  destruct (f x); simpl; lia.
Qed.

(** X16.  The strategy [generate_find_matching] on the payload that [main]
    builds: every support it returns pairs an instruction proposed by the
    oracle, hence different from the query, with the action sequence and
    the layout of a training example whose command text is that
    instruction; the three lists have the same length, at most 16 whatever
    [num_demos] the configuration sets. *)
Theorem find_matching_supports_sound (permutation : nat -> list nat)
    (draw : nat -> nat) (query_command : list string) (s : Situation)
    (train_examples : list Example) (colors nouns : list string)
    (current_split : string) (options : GenerationOptions) (sup : Supports) :
  generate_instructions_find_support_in_any_layout permutation draw
    query_command s
    (generate_oracle_find_any_matching_payload train_examples colors nouns
       current_split)
    options = Ok sup ->
  exists found : list (list string * Example),
    sup = (found.*1,
           map (fun e => parse_command_repr (target_commands e)) found.*2,
           map situation found.*2)
    /\ Z.of_nat (length found) <= 16
    /\ Forall (fun se =>
                 se.2 ∈ train_examples
                 /\ command_text se.2 = str_join " " se.1
                 /\ se.1 ≠ query_command)
              found.
Proof.
  unfold generate_instructions_find_support_in_any_layout,
    generate_oracle_find_any_matching_payload.
  intros (res & Hres & Hsup)%bind_Ok.
  apply bind_Ok in Hsup as (found & Hfound & [= <-]).
  exists (omap id found). split.
  { unfold support_layouts_of. f_equal. f_equal.
    by rewrite <- list_fmap_compose. }
  apply mapM_Ok_Forall2 in Hfound.
  split.
  - apply oracle_length_le in Hres as Hlen; [|simpl; lia]. simpl in Hlen.
    apply Forall2_length in Hfound. rewrite enumerate_length in Hfound.
    pose proof (omap_length_le id found) as Hle.
    lia.
  - apply Forall_forall. intros [ins e] Hin.
    apply list_elem_of_omap in Hin as (x & [k Hk]%list_elem_of_lookup_1 & Hx).
    simpl in Hx. subst x.
    destruct (Forall2_lookup_r _ _ _ _ _ Hfound Hk)
      as ([j [ins' tgt]] & Hj & Hrun).
    destruct (sort_indices_by_command train_examples !! str_join " " ins')
      as [bucket|] eqn:Hb; [|done].
    destruct (bucket !! (draw j mod length bucket)%nat) as [idx|] eqn:Hidx;
      [|done].
    apply bind_Ok in Hrun as (e' & He' & [= -> ->]).
    unfold get_example in He'.
    destruct (train_examples !! idx) as [e0|] eqn:He0; [|done].
    injection He' as ->.
    destruct (command_bucket_example train_examples _ bucket idx Hb)
      as (e1 & He1 & Hcmd); [by eapply list_elem_of_lookup_2|].
    assert (e1 = e) as -> by congruence.
    simpl. split; [by eapply list_elem_of_lookup_2|]. split; [done|].
    rewrite enumerate_lookup in Hj.
    destruct (res !! k) as [r|] eqn:Hr; [|done]. injection Hj as <- ->.
    eapply support_instructions_differ.
    eapply (oracle_returns_supports _ _ _ _ _ _ _ Hres).
    by eapply list_elem_of_lookup_2.
Qed.

Lemma find_matching_supports_sound_witness :
  exists found : list (list string * Example),
    ([["walk"; "to"; "a"; "red"; "circle"]], [["walk"; "walk"]],
     [Examples.one_circle])
    = (found.*1,
       map (fun e => parse_command_repr (target_commands e)) found.*2,
       map situation found.*2)
    /\ Z.of_nat (length found) <= 16
    /\ Forall (fun se =>
                 se.2 ∈ Examples.train_examples
                 /\ command_text se.2 = str_join " " se.1
                 /\ se.1 ≠ Examples.push_query)
              found.
Proof.
  apply (find_matching_supports_sound Examples.identity_permutation
           Examples.first_draw Examples.push_query Examples.one_circle
           Examples.train_examples Examples.colors Examples.nouns "train"
           (mkGenerationOptions None None None None None (Some true)
              (Some false))).
  vm_compute. reflexivity.
Defined.

(** ** Supports with the same target at the same offset *)

Lemma bucket5_append5 (x y sz : Z) (sh c : string) (i : nat)
    (m : DiffDescriptionIndex) :
  bucket5 (bucket_append5 x y sz sh c i m) x y sz sh c
  = bucket5 m x y sz sh c ++ [i].
Proof.
  unfold bucket5, bucket_append5, bucket_append, DiffDescriptionIndex in *.
  cbv zeta. repeat (rewrite lookup_insert_eq; simpl). done.
Qed.

Lemma bucket5_append5_ne (x y sz : Z) (sh c : string)
    (x' y' sz' : Z) (sh' c' : string) (i : nat) (m : DiffDescriptionIndex) :
  (x, y, sz, sh, c) ≠ (x', y', sz', sh', c') ->
  bucket5 (bucket_append5 x y sz sh c i m) x' y' sz' sh' c'
  = bucket5 m x' y' sz' sh' c'.
Proof.
  intros Hne.
  unfold bucket5, bucket_append5, bucket_append, DiffDescriptionIndex in *.
  cbv zeta.
  destruct (decide (x = x')) as [<-|?];
    [|by rewrite (lookup_insert_ne m)].
  rewrite lookup_insert_eq. simpl.
  destruct (decide (y = y')) as [<-|?];
    [|by rewrite (lookup_insert_ne (default ∅ (m !! x)))].
  rewrite lookup_insert_eq. simpl.
  destruct (decide (sz = sz')) as [<-|?];
    [|by rewrite (lookup_insert_ne
                    (default ∅ (default ∅ (m !! x) !! y)))].
  rewrite lookup_insert_eq. simpl.
  destruct (decide (sh = sh')) as [<-|?];
    [|by rewrite (lookup_insert_ne
                    (default ∅ (default ∅ (default ∅ (m !! x) !! y)
                                  !! sz)))].
  rewrite lookup_insert_eq. simpl.
  rewrite lookup_insert_ne; [done|]. congruence.
Qed.

Section diff_description_index.

Let key := fun e : Example =>
  (column (position (target_object (situation e)))
   - column (agent_pos (situation e)),
   row (position (target_object (situation e)))
   - row (agent_pos (situation e)),
   size_ (object (target_object (situation e))),
   shape (object (target_object (situation e))),
   color (object (target_object (situation e)))).
Let read := fun (m : DiffDescriptionIndex)
                (k : Z * Z * Z * string * string) =>
  bucket5 m k.1.1.1.1 k.1.1.1.2 k.1.1.2 k.1.2 k.2.
Let append := fun (k : Z * Z * Z * string * string) =>
  bucket_append5 k.1.1.1.1 k.1.1.1.2 k.1.1.2 k.1.2 k.2.

Lemma diff_description_bucket_sorted (examples : list Example)
    (x y sz : Z) (sh c : string) :
  StronglySorted lt
    (bucket5 (sort_indices_by_target_diff_and_description examples)
       x y sz sh c).
Proof.
  refine (bucket_index_sorted ∅ read append key _ _ _ examples
            (x, y, sz, sh, c)).
  - done.
  - intros [[[[??]?]?]?] ??. apply bucket5_append5.
  - intros [[[[??]?]?]?] [[[[??]?]?]?] ???. by apply bucket5_append5_ne.
Qed.

(** A bucket of the index by offset and description holds the positions of
    the examples with that offset and that target. *)
Lemma diff_description_bucket_elem_of (examples : list Example)
    (x y sz : Z) (sh c : string) (i : nat) :
  i ∈ bucket5 (sort_indices_by_target_diff_and_description examples)
        x y sz sh c
  <-> exists e,
        examples !! i = Some e
        /\ column (position (target_object (situation e)))
           - column (agent_pos (situation e)) = x
        /\ row (position (target_object (situation e)))
           - row (agent_pos (situation e)) = y
        /\ object (target_object (situation e)) = mkObject sz c sh.
Proof.
  etrans;
    [refine (bucket_index_elem_of ∅ read append key _ _ _ examples
               (x, y, sz, sh, c) i)|].
  - done.
  - intros [[[[??]?]?]?] ??. apply bucket5_append5.
  - intros [[[[??]?]?]?] [[[[??]?]?]?] ???. by apply bucket5_append5_ne.
  - unfold key. split; intros (e & He & Hk); exists e; (split; [done|]).
    + injection Hk as <- <- <- <- <-.
      by destruct (object (target_object (situation e))).
    + destruct Hk as (<- & <- & Ho). rewrite Ho. done.
Qed.

End diff_description_index.

Lemma random_choice_no_replace_spec {A : Type} (shuffle : list A -> list A)
    (a : list A) (size : Z) (r : list A) :
  shuffle a ≡ₚ a ->
  random_choice_no_replace shuffle a size = Ok r ->
  0 <= size /\ Z.of_nat (length r) = size /\ r ⊆ a /\ (NoDup a -> NoDup r).
Proof.
  intros Hshuffle. unfold random_choice_no_replace.
  destruct (Z.ltb_spec size 0); [done|].
  destruct (Z.ltb_spec (Z.of_nat (length a)) size); [done|].
  intros [= <-]. split; [done|]. split; [|split].
  - rewrite length_take, Hshuffle. lia.
  - intros x Hx%subseteq_take. by rewrite Hshuffle in Hx.
  - intros Hnd. eapply sublist_NoDup; [|apply sublist_take].
    by rewrite Hshuffle.
Qed.

Lemma StronglySorted_lt_NoDup (l : list nat) : StronglySorted lt l -> NoDup l.
Proof.
  induction 1 as [|x l _ IH Hall]; constructor; [|done].
  intros Hx. rewrite Forall_forall in Hall. specialize (Hall x Hx). lia.
Qed.

(** X17.  The strategy of the supports with the same target at the same
    offset, run on the payload that [main] builds, with any shuffle that
    rearranges its argument: the supports are drawn without replacement, so
    they are read off pairwise distinct training examples; each of them has
    a target of the same size, color and shape as the query's target, at
    the same offset from its agent, and a command text other than the
    query's; there are at most [num_demos] of them. *)
Theorem same_object_supports_sound (shuffle : list nat -> list nat)
    (query_command : list string) (s : Situation)
    (train_examples : list Example) (num_demos : Z) (sup : Supports) :
  (forall l, shuffle l ≡ₚ l) ->
  let payload :=
    find_supports_by_matching_object_in_same_diff_payload train_examples in
  find_supports_by_matching_object_in_same_diff shuffle query_command s
    payload.1.1 payload.1.2 payload.2 num_demos = Ok sup ->
  exists (demos : list nat) (examples : list Example),
    NoDup demos
    /\ Forall2 (fun i e => train_examples !! i = Some e) demos examples
    /\ sup = (map (fun e => parse_command_repr (command e)) examples,
              map (fun e => parse_command_repr (target_commands e)) examples,
              map situation examples)
    /\ Z.of_nat (length examples) <= num_demos
    /\ Forall (fun e =>
                 object (target_object (situation e))
                 = object (target_object s)
                 /\ column (position (target_object (situation e)))
                    - column (agent_pos (situation e))
                    = column (position (target_object s))
                      - column (agent_pos s)
                 /\ row (position (target_object (situation e)))
                    - row (agent_pos (situation e))
                    = row (position (target_object s)) - row (agent_pos s)
                 /\ command_text e ≠ str_join " " query_command)
              examples.
Proof.
  intros Hshuffle payload. unfold payload.
  unfold find_supports_by_matching_object_in_same_diff_payload,
    find_supports_by_matching_object_in_same_diff. simpl.
  intros Hsup.
  apply bind_Ok in Hsup as (kept & Hkept & Hsup).
  apply bind_Ok in Hsup as (relevant & Hrel & Hsup).
  apply random_choice_no_replace_spec in Hrel as (_ & Hlen & Hsub & Hnd);
    [|done].
  apply supports_of_examples_Ok in Hsup as (examples & Hex & ->).
  exists relevant, examples.
  assert (NoDup kept) as Hkept_nd.
  { unfold exclude_same_command in Hkept.
    destruct (bucket5 _ _ _ _ _ _) as [|p ps] eqn:Hb;
      [injection Hkept as <-; constructor|].
    destruct (_ !! _); [|done]. injection Hkept as <-.
    apply NoDup_filter. rewrite <- Hb.
    apply StronglySorted_lt_NoDup, diff_description_bucket_sorted. }
  split; [by apply Hnd|]. split; [done|]. split; [done|]. split.
  { apply Forall2_length in Hex. lia. }
  apply Forall_forall. intros e He.
  apply list_elem_of_lookup_1 in He as [k Hk].
  destruct (Forall2_lookup_r _ _ _ _ _ Hex Hk) as (p & Hp & Hpe).
  assert (p ∈ kept) as Hin by (eapply Hsub, list_elem_of_lookup_2, Hp).
  destruct (exclude_same_command_kept _ _ _ _ _ Hkept Hin) as [Hcand Hcmd].
  apply diff_description_bucket_elem_of in Hcand as (e' & He' & Hx & Hy & Ho).
  assert (e' = e) as -> by congruence.
  split; [|split; [done|split; [done|by apply Hcmd]]].
  rewrite Ho. by destruct (object (target_object s)).
Qed.

Lemma same_object_supports_sound_witness :
  exists (demos : list nat) (examples : list Example),
    NoDup demos
    /\ Forall2 (fun i e => Examples.train_examples !! i = Some e) demos
         examples
    /\ ([["walk"; "to"; "a"; "red"; "circle"]], [["walk"; "walk"]],
        [Examples.one_circle])
       = (map (fun e => parse_command_repr (command e)) examples,
          map (fun e => parse_command_repr (target_commands e)) examples,
          map situation examples)
    /\ Z.of_nat (length examples) <= 16
    /\ Forall (fun e =>
                 object (target_object (situation e))
                 = object (target_object Examples.one_circle)
                 /\ column (position (target_object (situation e)))
                    - column (agent_pos (situation e)) = 3 - 0
                 /\ row (position (target_object (situation e)))
                    - row (agent_pos (situation e)) = 2 - 0
                 /\ command_text e ≠ str_join " " Examples.push_query)
              examples.
Proof.
  apply (same_object_supports_sound (fun l => l) Examples.push_query
           Examples.one_circle Examples.train_examples 16).
  - intros l. reflexivity.
  - vm_compute. reflexivity.
Defined.

(** ** Commands as text *)

Lemma str_split_nonempty (sep : Ascii.ascii) (s : string) :
  str_split sep s ≠ [].
Proof.
  destruct s as [|c s]; simpl; [done|].
  destruct (Ascii.eqb c sep); [done|]. by destruct (str_split sep s).
Qed.

Lemma str_join_split (sep : Ascii.ascii) (s : string) :
  str_join (String sep EmptyString) (str_split sep s) = s.
Proof.
  induction s as [|c s IH]; [done|]. simpl.
  destruct (Ascii.eqb_spec c sep) as [->|Hne].
  - pose proof (str_split_nonempty sep s) as Hne.
    destruct (str_split sep s) as [|w ws] eqn:Hs; [done|].
    simpl in *. by rewrite IH.
  - destruct (str_split sep s) as [|w ws] eqn:Hs.
    { by apply str_split_nonempty in Hs. }
    simpl in *. destruct ws; simpl in *; by rewrite <- IH.
Qed.

Lemma str_split_free (sep : Ascii.ascii) (s : string) :
  Forall (fun w => str_contains sep w = false) (str_split sep s).
Proof.
  induction s as [|c s IH]; simpl; [by repeat constructor|].
  destruct (Ascii.eqb_spec c sep) as [->|Hne].
  - by constructor.
  - destruct (str_split sep s) as [|w ws]; [|inversion IH; subst];
      constructor; simpl; try done;
      by rewrite (proj2 (Ascii.eqb_neq _ _) Hne).
Qed.

Lemma str_split_free_word (sep : Ascii.ascii) (w : string) :
  str_contains sep w = false -> str_split sep w = [w].
Proof.
  induction w as [|c w IH]; simpl; [done|].
  intros [Hc Hw]%orb_false_iff. rewrite Hc. by rewrite IH.
Qed.

Lemma str_split_app (sep : Ascii.ascii) (w rest : string) :
  str_contains sep w = false ->
  str_split sep (w ++ String sep rest)%string = w :: str_split sep rest.
Proof.
  induction w as [|c w IH]; simpl.
  - intros _. by rewrite Ascii.eqb_refl.
  - intros [Hc Hw]%orb_false_iff. rewrite Hc. by rewrite IH.
Qed.

Lemma str_split_join (sep : Ascii.ascii) (tokens : list string) :
  tokens ≠ [] ->
  Forall (fun w => str_contains sep w = false) tokens ->
  str_split sep (str_join (String sep EmptyString) tokens) = tokens.
Proof.
  induction tokens as [|w tokens IH]; [done|]. intros _ Hfree.
  inversion Hfree as [|? ? Hw Htokens]; subst.
  destruct tokens as [|w' tokens].
  - simpl. by apply str_split_free_word.
  - change (str_join (String sep EmptyString) (w :: w' :: tokens))
      with (w ++ String sep
                   (str_join (String sep EmptyString) (w' :: tokens)))%string.
    rewrite str_split_app by done. by rewrite IH.
Qed.

(** X18.  [parse_command_repr] and joining with commas are inverse of each
    other: the tokens of a command are never none (the empty command has
    one empty token), contain no comma and give the command back when
    joined with commas; conversely a non-empty list of comma-free tokens is
    recovered from its comma-joined text. *)
Theorem parse_command_repr_round_trip :
  (forall command_repr : string,
     parse_command_repr command_repr ≠ []
     /\ Forall (fun w => str_contains ","%char w = false)
               (parse_command_repr command_repr)
     /\ str_join "," (parse_command_repr command_repr) = command_repr)
  /\ (forall tokens : list string,
        tokens ≠ [] ->
        Forall (fun w => str_contains ","%char w = false) tokens ->
        parse_command_repr (str_join "," tokens) = tokens).
Proof.
  unfold parse_command_repr. split.
  - intros s. split; [apply str_split_nonempty|].
    split; [apply str_split_free|apply str_join_split].
  - apply str_split_join.
Qed.

(** ** The baseline examples *)

Lemma add_eos_to_actions_cons (a : Z) (actions : list Z) (eos : Z) :
  add_eos_to_actions (a :: actions) eos = (a :: actions) ++ [eos].
Proof.
  unfold add_eos_to_actions. simpl. by destruct eos.
Qed.

(** X19.  The end marker of the action sequences.  [add_eos_to_actions]
    appends the marker once to a sequence that has an element and leaves
    the empty sequence empty.  In [yield_baseline_examples] the sequence is
    never empty, since a command has at least one token: there is one
    triple per example, in order, made of the indices of the tokens of the
    command, the indices of the tokens of the action sequence followed by
    exactly one end marker, and the encoding of the situation for its own
    grid size. *)
Theorem baseline_examples_end_marker (situations : list Example)
    (instruction_word2idx action_word2idx color2idx noun2idx : gmap string Z)
    (world_encoding_scheme : Scheme) (reascan_boxes : bool)
    (triples : list (list Z * list Z * list (list Z))) :
  yield_baseline_examples situations instruction_word2idx action_word2idx
    color2idx noun2idx world_encoding_scheme reascan_boxes = Ok triples ->
  (forall eos, add_eos_to_actions [] eos = [])
  /\ Forall2
       (fun e triple =>
          mapM (dict_get instruction_word2idx)
               (parse_command_repr (command e)) = Ok triple.1.1
          /\ (exists actions eos,
                mapM (dict_get action_word2idx)
                     (parse_command_repr (target_commands e)) = Ok actions
                /\ action_word2idx !! "[eos]" = Some eos
                /\ actions ≠ []
                /\ triple.1.2 = actions ++ [eos])
          /\ parse_sparse_situation (situation e) (grid_size (situation e))
               color2idx noun2idx world_encoding_scheme reascan_boxes
             = Ok triple.2)
       situations triples.
Proof.
  intros Hyield. split; [done|].
  unfold yield_baseline_examples in Hyield.
  apply mapM_Ok_Forall2 in Hyield.
  eapply Forall2_impl; [exact Hyield|]. clear Hyield.
  intros e [[instruction target] layout] Hrun. simpl.
  apply bind_Ok in Hrun as ([ins acts] & Hlab & Hrun).
  apply bind_Ok in Hrun as (world_layout & Hlayout & Hrun).
  apply bind_Ok in Hrun as (eos & Heos & [= <- <- <-]).
  unfold labelled_situation_to_demonstration_tuple in Hlab.
  apply bind_Ok in Hlab as (ins' & Hins & Hlab).
  apply bind_Ok in Hlab as (acts' & Hacts & [= <- <-]).
  split; [done|]. split; [|done].
  exists acts', eos. split; [done|].
  unfold dict_get in Heos.
  destruct (action_word2idx !! "[eos]") as [z|]; [|done].
  injection Heos as ->. split; [done|].
  assert (acts' ≠ []) as Hne.
  { apply mapM_Ok_length in Hacts. intros ->. simpl in Hacts.
    symmetry in Hacts. apply length_zero_iff_nil in Hacts.
    by apply str_split_nonempty in Hacts. }
  split; [done|]. destruct acts'; [done|].
  apply add_eos_to_actions_cons.
Qed.

Lemma baseline_examples_end_marker_witness :
  exists triples,
    yield_baseline_examples
      [mkExample "walk,to,a,red,circle" "walk,walk" Examples.one_circle]
      (word2idx ["a"; "circle"; "red"; "to"; "walk"])
      (<["[eos]" := 3]> (word2idx ["walk"]))
      (word2idx Examples.colors) (word2idx Examples.nouns) SchemeSequence
      false
    = Ok triples
    /\ triples.*1.*2 = [[1; 1; 3]]
    /\ Forall2
         (fun e triple =>
            mapM (dict_get (word2idx ["a"; "circle"; "red"; "to"; "walk"]))
                 (parse_command_repr (command e)) = Ok triple.1.1
            /\ (exists actions eos,
                  mapM (dict_get (<["[eos]" := 3]> (word2idx ["walk"])))
                       (parse_command_repr (target_commands e)) = Ok actions
                  /\ <["[eos]" := 3]> (word2idx ["walk"]) !! "[eos]"
                     = Some eos
                  /\ actions ≠ []
                  /\ triple.1.2 = actions ++ [eos])
            /\ parse_sparse_situation (situation e)
                 (grid_size (situation e)) (word2idx Examples.colors)
                 (word2idx Examples.nouns) SchemeSequence false
               = Ok triple.2)
         [mkExample "walk,to,a,red,circle" "walk,walk" Examples.one_circle]
         triples.
Proof.
  eexists. split; [vm_compute; reflexivity|]. split; [reflexivity|].
  refine (proj2 (baseline_examples_end_marker
                   [mkExample "walk,to,a,red,circle" "walk,walk"
                      Examples.one_circle]
                   (word2idx ["a"; "circle"; "red"; "to"; "walk"])
                   (<["[eos]" := 3]> (word2idx ["walk"]))
                   (word2idx Examples.colors) (word2idx Examples.nouns)
                   SchemeSequence false _ _)).
  vm_compute. reflexivity.
Defined.

(** ** Binding words to meanings *)

Section bind_words.

Context (pop : gset string -> string).
Context (Hpop : forall s : gset string, s ≠ ∅ -> pop s ∈ s).
Context (meanings : gset string).

Lemma bind_word_step (table : gmap string string) (available : gset string)
    (word : string) :
  available ≠ ∅ ->
  exists m,
    m ∈ available
    /\ Vocabulary.bind_word pop (table, available) word
       = Ok (<[word := m]> table, available ∖ {[m]}).
Proof.
  intros Hne. unfold Vocabulary.bind_word.
  case_bool_decide as Hin; [by exists word|].
  rewrite bool_decide_eq_false_2 by done.
  exists (pop available). split; [by apply Hpop|done].
Qed.

Lemma bound_step (table : gmap string string) (available : gset string)
    (word m : string) :
  Vocabulary.bound meanings (table, available) -> m ∈ available ->
  Vocabulary.bound meanings (<[word := m]> table, available ∖ {[m]}).
Proof.
  intros (Hsub & Hvals & Hinj) Hm. simpl in *.
  assert (m ∉ available ∖ {[m]}) as Hout.
  { intros [_ Hn]%elem_of_difference. apply Hn. by apply elem_of_singleton. }
  split; [|split]; simpl.
  - intros x [Hx _]%elem_of_difference. by apply Hsub.
  - intros w m'. destruct (decide (w = word)) as [->|Hne].
    + rewrite lookup_insert_eq. intros [= <-]. split; [by apply Hsub|done].
    + rewrite lookup_insert_ne by done. intros Hw.
      destruct (Hvals w m' Hw) as [? Hn]. split; [done|].
      by intros [? _]%elem_of_difference.
  - intros w1 w2 m'.
    destruct (decide (w1 = word)) as [->|Hne1],
             (decide (w2 = word)) as [->|Hne2]; [done|..].
    + rewrite lookup_insert_eq, lookup_insert_ne by done.
      intros [= <-] Hw2. destruct (Hvals w2 m Hw2) as [_ ?]. done.
    + rewrite lookup_insert_eq, lookup_insert_ne by done.
      intros Hw1 [= <-]. destruct (Hvals w1 m Hw1) as [_ ?]. done.
    + rewrite !lookup_insert_ne by done. apply Hinj.
Qed.

Lemma bind_words_loop (words : list string) (table : gmap string string)
    (available : gset string) :
  Vocabulary.bound meanings (table, available) ->
  (length words <= size available)%nat ->
  exists table' rest,
    Vocabulary.bind_words pop (table, available) words = Ok (table', rest)
    /\ Vocabulary.bound meanings (table', rest)
    /\ dom table' = dom table ∪ list_to_set words
    /\ (size rest + length words = size available)%nat.
Proof.
  revert table available.
  induction words as [|word words IH]; intros table available Hb Hlen.
  { exists table, available. simpl. split; [done|]. split; [done|].
    split; [by rewrite (right_id_L ∅ (∪))|lia]. }
  simpl in Hlen.
  assert (available ≠ ∅) as Hne.
  { intros ->. rewrite size_empty in Hlen. lia. }
  destruct (bind_word_step table available word Hne) as (m & Hm & Hstep).
  assert (size (available ∖ {[m]}) = (size available - 1)%nat) as Hsize.
  { rewrite size_difference by (by apply singleton_subseteq_l).
    by rewrite size_singleton. }
  destruct (IH (<[word := m]> table) (available ∖ {[m]}))
    as (table' & rest & Hrun & Hb' & Hdom & Hrest).
  { by apply bound_step. }
  { lia. }
  exists table', rest. split; [|split; [done|split]].
  - change (Vocabulary.bind_words pop (table, available) (word :: words))
      with (Vocabulary.bind_word pop (table, available) word
              ≫= fun state' => Vocabulary.bind_words pop state' words).
    rewrite Hstep. exact Hrun.
  - rewrite Hdom, dom_insert_L. simpl.
    rewrite (assoc_L (∪)). f_equal. apply (comm_L (∪)).
  - simpl. lia.
Qed.

End bind_words.


Lemma head_elements_pop (s : gset string) :
  s ≠ ∅ -> default "" (head (elements s)) ∈ s.
Proof.
  intros Hne. destruct (elements s) as [|x l] eqn:Hs.
  - by apply elements_empty_inv, leibniz_equiv in Hs.
  - simpl. apply elem_of_elements. rewrite Hs. left.
Qed.


(** ** Translation between words and meanings *)

Lemma translate_to_snoc (items : list (string * string)) (w m : string) :
  Vocabulary.translate_to (items ++ [(w, m)])
  = <[m := w]> (Vocabulary.translate_to items).
Proof. unfold Vocabulary.translate_to. by rewrite foldl_snoc. Qed.

(** The table turned around holds, for every meaning of an item, the word
    of one of the items with that meaning. *)
Lemma translate_to_lookup (items : list (string * string)) (m : string) :
  match Vocabulary.translate_to items !! m with
  | Some w => (w, m) ∈ items
  | None => forall w, (w, m) ∉ items
  end.
Proof.
  induction items as [|[w' m'] items IH] using rev_ind.
  { unfold Vocabulary.translate_to. simpl. rewrite lookup_empty.
    intros w. apply not_elem_of_nil. }
  rewrite translate_to_snoc.
  destruct (decide (m' = m)) as [->|Hne].
  - rewrite lookup_insert_eq. apply elem_of_app. right. left.
  - rewrite lookup_insert_ne by done.
    destruct (Vocabulary.translate_to items !! m) as [w|].
    + apply elem_of_app. by left.
    + intros w [Hin|Hin]%elem_of_app; [by apply (IH w)|].
      apply list_elem_of_singleton in Hin. congruence.
Qed.

Lemma unshared_lookup (ds : list (gmap string string)) (i j : nat)
    (di dj : gmap string string) (w m : string) :
  ~ Vocabulary.shared_word ds ->
  ds !! i = Some di -> ds !! j = Some dj -> i ≠ j ->
  di !! w = Some m -> dj !! w = None.
Proof.
  intros Hshared Hi Hj Hne Hw.
  destruct (dj !! w) as [m'|] eqn:Hw'; [|done].
  exfalso. apply Hshared. exists i, j, di, dj, w.
  repeat (split; [done|]). split; by apply elem_of_dom.
Qed.

(** X21.  The two translation tables of a vocabulary.  [translate_word]
    gives the empty string for a word without entry and
    [translate_meaning] for a meaning that no word has; translating a
    meaning back to a word and that word to its meaning gives the meaning
    again, and the word again when no two words share a meaning, whatever
    the order in which the items of the table are visited.  When no word is
    shared between the six bindings, which is what the constructor
    asserts, every word is translated as its own binding says. *)
Theorem translation_round_trip
    (intransitive_verbs transitive_verbs adverbs nouns color_adjectives
       size_adjectives : gmap string string)
    (items : list (string * string)) :
  let table :=
    Vocabulary.translation_table intransitive_verbs transitive_verbs adverbs
      nouns color_adjectives size_adjectives in
  let back := Vocabulary.translate_to items in
  let bindings :=
    [intransitive_verbs; transitive_verbs; adverbs; nouns; color_adjectives;
     size_adjectives] in
  items ≡ₚ map_to_list table ->
  (forall w, table !! w = None -> Vocabulary.translate_word table w = "")
  /\ (forall m, (forall w, table !! w ≠ Some m) ->
                Vocabulary.translate_meaning back m = "")
  /\ (forall w m,
        table !! w = Some m ->
        Vocabulary.translate_word table (Vocabulary.translate_meaning back m)
        = m)
  /\ ((forall w1 w2 m,
         table !! w1 = Some m -> table !! w2 = Some m -> w1 = w2) ->
      forall w m,
        table !! w = Some m -> Vocabulary.translate_meaning back m = w)
  /\ (~ Vocabulary.shared_word bindings ->
      forall binding w m,
        binding ∈ bindings -> binding !! w = Some m ->
        Vocabulary.translate_word table w = m).
Proof.
  intros table back bindings Hitems.
  assert (forall w m, (w, m) ∈ items <-> table !! w = Some m) as Hin.
  { intros w m. rewrite Hitems. apply elem_of_map_to_list. }
  assert (forall w m, table !! w = Some m ->
                      exists w', back !! m = Some w' /\ table !! w' = Some m)
    as Hback.
  { intros w m Hw. pose proof (translate_to_lookup items m) as Hl.
    fold back in Hl. destruct (back !! m) as [w'|].
    - exists w'. split; [done|]. by apply Hin.
    - destruct (Hl w). by apply Hin. }
  split; [|split; [|split; [|split]]].
  - intros w Hw. unfold Vocabulary.translate_word. by rewrite Hw.
  - intros m Hnone. unfold Vocabulary.translate_meaning.
    pose proof (translate_to_lookup items m) as Hl. fold back in Hl.
    destruct (back !! m) as [w|]; [|done].
    apply Hin in Hl. by destruct (Hnone w).
  - intros w m Hw. destruct (Hback w m Hw) as (w' & Hw' & Ht).
    unfold Vocabulary.translate_meaning, Vocabulary.translate_word.
    by rewrite Hw', Ht.
  - intros Hinj w m Hw. destruct (Hback w m Hw) as (w' & Hw' & Ht).
    unfold Vocabulary.translate_meaning. rewrite Hw'. by eapply Hinj.
  - intros Hshared binding w m Hb Hw.
    unfold Vocabulary.translate_word.
    assert (table !! w = Some m) as ->; [|done].
    apply list_elem_of_lookup_1 in Hb as [i Hi].
    assert (forall j dj, bindings !! j = Some dj -> i ≠ j -> dj !! w = None)
      as Hother.
    { intros j dj Hj Hne.
      by eapply (unshared_lookup bindings i j binding dj w m). }
    pose proof (Hother 0%nat intransitive_verbs eq_refl) as H0.
    pose proof (Hother 1%nat transitive_verbs eq_refl) as H1.
    pose proof (Hother 2%nat adverbs eq_refl) as H2.
    pose proof (Hother 3%nat nouns eq_refl) as H3.
    pose proof (Hother 4%nat color_adjectives eq_refl) as H4.
    pose proof (Hother 5%nat size_adjectives eq_refl) as H5.
    unfold table, Vocabulary.translation_table. cbv zeta.
    destruct i as [|[|[|[|[|[|i]]]]]]; simpl in Hi; [..|done];
      injection Hi as <-;
      repeat first [ rewrite lookup_union_r by (auto with lia)
                   | by apply lookup_union_Some_l ].
Qed.

Lemma translation_round_trip_witness :
  Vocabulary.translate_word
    (Vocabulary.translation_table {[ "walk" := "walk" ]}
       {[ "shove" := "push"; "pull" := "pull" ]}
       {[ "cautiously" := "cautiously" ]} {[ "circle" := "circle" ]}
       {[ "red" := "red" ]} {[ "small" := "small" ]})
    (Vocabulary.translate_meaning
       (Vocabulary.translate_to
          (map_to_list
             (Vocabulary.translation_table {[ "walk" := "walk" ]}
                {[ "shove" := "push"; "pull" := "pull" ]}
                {[ "cautiously" := "cautiously" ]} {[ "circle" := "circle" ]}
                {[ "red" := "red" ]} {[ "small" := "small" ]})))
       "push")
  = "push".
Proof.
  apply (proj1 (proj2 (proj2
           (translation_round_trip {[ "walk" := "walk" ]}
              {[ "shove" := "push"; "pull" := "pull" ]}
              {[ "cautiously" := "cautiously" ]} {[ "circle" := "circle" ]}
              {[ "red" := "red" ]} {[ "small" := "small" ]}
              _ (reflexivity _)))) "shove").
  vm_compute. reflexivity.
Defined.

(** ** The vocabularies exchanged *)

Lemma sorted_option_indices_elem_of (options : list DescriptionOption)
    (query vocabulary_colors vocabulary_nouns : list string) (i : nat) :
  i ∈ sorted_option_indices options query vocabulary_colors vocabulary_nouns
  <-> exists dw w,
        options !! i = Some dw /\ w ∈ dw.1 /\ w ∈ query
        /\ (w ∈ vocabulary_colors \/ w ∈ vocabulary_nouns
            \/ w ∈ size_words).
Proof.
  unfold sorted_option_indices. rewrite sorted_option_indices_spec. simpl.
  set (n := length options).
  set (matches := option_matches
                    (match_tables options query vocabulary_colors
                       vocabulary_nouns)).
  split.
  - intros (_ & Hi & m & Hm)%round_robin_spec_elem.
    apply option_matches_true in Hm as (dw & w & ? & ? & ? & Hv); [|done].
    exists dw, w. repeat (split; [done|]). destruct m; tauto.
  - intros (dw & w & Hdw & Hw & Hq & Hv).
    assert (i < n)%nat by (by eapply lookup_lt_Some).
    assert (exists m, matches m !!! i = true) as [m Hm].
    { destruct Hv as [Hv|[Hv|Hv]];
        [exists ModeColor|exists ModeObject|exists ModeSize];
        (apply option_matches_true; [done|]); by exists dw, w. }
    apply (round_robin_spec_complete matches n n ModeColor m);
      [|split; [|done]|done].
    + rewrite size_list_to_set by apply NoDup_seq. by rewrite length_seq.
    + apply elem_of_list_to_set, elem_of_seq. lia.
Qed.

Lemma sorted_option_indices_NoDup (options : list DescriptionOption)
    (query vocabulary_colors vocabulary_nouns : list string) :
  NoDup (sorted_option_indices options query vocabulary_colors
           vocabulary_nouns).
Proof.
  unfold sorted_option_indices. rewrite sorted_option_indices_spec. simpl.
  apply round_robin_spec_NoDup.
Qed.

Lemma sort_description_words_swap (options : list DescriptionOption)
    (query vocabulary_colors vocabulary_nouns : list string) :
  sort_description_words_by_query_match options query vocabulary_nouns
    vocabulary_colors
  ≡ₚ sort_description_words_by_query_match options query vocabulary_colors
       vocabulary_nouns.
Proof.
  unfold sort_description_words_by_query_match.
  apply omap_Permutation.
  apply NoDup_Permutation; [apply sorted_option_indices_NoDup..|].
  intros i. rewrite !sorted_option_indices_elem_of.
  split; intros (dw & w & ? & ? & ? & Hv); exists dw, w;
    (repeat (split; [done|])); tauto.
Qed.

Lemma segment_query_swap (query vocabulary_colors vocabulary_nouns
                            : list string) :
  segment_query query vocabulary_nouns vocabulary_colors
  = segment_query query vocabulary_colors vocabulary_nouns.
Proof.
  unfold segment_query. f_equal.
  apply filter_ext_elem_of. intros w _.
  rewrite !elem_of_app. tauto.
Qed.

Lemma nonempty_Permutation {A : Type} (l k : list A) :
  l ≡ₚ k -> nonempty l = nonempty k.
Proof.
  intros Hp. destruct l, k; try done.
  - by apply Permutation_nil_l in Hp.
  - by apply Permutation_nil_r in Hp.
Qed.

(** X22.  [generate_oracle_payload] hands the nouns to the oracle strategy
    where it reads the colors, and the colors where it reads the nouns.
    When all the description options are kept ([n_description_options]
    absent), the exchange leaves the same candidate supports: the query is
    segmented into the same words, and the supports built with the two
    vocabularies exchanged are a rearrangement of the supports built with
    the vocabularies in place.  Their order is not kept in general, as the
    example that follows the theorem shows. *)
Theorem exchanged_vocabularies_rearrange (o : OracleOptions)
    (query_instruction : list string) (situation : Situation)
    (vocabulary_colors vocabulary_nouns : list string) :
  n_description_options o = None ->
  let sg :=
    segment_query query_instruction vocabulary_colors vocabulary_nouns in
  let exchanged :=
    segment_query query_instruction vocabulary_nouns vocabulary_colors in
  exchanged = sg
  /\ support_instructions o query_instruction exchanged
       (description_words_options o situation exchanged vocabulary_nouns
          vocabulary_colors)
       (adverb_verb_combos o query_instruction exchanged)
     ≡ₚ support_instructions o query_instruction sg
          (description_words_options o situation sg vocabulary_colors
             vocabulary_nouns)
          (adverb_verb_combos o query_instruction sg).
Proof.
  intros Hn sg exchanged.
  assert (exchanged = sg) as -> by apply segment_query_swap.
  split; [done|].
  assert (filtered_sorted_other_description_words o situation sg
            vocabulary_nouns vocabulary_colors
          ≡ₚ filtered_sorted_other_description_words o situation sg
               vocabulary_colors vocabulary_nouns) as Hothers.
  { unfold filtered_sorted_other_description_words.
    destruct (allow_any_example o).
    - apply sort_description_words_swap.
    - apply filter_Permutation, sort_description_words_swap. }
  assert (description_words_options o situation sg vocabulary_nouns
            vocabulary_colors
          ≡ₚ description_words_options o situation sg vocabulary_colors
               vocabulary_nouns) as Hoptions.
  { unfold description_words_options. rewrite Hn. simpl.
    apply Permutation_app; [|done].
    unfold target_description_words.
    by rewrite (nonempty_Permutation _ _ Hothers). }
  unfold support_instructions. by rewrite Hoptions.
Qed.

Lemma exchanged_vocabularies_rearrange_witness :
  support_instructions Examples.default_options Examples.circle_query
    (segment_query Examples.circle_query Examples.nouns Examples.colors)
    (description_words_options Examples.default_options
       Examples.circle_world
       (segment_query Examples.circle_query Examples.nouns Examples.colors)
       Examples.nouns Examples.colors)
    (adverb_verb_combos Examples.default_options Examples.circle_query
       (segment_query Examples.circle_query Examples.nouns Examples.colors))
  ≡ₚ support_instructions Examples.default_options Examples.circle_query
       (segment_query Examples.circle_query Examples.colors Examples.nouns)
       (description_words_options Examples.default_options
          Examples.circle_world
          (segment_query Examples.circle_query Examples.colors
             Examples.nouns)
          Examples.colors Examples.nouns)
       (adverb_verb_combos Examples.default_options Examples.circle_query
          (segment_query Examples.circle_query Examples.colors
             Examples.nouns))
  /\ (description_words_options Examples.default_options
        Examples.circle_world
        (segment_query Examples.circle_query Examples.nouns Examples.colors)
        Examples.nouns Examples.colors).*1
     = [["small"; "red"; "circle"]; ["big"; "red"; "circle"];
        ["big"; "red"; "cylinder"]; ["big"; "green"; "circle"]]
  /\ (description_words_options Examples.default_options
        Examples.circle_world
        (segment_query Examples.circle_query Examples.colors Examples.nouns)
        Examples.colors Examples.nouns).*1
     = [["small"; "red"; "circle"]; ["big"; "red"; "circle"];
        ["big"; "green"; "circle"]; ["big"; "red"; "cylinder"]].
Proof.
  split; [|split; vm_compute; reflexivity].
  apply (exchanged_vocabularies_rearrange Examples.default_options
           Examples.circle_query Examples.circle_world Examples.colors
           Examples.nouns).
  reflexivity.
Defined.

(** ** Batches of any size *)

(** X23.  [batched] for any batch size: it raises [ValueError] exactly when
    the size is below 1; otherwise it cuts the stream into consecutive
    batches whose concatenation is the stream, none of them empty, each of
    at most [n] elements and all but the last of exactly [n]; an empty
    stream gives no batch at all. *)
Theorem batched_spec {A : Type} (iterable : list A) (n : Z) :
  if decide (n < 1)
  then batched iterable n = Raise ValueError
  else exists batches,
         batched iterable n = Ok batches
         /\ concat batches = iterable
         /\ Forall (fun b => b ≠ [] /\ Z.of_nat (length b) <= n) batches
         /\ (forall (i : nat) (b : list A),
               batches !! i = Some b -> (S i < length batches)%nat ->
               Z.of_nat (length b) = n)
         /\ (iterable = [] -> batches = []).
Proof.
  unfold batched. destruct (decide (n < 1)) as [Hn|Hn].
  { destruct (Z.ltb_spec n 1); [done|lia]. }
  destruct (Z.ltb_spec n 1); [lia|].
  assert (0 < Z.to_nat n)%nat as Hpos by lia.
  exists (batched_loop iterable (Z.to_nat n)). split; [done|].
  split; [by apply batched_loop_concat|]. split; [|split].
  - apply Forall_forall. intros b [i Hi]%list_elem_of_lookup_1.
    pose proof (batched_loop_sizes iterable (Z.to_nat n) i b Hpos Hi) as Hb.
    pose proof (Nat.mod_upper_bound (length iterable) (Z.to_nat n)).
    destruct (decide (S i < _)%nat); [|destruct (decide (_ = 0)%nat)];
      (split; [intros ->; simpl in Hb; lia|lia]).
  - intros i b Hi Hlast.
    pose proof (batched_loop_sizes iterable (Z.to_nat n) i b Hpos Hi) as Hb.
    rewrite decide_True in Hb by done. lia.
  - intros ->. by rewrite batched_loop_equation_1.
Qed.

(** ** The encoded meta-learning examples *)

Lemma add_eos_to_actions_last (actions : list Z) (eos : Z) :
  add_eos_to_actions actions eos
  = match actions with [] => [] | _ => actions ++ [eos] end.
Proof.
  destruct actions as [|a actions]; [done|].
  unfold add_eos_to_actions. simpl. by destruct eos.
Qed.

(** X24.  The format of an encoded meta-learning example.  The support
    instructions, the support targets and the priorities have the same
    length, the smaller of the numbers of instructions and of action
    sequences that the strategy gave; the priority of the support at
    position [i] among [k] is [k - 1 - i], so the priorities go down to 0;
    every support target that has an action ends with the end marker; and
    when the strategy gave no support layout, the layout of the query
    stands in their place. *)
Theorem encoded_example_format
    (world_encoding_scheme : Scheme) (reascan_boxes : bool)
    (instruction_word2idx action_word2idx color2idx noun2idx : gmap string Z)
    (grid_size : Z) (command target_commands : list string)
    (situation : Situation)
    (support_instructions support_targets : list (list string))
    (support_situations : list Situation) (encoded : EncodedExample) :
  encode_metalearning_example world_encoding_scheme reascan_boxes
    instruction_word2idx action_word2idx color2idx noun2idx grid_size
    (command, target_commands, situation, support_instructions,
     support_targets, support_situations) = Ok encoded ->
  let k := length (encoded_support_instructions encoded) in
  k = (length support_instructions `min` length support_targets)%nat
  /\ length (encoded_support_targets encoded) = k
  /\ length (encoded_priorities encoded) = k
  /\ (forall (i : nat) (p : Z),
        encoded_priorities encoded !! i = Some p ->
        p = Z.of_nat (k - 1 - i))
  /\ (exists eos,
        action_word2idx !! "[eos]" = Some eos
        /\ Forall (fun t => t = [] \/ last t = Some eos)
                  (encoded_support_targets encoded))
  /\ match support_situations with
     | [] =>
         encoded_support_layouts encoded
         = QueryLayout (encoded_world_layout encoded)
     | _ =>
         exists layouts,
           encoded_support_layouts encoded = Layouts layouts
           /\ length layouts = length support_situations
     end.
Proof.
  intros Hrun k. unfold encode_metalearning_example in Hrun.
  apply bind_Ok in Hrun as (world_layout & _ & Hrun).
  apply bind_Ok in Hrun as ([query_instruction query_target] & _ & Hrun).
  apply bind_Ok in Hrun as (support_layouts & Hlayouts & Hrun).
  apply bind_Ok in Hrun as ([instructions targets] & Hpairs & Hrun).
  apply bind_Ok in Hrun as (eos & Heos & Hrun).
  injection Hrun as <-. subst k. simpl.
  assert (length instructions
          = (length support_instructions `min` length support_targets)%nat
          /\ length targets = length instructions) as [Hk Ht].
  { destruct support_instructions as [|si sis]; [by injection Hpairs as <- <-|].
    change (nonempty (si :: sis)) with true in Hpairs. cbv iota in Hpairs.
    apply bind_Ok in Hpairs as (pairs & Hp & Hpairs).
    destruct (nonempty pairs); [|done]. injection Hpairs as <- <-.
    apply mapM_Ok_length in Hp. rewrite length_zip in Hp.
    rewrite !length_fmap. done. }
  split; [done|]. split; [by rewrite length_map|]. split.
  { by rewrite length_map, length_reverse, length_seq. }
  split; [|split].
  - intros i p Hp. rewrite list_lookup_fmap in Hp.
    destruct (reverse (seq 0 (length instructions)) !! i) as [j|] eqn:Hj;
      [|done].
    injection Hp as <-. f_equal.
    assert (i < length instructions)%nat as Hi.
    { apply lookup_lt_Some in Hj.
      by rewrite length_reverse, length_seq in Hj. }
    rewrite reverse_lookup in Hj by (by rewrite length_seq).
    rewrite length_seq in Hj. apply lookup_seq in Hj as [-> _]. lia.
  - exists eos. split.
    { unfold dict_get in Heos.
      destruct (action_word2idx !! "[eos]"); [by injection Heos as ->|done]. }
    apply Forall_forall. intros t (t0 & -> & _)%list_elem_of_fmap.
    rewrite add_eos_to_actions_last.
    destruct t0 as [|a t0]; [by left|right]. apply last_snoc.
  - apply mapM_Ok_length in Hlayouts.
    destruct support_situations as [|ss sss].
    + by destruct support_layouts.
    + destruct support_layouts as [|l ls]; [done|]. simpl. eauto.
Qed.

Lemma encoded_example_format_witness :
  exists encoded,
    encode_metalearning_example SchemeSequence false
      (word2idx ["a"; "circle"; "push"; "red"; "to"; "walk"])
      (<["[eos]" := 3]> (word2idx ["push"; "walk"]))
      (word2idx Examples.colors) (word2idx Examples.nouns) 6
      (["push"; "a"; "red"; "circle"], ["walk"; "push"], Examples.one_circle,
       [["walk"; "to"; "a"; "red"; "circle"]; ["push"; "a"; "circle"]],
       [["walk"; "walk"]; ["walk"; "push"]], [])
    = Ok encoded
    /\ encoded_priorities encoded = [1; 0]
    /\ encoded_support_targets encoded = [[2; 2; 3]; [2; 1; 3]]
    /\ length (encoded_support_targets encoded)
       = length (encoded_support_instructions encoded).
Proof.
  eexists. split; [vm_compute; reflexivity|].
  split; [reflexivity|]. split; [reflexivity|].
  eapply (encoded_example_format SchemeSequence false
            (word2idx ["a"; "circle"; "push"; "red"; "to"; "walk"])
            (<["[eos]" := 3]> (word2idx ["push"; "walk"]))
            (word2idx Examples.colors) (word2idx Examples.nouns) 6
            ["push"; "a"; "red"; "circle"] ["walk"; "push"]
            Examples.one_circle
            [["walk"; "to"; "a"; "red"; "circle"]; ["push"; "a"; "circle"]]
            [["walk"; "walk"]; ["walk"; "push"]] []).
  vm_compute. reflexivity.
Defined.

(** ** The word tables *)

Lemma word_indices_snoc (words : list string) (w : string) :
  word_indices (words ++ [w])
  = <[w := Z.of_nat (length words)]> (word_indices words).
Proof. unfold word_indices. by rewrite enumerate_snoc, foldl_snoc. Qed.

Lemma word_indices_lookup (words : list string) (w : string) :
  match word_indices words !! w with
  | None => w ∉ words
  | Some z =>
      exists i : nat,
        z = Z.of_nat i /\ words !! i = Some w
        /\ forall j : nat, (i < j)%nat -> words !! j ≠ Some w
  end.
Proof.
  induction words as [|x words IH] using rev_ind.
  { unfold word_indices. simpl. rewrite lookup_empty. apply not_elem_of_nil. }
  rewrite word_indices_snoc.
  destruct (decide (x = w)) as [->|Hne].
  - rewrite lookup_insert_eq. exists (length words).
    split; [done|]. split.
    + rewrite lookup_app_r by done. by rewrite Nat.sub_diag.
    + intros j Hj. rewrite lookup_ge_None_2; [done|].
      rewrite length_app. simpl. lia.
  - rewrite lookup_insert_ne by done.
    destruct (word_indices words !! w) as [z|].
    + destruct IH as (i & -> & Hi & Hlast). exists i.
      split; [done|]. split.
      * rewrite lookup_app_l; [done|]. by eapply lookup_lt_Some.
      * intros j Hj. destruct (decide (j < length words)%nat).
        -- rewrite lookup_app_l by done. by apply Hlast.
        -- rewrite lookup_app_r by lia.
           destruct (j - length words)%nat; simpl; [congruence|done].
    + rewrite not_elem_of_app. split; [done|].
      by rewrite list_elem_of_singleton.
Qed.

Lemma word_indices_dom (words : list string) :
  dom (word_indices words) = list_to_set words.
Proof.
  induction words as [|x words IH] using rev_ind.
  { unfold word_indices. simpl. apply dom_empty_L. }
  rewrite word_indices_snoc, dom_insert_L, IH, list_to_set_app_L. simpl.
  rewrite (right_id_L ∅ (∪)). apply (comm_L (∪)).
Qed.

Lemma word_indices_size (words : list string) :
  NoDup words -> size (word_indices words) = length words.
Proof.
  intros Hnd. rewrite <- size_dom, word_indices_dom.
  by apply size_list_to_set.
Qed.

Lemma word_indices_NoDup (words : list string) (w : string) (z : Z) :
  NoDup words ->
  word_indices words !! w = Some z
  <-> exists i : nat, z = Z.of_nat i /\ words !! i = Some w.
Proof.
  intros Hnd. pose proof (word_indices_lookup words w) as Hl. split.
  - intros Hz. rewrite Hz in Hl. destruct Hl as (i & ? & ? & _). eauto.
  - intros (i & -> & Hi).
    destruct (word_indices words !! w) as [z|].
    + destruct Hl as (j & -> & Hj & _).
      by rewrite (NoDup_lookup _ _ _ _ Hnd Hi Hj).
    + destruct Hl. by eapply list_elem_of_lookup_2.
Qed.

Lemma str_le_total : Total str_le.
Proof. intros a b. apply String.leb_total. Qed.

Lemma sorted_unique_spec (tokens : list string) :
  (forall w, w ∈ sorted_unique tokens <-> w ∈ tokens)
  /\ NoDup (sorted_unique tokens)
  /\ Sorted str_le (sorted_unique tokens).
Proof.
  unfold sorted_unique. split; [|split].
  - intros w. rewrite merge_sort_Permutation, elem_of_elements.
    apply elem_of_list_to_set.
  - rewrite merge_sort_Permutation. apply NoDup_elements.
  - apply Sorted_merge_sort, str_le_total.
Qed.

(** X25.  [INPUT_WORD2IDX], for a corpus none of whose commands has the
    token "[pad]" or "[sos]": the distinct tokens of the commands of all
    the splits, sorted, are numbered from 0 in their order, "[pad]" and
    "[sos]" take the next two numbers, and no two words have the same
    number. *)
Theorem INPUT_WORD2IDX_spec (examples_of_splits : list (list Example)) :
  let tokens :=
    concat (map (fun example => parse_command_repr (command example))
                (concat examples_of_splits)) in
  let words := sorted_unique tokens in
  let table := INPUT_WORD2IDX examples_of_splits in
  let n := Z.of_nat (length words) in
  "[pad]" ∉ tokens -> "[sos]" ∉ tokens ->
  (forall w, w ∈ words <-> w ∈ tokens)
  /\ NoDup words
  /\ Sorted str_le words
  /\ (forall (i : nat) (w : string),
        words !! i = Some w -> table !! w = Some (Z.of_nat i))
  /\ table !! "[pad]" = Some n
  /\ table !! "[sos]" = Some (n + 1)
  /\ (forall w z, table !! w = Some z -> 0 <= z <= n + 1)
  /\ (forall w1 w2 z,
        table !! w1 = Some z -> table !! w2 = Some z -> w1 = w2).
Proof.
  intros tokens words table n Hpad Hsos.
  destruct (sorted_unique_spec tokens) as (Hin & Hnd & Hsorted).
  fold words in Hin, Hnd, Hsorted.
  assert (size (word_indices words) = length words) as Hsize
    by (by apply word_indices_size).
  assert ("[pad]" ∉ dom (word_indices words)) as Hpad'.
  { rewrite word_indices_dom, elem_of_list_to_set, Hin. done. }
  assert (size (<["[pad]" := Z.of_nat (size (word_indices words))]>
                  (word_indices words)) = S (length words)) as Hsize'.
  { rewrite map_size_insert_None; [by rewrite Hsize|].
    by apply not_elem_of_dom. }
  assert (table
          = <["[sos]" := n + 1]> (<["[pad]" := n]> (word_indices words)))
    as Htable.
  { unfold table.
    change (INPUT_WORD2IDX examples_of_splits)
      with (<["[sos]" :=
                Z.of_nat
                  (size (<["[pad]" := Z.of_nat (size (word_indices words))]>
                           (word_indices words)))]>
              (<["[pad]" := Z.of_nat (size (word_indices words))]>
                 (word_indices words))).
    rewrite Hsize', Hsize. f_equal. unfold n. lia. }
  assert (forall w z,
            table !! w = Some z <->
            (w = "[sos]" /\ z = n + 1) \/ (w = "[pad]" /\ z = n)
            \/ exists i : nat, z = Z.of_nat i /\ words !! i = Some w)
    as Hlookup.
  { intros w z. rewrite Htable.
    destruct (decide (w = "[sos]")) as [->|Hs].
    { rewrite lookup_insert_eq. split.
      - intros [= <-]. by left.
      - intros [[_ ->]|[[? _]|(i & _ & Hi)]]; [done..|].
        destruct Hsos. apply Hin. by eapply list_elem_of_lookup_2. }
    rewrite lookup_insert_ne by done.
    destruct (decide (w = "[pad]")) as [->|Hp].
    { rewrite lookup_insert_eq. split.
      - intros [= <-]. right. by left.
      - intros [[? _]|[[_ ->]|(i & _ & Hi)]]; [done..|].
        destruct Hpad. apply Hin. by eapply list_elem_of_lookup_2. }
    rewrite lookup_insert_ne by done.
    rewrite word_indices_NoDup by done. split; [by eauto|].
    by intros [[? _]|[[? _]|?]]. }
  split; [done|]. split; [done|]. split; [done|]. split; [|split; [|split]].
  - intros i w Hi. apply Hlookup. right. right. eauto.
  - apply Hlookup. right. by left.
  - apply Hlookup. by left.
  - split.
    + intros w z [[_ ->]|[[_ ->]|(i & -> & Hi)]]%Hlookup; unfold n; try lia.
      apply lookup_lt_Some in Hi. lia.
    + intros w1 w2 z H1%Hlookup H2%Hlookup.
      destruct H1 as [[-> ->]|[[-> ->]|(i & -> & Hi)]],
               H2 as [[-> Hz]|[[-> Hz]|(j & Hz & Hj)]];
        try done; try lia;
        try (apply lookup_lt_Some in Hi; unfold n in *; lia);
        try (apply lookup_lt_Some in Hj; unfold n in *; lia).
      assert (i = j) as -> by lia. congruence.
Qed.

Lemma INPUT_WORD2IDX_spec_witness :
  INPUT_WORD2IDX [Examples.train_examples] !! "[pad]" = Some 6
  /\ INPUT_WORD2IDX [Examples.train_examples] !! "[sos]" = Some 7
  /\ INPUT_WORD2IDX [Examples.train_examples] !! "circle" = Some 1.
Proof.
  pose proof (INPUT_WORD2IDX_spec [Examples.train_examples]) as Hspec.
  cbv zeta in Hspec.
  destruct Hspec as (_ & _ & _ & Hwords & Hpad & Hsos & _).
  - apply (proj1 (py_in_false _ _)). vm_compute. reflexivity.
  - apply (proj1 (py_in_false _ _)). vm_compute. reflexivity.
  - split; [exact Hpad|]. split; [exact Hsos|].
    apply (Hwords 1%nat). vm_compute. reflexivity.
Defined.
